(** * cipher_tools: Vigenere coding and the Kasiski examination

    A shallow embedding of [cipher_tools.py] (rotate_letter,
    vigenere_encode, vigenere_decode) and of [vigenere_cracking.py]
    (find_matches, get_pattern_distances, get_factors, maximize_patterns,
    initialize_patterns, remove_redundant_patterns, vigenere_kasiski_test),
    followed by the properties of the specification.

    Conventions of the embedding.
    - A Python [str] is a list of characters; a character is a code point
      of the Latin-1 range (Rocq's [ascii]).
    - A Python [int] is a [Z]; [%] is [Z.modulo] (the sign of the divisor),
      [len] is [Zlen].
    - A Python [dict] is an association list in insertion order with
      pairwise distinct keys: [d[k] = v] replaces in place or appends,
      [del d[k]] removes, iteration follows the list.
    - A call either returns a value, raises an exception, or exhausts the
      recursion budget of the model ([OutOfFuel]). *)

From Stdlib Require Import String.
From Stdlib Require Import List ZArith Ascii Bool Lia Arith Sorted.
Import ListNotations.

Open Scope Z_scope.

(** ** Results of calls *)

Inductive exn : Type :=
| AssertionError
| ZeroDivisionError
| IndexError
| KeyError
| ValueError.

Inductive result (A : Type) : Type :=
| Ok (a : A)
| Raise (e : exn)
| OutOfFuel.

Arguments Ok {A} a.
Arguments Raise {A} e.
Arguments OutOfFuel {A}.

Definition bind {A B : Type} (m : result A) (f : A -> result B) : result B :=
  match m with
  | Ok a => f a
  | Raise e => Raise e
  | OutOfFuel => OutOfFuel
  end.

Notation "x <- m ;; k" := (bind m (fun x => k))
  (at level 61, m at next level, right associativity).

Definition returns {A : Type} (m : result A) : Prop := exists a, m = Ok a.

(** ** Strings, lengths and slices *)

Definition str : Type := list ascii.

Definition Zlen {A : Type} (l : list A) : Z := Z.of_nat (length l).

Fixpoint str_eqb (s t : str) : bool :=
  match s, t with
  | [], [] => true
  | c :: s', d :: t' => Ascii.eqb c d && str_eqb s' t'
  | _, _ => false
  end.

Fixpoint list_Z_eqb (l m : list Z) : bool :=
  match l, m with
  | [], [] => true
  | x :: l', y :: m' => (x =? y) && list_Z_eqb l' m'
  | _, _ => false
  end.

(** Python's normalisation of a slice bound against a length. *)
Definition clamp (n i : Z) : Z :=
  if i <? 0 then Z.max (i + n) 0 else Z.min i n.

(** [s[a:b]]. *)
Definition slice {A : Type} (s : list A) (a b : Z) : list A :=
  let n := Zlen s in
  let lo := clamp n a in
  let hi := clamp n b in
  firstn (Z.to_nat (hi - lo)) (skipn (Z.to_nat lo) s).

Definition ord (c : ascii) : Z := Z.of_N (N_of_ascii c).
Definition chr (z : Z) : ascii := ascii_of_N (Z.to_N z).

(** [str.lower] on one Latin-1 character: A-Z and the accented capitals
    U+00C0-U+00DE (without the multiplication sign U+00D7) move up by 32. *)
Definition lower_char (c : ascii) : ascii :=
  let o := ord c in
  if ((65 <=? o) && (o <=? 90))
     || ((192 <=? o) && (o <=? 222) && negb (o =? 215))
  then chr (o + 32) else c.

(** [str.lower] on a string of Latin-1 characters, where it works character
    by character and keeps the length.  Outside Latin-1 it may lengthen a
    string (U+0130 becomes two characters); such keys are outside [str], and
    what is stated below of a lower-cased key is stated for alphabetic
    keys. *)
Definition lower (s : str) : str := map lower_char s.

(** [l * k] for a list [l] and a count [k]. *)
Fixpoint list_mul {A : Type} (l : list A) (k : nat) : list A :=
  match k with
  | O => []
  | S k' => l ++ list_mul l k'
  end.

(** ** cipher_tools.py *)

Definition rotate_letter (letter : ascii) (rotate_by : Z) : ascii :=
  if (ord "a" <=? ord letter) && (ord letter <? ord "z" + 1) then
    chr (((ord letter - ord "a" + rotate_by) mod 26) + ord "a")
  else if (ord "A" <=? ord letter) && (ord letter <? ord "Z" + 1) then
    chr (((ord letter - ord "A" + rotate_by) mod 26) + ord "A")
  else letter.

(** The loop [for x in range(len(text))] of vigenere_encode, with both
    subscripts checked. *)
Fixpoint encode_loop (text : str) (key_text_list : list Z) (xs : list nat)
  : result str :=
  match xs with
  | [] => Ok []
  | x :: xs' =>
      match nth_error text x, nth_error key_text_list x with
      | Some c, Some k =>
          rest <- encode_loop text key_text_list xs' ;;
          Ok (rotate_letter c k :: rest)
      | _, _ => Raise IndexError
      end
  end.

(** [math.floor(len(text)/len(key))] is the integer quotient (the float
    quotient is exact for lengths below 2^53); the division raises
    ZeroDivisionError on an empty key. *)
Definition vigenere_encode (text key : str) : result str :=
  if Zlen text <? Zlen key then Raise AssertionError
  else
    let key := lower key in
    let key_list := map (fun x => ord x - ord "a") key in
    if Zlen key =? 0 then Raise ZeroDivisionError
    else
      let key_text_list :=
        list_mul key_list (length text / length key)%nat
        ++ firstn (length text mod length key)%nat key_list in
      encode_loop text key_text_list (seq 0 (length text)).

Definition vigenere_decode (crypt_text key : str) : result str :=
  if Zlen crypt_text <? Zlen key then Raise AssertionError
  else
    let key := lower key in
    let decryption_key :=
      map (fun each => chr ((26 - (ord each - ord "a")) mod 26 + ord "a")) key in
    vigenere_encode crypt_text decryption_key.

(** A key made of the letters a-z and A-Z. *)
Definition is_letter (c : ascii) : bool :=
  ((97 <=? ord c) && (ord c <=? 122)) || ((65 <=? ord c) && (ord c <=? 90)).

Definition alphabetic (key : str) : Prop := forallb is_letter key = true.

Definition lit (s : String.string) : str := String.list_ascii_of_string s.
Arguments lit s%_string.

(** ** Pattern tables (Python dicts from pattern to occurrence list) *)

Definition table : Type := list (str * list Z).

Definition keys (d : table) : list str := map fst d.

Fixpoint dict_get (d : table) (k : str) : option (list Z) :=
  match d with
  | [] => None
  | (k', v) :: d' => if str_eqb k' k then Some v else dict_get d' k
  end.

(** [d[k]] as an expression: KeyError when the key is absent. *)
Definition dict_lookup (d : table) (k : str) : result (list Z) :=
  match dict_get d k with
  | Some v => Ok v
  | None => Raise KeyError
  end.

Definition dict_mem (d : table) (k : str) : bool :=
  match dict_get d k with
  | Some _ => true
  | None => false
  end.

(** [d[k] = v]: in place for a key already there, appended otherwise. *)
Fixpoint dict_set (d : table) (k : str) (v : list Z) : table :=
  match d with
  | [] => [(k, v)]
  | (k', v') :: d' =>
      if str_eqb k' k then (k', v) :: d' else (k', v') :: dict_set d' k v
  end.

(** [del d[k]]: KeyError when the key is absent. *)
Fixpoint dict_del (d : table) (k : str) : result table :=
  match d with
  | [] => Raise KeyError
  | (k', v') :: d' =>
      if str_eqb k' k then Ok d'
      else d'' <- dict_del d' k ;; Ok ((k', v') :: d'')
  end.

(** ** vigenere_cracking.py *)

Definition find_matches (text pattern : str) (candidate_locations : list Z)
  : list Z :=
  filter (fun each =>
            negb (each + Zlen pattern >? Zlen text)
            && str_eqb (slice text each (each + Zlen pattern)) pattern)
         candidate_locations.

(** [set(l)] listed: one copy of each element.  Python leaves the order of
    a set open; the code reads it only once the set has at most one element,
    or sorts what it builds from it. *)
Fixpoint set_of (l : list Z) : list Z :=
  match l with
  | [] => []
  | x :: l' => if existsb (Z.eqb x) l' then set_of l' else x :: set_of l'
  end.

(** [map(int.__sub__, b, a)]: stops with the shorter argument. *)
Fixpoint map_sub (b a : list Z) : list Z :=
  match b, a with
  | x :: b', y :: a' => (x - y) :: map_sub b' a'
  | _, _ => []
  end.

Fixpoint pattern_distances_loop (patterns : table) (ks : list str)
  (pattern_distances : list Z) : result (list Z) :=
  match ks with
  | [] => Ok pattern_distances
  | each_pattern :: ks' =>
      indices <- dict_lookup patterns each_pattern ;;
      let a := removelast indices in
      let b := tl indices in
      let deltas := set_of (map_sub b a) in
      if Zlen deltas >? 1 then
        pattern_distances_loop patterns ks' pattern_distances
      else
        match deltas with
        | [] => Raise IndexError
        | d :: _ =>
            pattern_distances_loop patterns ks' (pattern_distances ++ [d])
        end
  end.

Definition get_pattern_distances (patterns : table) : result (list Z) :=
  pattern_distances <- pattern_distances_loop patterns (keys patterns) [] ;;
  Ok (set_of pattern_distances).

(** [range(1, number + 1)] *)
Definition range1 (number : Z) : list Z :=
  map (fun i => Z.of_nat i) (seq 1 (Z.to_nat number)).

Definition get_factors (number : Z) : list Z :=
  filter (fun i => number mod i =? 0) (range1 number).

(** One pass of the inner loop of maximize_patterns: the pattern tried at
    one occurrence of [each_pattern].  The state is [new_patterns] and the
    flag [changed]. *)
Definition try_occurrence (crypt_text each_pattern : str) (occ : list Z)
  (st : table * bool) (index : Z) : table * bool :=
  let tentative_pattern_length := Zlen each_pattern + 1 in
  let tentative_pattern :=
    slice crypt_text index (index + tentative_pattern_length) in
  let matches := find_matches crypt_text tentative_pattern occ in
  if Zlen matches >? 1 then (dict_set (fst st) tentative_pattern matches, true)
  else st.

(** One pass of the outer loop: all occurrences of one pattern.  The loops
    write to [new_patterns] only, so [patterns[each_pattern]] is the list of
    the entry visited. *)
Definition try_pattern (crypt_text : str) (maximum_pattern_length : Z)
  (st : table * bool) (entry : str * list Z) : table * bool :=
  let each_pattern := fst entry in
  if Zlen each_pattern + 1 >? maximum_pattern_length then st
  else fold_left (try_occurrence crypt_text each_pattern (snd entry))
                 (snd entry) st.

(** Both loops: [new_patterns] and [changed] when the loops are left. *)
Definition extend_patterns (crypt_text : str) (patterns : table)
  (maximum_pattern_length : Z) : table * bool :=
  fold_left (try_pattern crypt_text maximum_pattern_length) patterns ([], false).

(** [for k in r.keys(): patterns[k] = r[k]] *)
Definition dict_update (patterns r : table) : table :=
  fold_left (fun p kv => dict_set p (fst kv) (snd kv)) r patterns.

(** maximize_patterns; [fuel] bounds the depth of the recursion. *)
Fixpoint maximize_patterns (fuel : nat) (crypt_text : str) (patterns : table)
  (maximum_pattern_length : Z) : result table :=
  match fuel with
  | O => OutOfFuel
  | S fuel' =>
      let st := extend_patterns crypt_text patterns maximum_pattern_length in
      if snd st then
        recursive_patterns <-
          maximize_patterns fuel' crypt_text (fst st) maximum_pattern_length ;;
        Ok (dict_update patterns recursive_patterns)
      else Ok patterns
  end.

(** The first loop of initialize_patterns, over the indices still to visit. *)
Fixpoint collect_patterns (crypt_text : str) (minimum_pattern_length : Z)
  (indices : list nat) (patterns : table) : table :=
  match indices with
  | [] => patterns
  | i :: rest =>
      let index := Z.of_nat i in
      if index + minimum_pattern_length >? Zlen crypt_text then patterns
      else
        let current_pattern :=
          slice crypt_text index (index + minimum_pattern_length) in
        match dict_get patterns current_pattern with
        | Some v =>
            collect_patterns crypt_text minimum_pattern_length rest
              (dict_set patterns current_pattern (v ++ [index]))
        | None =>
            collect_patterns crypt_text minimum_pattern_length rest
              (dict_set patterns current_pattern [index])
        end
  end.

(** [sorted(items, key=lambda x: len(x[1]), reverse=True)]: a stable sort,
    longer occurrence lists first. *)
Fixpoint insert_by_count (x : str * list Z) (l : table) : table :=
  match l with
  | [] => [x]
  | y :: l' =>
      if Zlen (snd y) >? Zlen (snd x) then y :: insert_by_count x l'
      else x :: l
  end.

Definition sort_by_count (l : table) : table :=
  fold_right insert_by_count [] l.

(** The second loop of initialize_patterns: copy until the first pattern
    that occurs once. *)
Fixpoint keep_repeated (patterns : table) (copy_patterns : table) : table :=
  match patterns with
  | [] => copy_patterns
  | each_pair :: rest =>
      if Zlen (snd each_pair) <=? 1 then copy_patterns
      else keep_repeated rest
             (dict_set copy_patterns (fst each_pair) (snd each_pair))
  end.

Definition initialize_patterns (crypt_text : str) (minimum_pattern_length : Z)
  : table :=
  let patterns :=
    collect_patterns crypt_text minimum_pattern_length
      (seq 0 (length crypt_text)) [] in
  keep_repeated (sort_by_count patterns) [].

(** [p] is an initial segment of [s]. *)
Fixpoint is_prefix (p s : str) : bool :=
  match p, s with
  | [], _ => true
  | c :: p', d :: s' => Ascii.eqb c d && is_prefix p' s'
  | _ :: _, [] => false
  end.

(** [sub in s] *)
Fixpoint str_in (sub s : str) : bool :=
  is_prefix sub s
  || match s with
     | [] => false
     | _ :: s' => str_in sub s'
     end.

(** [s.index(sub)]: the lowest position, ValueError when there is none. *)
Fixpoint str_index (s sub : str) : result Z :=
  if is_prefix sub s then Ok 0
  else match s with
       | [] => Raise ValueError
       | _ :: s' => d <- str_index s' sub ;; Ok (d + 1)
       end.

(** The body of the inner loop of remove_redundant_patterns for one
    [larger_key]: [Ok true] when [suspect_key] is marked and the loop is
    left by [break], [Ok false] when the loop goes on. *)
Definition coincides (non_redundant_patterns : table)
  (suspect_key larger_key : str) : result bool :=
  if Zlen suspect_key >=? Zlen larger_key then Ok false
  else if negb (str_in suspect_key larger_key) then Ok false
  else
    vs <- dict_lookup non_redundant_patterns suspect_key ;;
    vl <- dict_lookup non_redundant_patterns larger_key ;;
    if negb (Zlen vs =? Zlen vl) then Ok false
    else
      difference <- str_index larger_key suspect_key ;;
      adjusted <-
        (if difference >? 0 then Ok (map (fun x => x - difference) vs)
         else if difference =? 0 then Ok vs
         else Raise AssertionError) ;;
      Ok (list_Z_eqb adjusted vl).

Fixpoint redundant_in (non_redundant_patterns : table) (suspect_key : str)
  (larger_keys : list str) : result bool :=
  match larger_keys with
  | [] => Ok false
  | larger_key :: rest =>
      marked <- coincides non_redundant_patterns suspect_key larger_key ;;
      if marked then Ok true
      else redundant_in non_redundant_patterns suspect_key rest
  end.

(** The outer loop; the state is [keys_to_delete] and [changed]. *)
Fixpoint mark_redundant (non_redundant_patterns : table)
  (suspects : list str) (st : list str * bool) : result (list str * bool) :=
  match suspects with
  | [] => Ok st
  | suspect_key :: rest =>
      marked <- redundant_in non_redundant_patterns suspect_key
                  (keys non_redundant_patterns) ;;
      mark_redundant non_redundant_patterns rest
        (if marked then (fst st ++ [suspect_key], true) else st)
  end.

Fixpoint delete_keys (d : table) (keys_to_delete : list str) : result table :=
  match keys_to_delete with
  | [] => Ok d
  | each_key :: rest => d' <- dict_del d each_key ;; delete_keys d' rest
  end.

(** remove_redundant_patterns on values; [fuel] bounds the depth of the
    recursion.  The deep copy of the argument is the argument's value. *)
Fixpoint remove_redundant_patterns_fuel (fuel : nat) (patterns : table)
  : result table :=
  match fuel with
  | O => OutOfFuel
  | S fuel' =>
      let non_redundant_patterns := patterns in
      st <- mark_redundant non_redundant_patterns
              (keys non_redundant_patterns) ([], false) ;;
      if snd st then
        non_redundant_patterns' <-
          delete_keys non_redundant_patterns (fst st) ;;
        remove_redundant_patterns_fuel fuel' non_redundant_patterns'
      else Ok non_redundant_patterns
  end.

(** Every recursive call works on a table with fewer keys, so a budget of
    one more than the number of keys is never exhausted
    (see [remove_redundant_patterns_fuel_enough]). *)
Definition remove_redundant_patterns (patterns : table) : result table :=
  remove_redundant_patterns_fuel (S (length patterns)) patterns.

(** *** remove_redundant_patterns on a store of dict objects

    A dict is an object at an address; [copy.deepcopy] allocates a new
    object and [del] writes to the object it is applied to.  The occurrence
    lists are values: the function never writes to a list, and the deep copy
    shares none with its argument. *)

Definition ref : Type := nat.
Definition heap : Type := list table.

Definition heap_read (h : heap) (r : ref) : table := nth r h [].

Definition heap_alloc (h : heap) (d : table) : ref * heap :=
  (length h, h ++ [d]).

Fixpoint heap_write (h : heap) (r : ref) (d : table) : heap :=
  match h, r with
  | [], _ => []
  | _ :: h', O => d :: h'
  | d0 :: h', S r' => d0 :: heap_write h' r' d
  end.

(** [for each_key in keys_to_delete: del obj[each_key]] on the object at [r]. *)
Fixpoint delete_keys_at (r : ref) (keys_to_delete : list str) (h : heap)
  : result heap :=
  match keys_to_delete with
  | [] => Ok h
  | each_key :: rest =>
      d' <- dict_del (heap_read h r) each_key ;;
      delete_keys_at r rest (heap_write h r d')
  end.

Fixpoint remove_redundant_patterns_heap (fuel : nat) (patterns : ref)
  (h : heap) : result (ref * heap) :=
  match fuel with
  | O => OutOfFuel
  | S fuel' =>
      let (non_redundant_patterns, h1) := heap_alloc h (heap_read h patterns) in
      st <- mark_redundant (heap_read h1 non_redundant_patterns)
              (keys (heap_read h1 non_redundant_patterns)) ([], false) ;;
      if snd st then
        h2 <- delete_keys_at non_redundant_patterns (fst st) h1 ;;
        remove_redundant_patterns_heap fuel' non_redundant_patterns h2
      else Ok (non_redundant_patterns, h1)
  end.

(** *** vigenere_kasiski_test *)

(** [list(set(a) & set(b))] *)
Definition set_inter (a b : list Z) : list Z :=
  set_of (filter (fun x => existsb (Z.eqb x) b) a).

(** [sorted(l, reverse=True)] on integers. *)
Fixpoint insert_desc (x : Z) (l : list Z) : list Z :=
  match l with
  | [] => [x]
  | y :: l' => if y >? x then y :: insert_desc x l' else x :: l
  end.

Definition sorted_desc (l : list Z) : list Z := fold_right insert_desc [] l.

Definition vigenere_kasiski_test (fuel : nat) (crypt_text : str)
  (minimum_pattern_length maximum_pattern_length : Z) : result (list Z) :=
  let patterns := initialize_patterns crypt_text minimum_pattern_length in
  patterns <- maximize_patterns fuel crypt_text patterns maximum_pattern_length ;;
  patterns <- remove_redundant_patterns patterns ;;
  distances <- get_pattern_distances patterns ;;
  let pattern_distances := set_of distances in
  let factors_of_distances := map get_factors pattern_distances in
  match factors_of_distances with
  | [] => Raise IndexError
  | first :: others =>
      let possible_key_lengths := fold_left set_inter others first in
      Ok (sorted_desc possible_key_lengths)
  end.

(** ** Auxiliary definitions used in the statements and proofs *)

(** The rotations applied to a text, position by position. *)
Definition rotate_all (text : str) (shifts : list Z) : str :=
  map (fun p => rotate_letter (fst p) (snd p)) (combine text shifts).

(** The key text of vigenere_encode for a text of [n] characters. *)
Definition key_text (key_list : list Z) (n : nat) : list Z :=
  list_mul key_list (n / length key_list)%nat
  ++ firstn (n mod length key_list)%nat key_list.

(** The key of vigenere_decode: every letter mirrored around a. *)
Definition mirror_char (each : ascii) : ascii :=
  chr ((26 - (ord each - ord "a")) mod 26 + ord "a").

(** The pattern occurs in the text at index [e]. *)
Definition occurs_at (text pattern : str) (e : Z) : Prop :=
  0 <= e /\ e + Zlen pattern <= Zlen text
  /\ slice text e (e + Zlen pattern) = pattern.

(** Every index listed for a pattern is an occurrence of it. *)
Definition valid_entry (text : str) (kv : str * list Z) : Prop :=
  Forall (occurs_at text (fst kv)) (snd kv).

Definition valid_table (text : str) (t : table) : Prop :=
  Forall (valid_entry text) t.

(** An initial pattern table for patterns of length [m]: distinct keys, all
    of length [m], each with a list of its occurrences. *)
Definition seeded (text : str) (m : Z) (t : table) : Prop :=
  NoDup (keys t) /\ valid_table text t /\ Forall (fun kv => Zlen (fst kv) = m) t.

(** At least two occurrences, strictly ascending. *)
Definition repeated_ascending (kv : str * list Z) : Prop :=
  2 <= Zlen (snd kv) /\ Sorted.Sorted Z.lt (snd kv).

Definition ascending_entry (kv : str * list Z) : Prop :=
  Sorted.Sorted Z.lt (snd kv).

(** Pattern monotonicity above length [m]: the occurrences of a pattern are
    among those of the pattern without its last character. *)
Definition prefix_monotone (m : Z) (R : table) : Prop :=
  forall Q occQ,
    dict_get R Q = Some occQ -> m < Zlen Q ->
    exists occP, dict_get R (removelast Q) = Some occP /\ incl occQ occP.

(** [Q] with the list [v] is what maximize_patterns registers when it
    extends some pattern of [t] at one of its occurrences. *)
Definition extension_of (text : str) (max : Z) (t : table)
  (kv : str * list Z) : Prop :=
  exists P occ i,
    In (P, occ) t /\ Zlen P + 1 <= max /\ In i occ
    /\ fst kv = slice text i (i + (Zlen P + 1))
    /\ snd kv = find_matches text (fst kv) occ
    /\ 1 < Zlen (snd kv).

(** A table on which maximize_patterns recurses for ever: a pattern of
    least length that ends with the text, occurs twice and may still grow. *)
Definition stuck (text : str) (max : Z) (t : table) : Prop :=
  NoDup (keys t) /\ valid_table text t
  /\ exists P occ,
       dict_get t P = Some occ /\ In (Zlen text - Zlen P) occ
       /\ Zlen P + 1 <= max /\ 1 < Zlen occ
       /\ forall K, In K (keys t) -> Zlen P <= Zlen K.

(** [l1] is [l2] with some elements left out. *)
Inductive subseq {A : Type} : list A -> list A -> Prop :=
| subseq_nil : subseq [] []
| subseq_skip (x : A) (l1 l2 : list A) : subseq l1 l2 -> subseq l1 (x :: l2)
| subseq_keep (x : A) (l1 l2 : list A) :
    subseq l1 l2 -> subseq (x :: l1) (x :: l2).

(** The verdict of the inner loop of remove_redundant_patterns on a key. *)
Definition is_redundant (t : table) (suspect_key : str) : bool :=
  match redundant_in t suspect_key (keys t) with
  | Ok marked => marked
  | _ => false
  end.

(** ** Further functions of cipher_tools.py *)

(** rotate: the list of rotated letters, joined. *)
Definition rotate (plaintext : str) (rotate_by : Z) : str :=
  map (fun x => rotate_letter x rotate_by) plaintext.

(** [range(n)] *)
Definition range (n : nat) : list Z := map Z.of_nat (seq 0 n).

Definition get_all_rotations (crypt_text : str) : list str :=
  map (fun y => rotate crypt_text y) (range 26).

Definition is_lower (c : ascii) : bool := (97 <=? ord c) && (ord c <=? 122).
Definition is_upper (c : ascii) : bool := (65 <=? ord c) && (ord c <=? 90).

(** What a shift may do to one character: a small letter stays small, a
    capital stays a capital, anything else stays as it is. *)
Definition same_class (c d : ascii) : Prop :=
  (is_lower c = true -> is_lower d = true)
  /\ (is_upper c = true -> is_upper d = true)
  /\ (is_lower c = false -> is_upper c = false -> d = c).

(** ** Notions used to state properties of vigenere_cracking.py *)

(** All consecutive differences of the list are [d]. *)
Definition constant_spacing (v : list Z) (d : Z) : Prop :=
  forall i, (S i < length v)%nat -> nth (S i) v 0 - nth i v 0 = d.

(** The set of consecutive differences that get_pattern_distances builds. *)
Definition deltas_of (indices : list Z) : list Z :=
  set_of (map_sub (tl indices) (removelast indices)).

(** Every pattern of length [L] that occurs at two different indices is a
    key of the table, with all of its occurrences. *)
Definition complete_table (text : str) (L : Z) (t : table) : Prop :=
  forall P e1 e2,
    Zlen P = L -> occurs_at text P e1 -> occurs_at text P e2 -> e1 <> e2 ->
    exists occ,
      dict_get t P = Some occ /\ forall e, occurs_at text P e -> In e occ.

(** ** Frequency analysis and substitution (cipher_tools.py) *)

From Stdlib Require Import Permutation.

(** Dicts with other keys and values than the pattern tables: association
    lists in insertion order, with the equality test of the keys. *)
Section Assoc.

Context {K V : Type}.
Variable eqb : K -> K -> bool.

Fixpoint aget (d : list (K * V)) (k : K) : option V :=
  match d with
  | [] => None
  | (k', v) :: d' => if eqb k' k then Some v else aget d' k
  end.

Fixpoint aset (d : list (K * V)) (k : K) (v : V) : list (K * V) :=
  match d with
  | [] => [(k, v)]
  | (k', v') :: d' =>
      if eqb k' k then (k', v) :: d' else (k', v') :: aset d' k v
  end.

End Assoc.

(** [str.upper] on one Latin-1 character, as code points: the small letters
    move down by 32, the sharp s becomes SS, and the micro sign and the y
    with diaeresis leave the Latin-1 range. *)
Definition upper_char (c : ascii) : list Z :=
  let o := ord c in
  if (97 <=? o) && (o <=? 122) then [o - 32]
  else if o =? 181 then [924]
  else if o =? 223 then [83; 83]
  else if (224 <=? o) && (o <=? 254) && negb (o =? 247) then [o - 32]
  else if o =? 255 then [376]
  else [o].

Definition upper (s : str) : list Z := flat_map upper_char s.

(** [range(a, a + n)] *)
Definition range_from (a : Z) (n : nat) : list Z :=
  map (fun i => a + Z.of_nat i) (seq 0 n).

(** The dict of get_letter_counts after its first loop: A to Z, all 0. *)
Definition zero_counts : list (ascii * Z) :=
  fold_left (fun counts x => aset Ascii.eqb counts (chr x) 0)
            (range_from (ord "A") 26) [].

(** The second loop of get_letter_counts, over the characters (code points)
    of the upper-cased text. *)
Fixpoint count_letters (text : list Z) (counts : list (ascii * Z))
  : result (list (ascii * Z)) :=
  match text with
  | [] => Ok counts
  | each :: rest =>
      if negb ((ord "A" <=? each) && (each <? ord "Z" + 1)) then
        count_letters rest counts
      else
        match aget Ascii.eqb counts (chr each) with
        | None => Raise KeyError
        | Some n =>
            count_letters rest (aset Ascii.eqb counts (chr each) (n + 1))
        end
  end.

Definition get_letter_counts (text : str) : result (list (ascii * Z)) :=
  count_letters (upper text) zero_counts.

(** [sorted(d.items(), key=lambda x: x[1], reverse=True)]: a stable sort,
    larger values first. *)
Fixpoint insert_by_value {K : Type} (x : K * Z) (l : list (K * Z))
  : list (K * Z) :=
  match l with
  | [] => [x]
  | y :: l' => if snd y >? snd x then y :: insert_by_value x l' else x :: l
  end.

Definition sort_dict_of_str_to_int {K : Type} (unsorted_dict : list (K * Z))
  : list (K * Z) :=
  fold_right insert_by_value [] unsorted_dict.

Definition substitute_alphabet (text : str)
  (origin_to_destination : list (ascii * str)) : str :=
  flat_map (fun letter =>
              match aget Ascii.eqb origin_to_destination letter with
              | None => [letter]
              | Some destination => destination
              end) text.

Definition letters_by_english_frequency : str :=
  lit "ETAOINSHRDLCUMWFGYPBVKJXQZ".

(** The dict of naive_substitution after its first loop: A to Z, all '-'. *)
Definition blank_cipher : list (ascii * str) :=
  fold_left (fun cipher x => aset Ascii.eqb cipher (chr x) (lit "-"))
            (range_from (ord "A") 26) [].

(** The second loop of naive_substitution, from position [index] on. *)
Fixpoint assign_letters (sorted_counts : list (ascii * Z)) (index : nat)
  (substitution_cipher : list (ascii * str)) : result (list (ascii * str)) :=
  match sorted_counts with
  | [] => Ok substitution_cipher
  | (letter, count) :: rest =>
      if count =? 0 then Ok substitution_cipher
      else
        match nth_error letters_by_english_frequency index with
        | None => Raise IndexError
        | Some plain =>
            assign_letters rest (S index)
              (aset Ascii.eqb substitution_cipher letter [plain])
        end
  end.

Definition naive_substitution (sorted_counts : list (ascii * Z))
  : result (list (ascii * str)) :=
  assign_letters sorted_counts 0 blank_cipher.

(** The dict that undoes a letter-to-letter dict. *)
Definition inverse_letters (d : list (ascii * ascii)) : list (ascii * str) :=
  map (fun kv => (snd kv, [fst kv])) d.

Definition letter_dict (d : list (ascii * ascii)) : list (ascii * str) :=
  map (fun kv => (fst kv, [snd kv])) d.

(** The number of entries before the first count of 0: the entries that the
    loop of naive_substitution visits before it breaks. *)
Fixpoint leading_nonzero (sorted_counts : list (ascii * Z)) : nat :=
  match sorted_counts with
  | [] => 0
  | (_, count) :: rest =>
      if count =? 0 then 0 else S (leading_nonzero rest)
  end.

(** ** n-graphs (cipher_tools.py) *)

(** The if/else that the n-graph loops share: an n-graph seen for the
    first time gets the count 1, a known one is counted up. *)
Definition count_n_graph (n_graphs : list (str * Z)) (this_digraph : str)
  : list (str * Z) :=
  match aget str_eqb n_graphs this_digraph with
  | None => aset str_eqb n_graphs this_digraph 1
  | Some count => aset str_eqb n_graphs this_digraph (count + 1)
  end.

(** The while loop of get_n_graphs on one word, from [index] on. *)
Fixpoint n_graphs_of_word (fuel : nat) (each_word : str) (n index : Z)
  (n_graphs : list (str * Z)) : result (list (str * Z)) :=
  match fuel with
  | O => OutOfFuel
  | S fuel' =>
      if index + n <=? Zlen each_word then
        n_graphs_of_word fuel' each_word n (index + 1)
          (count_n_graph n_graphs (slice each_word index (index + n)))
      else Ok n_graphs
  end.

Fixpoint n_graphs_of_words (fuel : nat) (words : list str) (n : Z)
  (n_graphs : list (str * Z)) : result (list (str * Z)) :=
  match words with
  | [] => Ok n_graphs
  | each_word :: rest =>
      n_graphs' <- n_graphs_of_word fuel each_word n 0 n_graphs ;;
      n_graphs_of_words fuel rest n n_graphs'
  end.

Definition get_n_graphs (fuel : nat) (words : list str) (n : Z)
  : result (list (str * Z)) :=
  n_graphs_of_words fuel words n [].

(** [sorted(filter(lambda x: x[1] > 1, items), key=lambda x: x[1],
    reverse=True)] *)
Definition repeated_by_count (items : list (str * Z)) : list (str * Z) :=
  sort_dict_of_str_to_int (filter (fun x => snd x >? 1) items).

Definition get_n_graphs_by_count (fuel : nat) (words : list str) (n : Z)
  : result (list (str * Z)) :=
  n_graphs <- get_n_graphs fuel words n ;;
  Ok (repeated_by_count n_graphs).

Definition get_n_graph_prefixes (words : list str) (n : Z)
  : list (str * Z) :=
  fold_left (fun n_graphs each_word =>
               let index := 0 in
               if index + n >? Zlen each_word then n_graphs
               else count_n_graph n_graphs
                      (slice each_word index (index + n)))
            words [].

Definition get_n_graph_suffixes (words : list str) (n : Z)
  : list (str * Z) :=
  fold_left (fun n_graphs each_word =>
               let index := Zlen each_word - n in
               if (index <? 0) || (index >? Zlen each_word) then n_graphs
               else count_n_graph n_graphs
                      (slice each_word index (index + n)))
            words [].

(** The count of a key of a dict of counts, 0 for a key that is absent. *)
Definition count_of (n_graphs : list (str * Z)) (g : str) : Z :=
  match aget str_eqb n_graphs g with
  | Some count => count
  | None => 0
  end.

(** The number of occurrences of [g] in the words, by find_matches over
    all indices of each word. *)
Definition occurrences_in (words : list str) (g : str) : Z :=
  fold_right Z.add 0
    (map (fun w => Zlen (find_matches w g (range (length w)))) words).

(** A pattern table with each list of occurrences replaced by its length. *)
Definition occurrence_counts (t : table) : list (str * Z) :=
  map (fun kv => (fst kv, Zlen (snd kv))) t.

(** A dict of counts with every key reversed. *)
Definition reverse_keys (d : list (str * Z)) : list (str * Z) :=
  map (fun kv => (rev (fst kv), snd kv)) d.

(** The n-graphs that the while loop of get_n_graphs reads off one word,
    in the order of the loop. *)
Definition windows (n : Z) (each_word : str) : list str :=
  map (fun index => slice each_word index (index + n))
      (range_from 0 (Z.to_nat (Zlen each_word - n + 1))).

(** The number of members of a list of strings that are equal to [g]. *)
Definition count_in (gs : list str) (g : str) : Z :=
  Zlen (filter (fun x => str_eqb x g) gs).

(** * Properties *)

(** ** Basic facts: results, lengths, characters *)

Lemma Zlen_nonneg {A : Type} (l : list A) : 0 <= Zlen l.
Proof. unfold Zlen. lia. Qed.

Lemma Zlen_nil_iff {A : Type} (l : list A) : Zlen l = 0 <-> l = [].
Proof.
  unfold Zlen. destruct l; simpl; split; intro H; try reflexivity;
    try discriminate; lia.
Qed.

Lemma str_eqb_eq (s t : str) : str_eqb s t = true <-> s = t.
Proof.
  revert t. induction s as [|c s IH]; intros [|d t]; simpl;
    try (split; [discriminate | discriminate]); try tauto.
  rewrite andb_true_iff, Ascii.eqb_eq, IH.
  split; [intros [-> ->]; reflexivity | intros H; inversion H; auto].
Qed.

Lemma str_eqb_refl (s : str) : str_eqb s s = true.
Proof. apply str_eqb_eq. reflexivity. Qed.

Lemma str_eqb_neq (s t : str) : str_eqb s t = false <-> s <> t.
Proof.
  rewrite <- str_eqb_eq. destruct (str_eqb s t); split; congruence.
Qed.

Lemma str_eqb_sym (s t : str) : str_eqb s t = str_eqb t s.
Proof.
  destruct (str_eqb s t) eqn:E.
  - apply str_eqb_eq in E. subst. symmetry. apply str_eqb_refl.
  - destruct (str_eqb t s) eqn:E'; [|reflexivity].
    apply str_eqb_eq in E'. subst. rewrite str_eqb_refl in E. discriminate.
Qed.

Lemma list_Z_eqb_eq (l m : list Z) : list_Z_eqb l m = true <-> l = m.
Proof.
  revert m. induction l as [|x l IH]; intros [|y m]; simpl;
    try (split; [discriminate | discriminate]); try tauto.
  rewrite andb_true_iff, Z.eqb_eq, IH.
  split; [intros [-> ->]; reflexivity | intros H; inversion H; auto].
Qed.

Lemma ord_range (c : ascii) : 0 <= ord c < 256.
Proof.
  unfold ord. pose proof (N_ascii_bounded c). lia.
Qed.

Lemma ord_chr (z : Z) : 0 <= z < 256 -> ord (chr z) = z.
Proof.
  intros Hz. unfold ord, chr. rewrite N_ascii_embedding by lia. lia.
Qed.

Lemma chr_ord (c : ascii) : chr (ord c) = c.
Proof.
  unfold ord, chr. rewrite N2Z.id. apply ascii_N_embedding.
Qed.

Lemma ord_consts :
  ord "a" = 97 /\ ord "z" = 122 /\ ord "A" = 65 /\ ord "Z" = 90.
Proof. repeat split. Qed.

(** ** Vigenere coding *)

Section Vigenere.

Lemma length_list_mul {A : Type} (l : list A) (k : nat) :
  length (list_mul l k) = (k * length l)%nat.
Proof.
  induction k as [|k IH]; simpl; [reflexivity|].
  rewrite length_app, IH. reflexivity.
Qed.

Lemma map_list_mul {A B : Type} (f : A -> B) (l : list A) (k : nat) :
  map f (list_mul l k) = list_mul (map f l) k.
Proof.
  induction k as [|k IH]; simpl; [reflexivity|].
  rewrite map_app, IH. reflexivity.
Qed.

Lemma length_key_text (key_list : list Z) (n : nat) :
  key_list <> [] -> length (key_text key_list n) = n.
Proof.
  intros Hne. unfold key_text.
  assert (Hk : length key_list <> 0%nat)
    by (destruct key_list; [congruence | simpl; lia]).
  rewrite length_app, length_list_mul, length_firstn.
  pose proof (Nat.mod_upper_bound n (length key_list) Hk) as Hlt.
  rewrite Nat.min_l by lia.
  pose proof (Nat.div_mod_eq n (length key_list)) as Hdm. lia.
Qed.

Lemma map_key_text (f : Z -> Z) (key_list : list Z) (n : nat) :
  map f (key_text key_list n) = key_text (map f key_list) n.
Proof.
  unfold key_text. rewrite map_app, map_list_mul, firstn_map, length_map.
  reflexivity.
Qed.

(** The loop of vigenere_encode never leaves the two lists: it computes
    [rotate_all]. *)
Lemma encode_loop_seq (pre_t : str) (pre_k : list Z) (t : str) (k : list Z) :
  length pre_t = length pre_k -> length t = length k ->
  encode_loop (pre_t ++ t) (pre_k ++ k) (seq (length pre_t) (length t))
  = Ok (rotate_all t k).
Proof.
  revert pre_t pre_k k.
  induction t as [|c t IH]; intros pre_t pre_k [|z k] Hpre Hlen;
    simpl in Hlen; try discriminate; [reflexivity|].
  cbn [length seq encode_loop].
  rewrite nth_error_app2 by lia. rewrite Nat.sub_diag. cbn [nth_error].
  rewrite Hpre at 1. rewrite nth_error_app2 by lia.
  rewrite Nat.sub_diag. cbn [nth_error].
  specialize (IH (pre_t ++ [c]) (pre_k ++ [z]) k).
  rewrite !length_app in IH. cbn [length] in IH.
  rewrite <- !app_assoc in IH. cbn [app] in IH.
  replace (length pre_t + 1)%nat with (S (length pre_t)) in IH by lia.
  rewrite IH by lia. reflexivity.
Qed.

Lemma encode_loop_total (text : str) (shifts : list Z) :
  length text = length shifts ->
  encode_loop text shifts (seq 0 (length text)) = Ok (rotate_all text shifts).
Proof.
  intros H. apply (encode_loop_seq [] [] text shifts); auto.
Qed.

Lemma length_rotate_all (text : str) (shifts : list Z) :
  length text = length shifts -> length (rotate_all text shifts) = length text.
Proof.
  intros H. unfold rotate_all. rewrite length_map, length_combine. lia.
Qed.

(** What vigenere_encode returns once its two checks are passed. *)
Lemma vigenere_encode_ok (text key : str) :
  Zlen key <= Zlen text -> key <> [] ->
  vigenere_encode text key
  = Ok (rotate_all text
          (key_text (map (fun x => ord x - ord "a") (lower key)) (length text))).
Proof.
  intros Hlen Hne. unfold vigenere_encode.
  destruct (Zlen text <? Zlen key) eqn:E; [apply Z.ltb_lt in E; lia|].
  destruct (Zlen (lower key) =? 0) eqn:E0.
  - apply Z.eqb_eq, Zlen_nil_iff in E0. unfold lower in E0.
    apply map_eq_nil in E0. contradiction.
  - fold (key_text (map (fun x => ord x - ord "a") (lower key)) (length text)).
    unfold key_text at 1. rewrite length_map. fold (lower key).
    replace (list_mul _ _ ++ firstn _ _)
      with (key_text (map (fun x => ord x - ord "a") (lower key)) (length text)).
    + apply encode_loop_total. rewrite length_key_text; [reflexivity|].
      intro H. apply map_eq_nil in H. apply map_eq_nil in H. contradiction.
    + unfold key_text. rewrite length_map. reflexivity.
Qed.

Lemma vigenere_encode_empty_key (text : str) :
  vigenere_encode text [] = Raise ZeroDivisionError.
Proof.
  unfold vigenere_encode. pose proof (Zlen_nonneg text) as H.
  change (Zlen (@nil ascii)) with 0.
  destruct (Zlen text <? 0) eqn:E; [apply Z.ltb_lt in E; lia|].
  reflexivity.
Qed.

Lemma vigenere_encode_assert (text key : str) :
  vigenere_encode text key = Raise AssertionError <-> Zlen text < Zlen key.
Proof.
  split.
  - intros H. destruct (Z.lt_ge_cases (Zlen text) (Zlen key)) as [|Hge]; auto.
    destruct key as [|c key].
    + rewrite vigenere_encode_empty_key in H. discriminate.
    + rewrite vigenere_encode_ok in H by (auto; discriminate). discriminate.
  - intros H. unfold vigenere_encode.
    apply Z.ltb_lt in H. rewrite H. reflexivity.
Qed.

Lemma vigenere_decode_unfold (crypt_text key : str) :
  vigenere_decode crypt_text key
  = if Zlen crypt_text <? Zlen key then Raise AssertionError
    else vigenere_encode crypt_text (map mirror_char (lower key)).
Proof. reflexivity. Qed.

Lemma mirror_char_ord (each : ascii) :
  ord (mirror_char each) = (26 - (ord each - 97)) mod 26 + 97.
Proof.
  unfold mirror_char. change (ord "a") with 97.
  pose proof (Z.mod_pos_bound (26 - (ord each - 97)) 26 ltac:(lia)).
  apply ord_chr. lia.
Qed.

Lemma lower_mirror_char (each : ascii) :
  lower_char (mirror_char each) = mirror_char each.
Proof.
  unfold lower_char. rewrite mirror_char_ord.
  pose proof (Z.mod_pos_bound (26 - (ord each - 97)) 26 ltac:(lia)).
  replace ((65 <=? _) && (_ <=? 90)) with false
    by (symmetry; apply andb_false_iff; right; apply Z.leb_gt; lia).
  replace ((192 <=? (26 - (ord each - 97)) mod 26 + 97)) with false
    by (symmetry; apply Z.leb_gt; lia).
  reflexivity.
Qed.

Lemma mirror_key_list (key : str) :
  map (fun x => ord x - ord "a") (lower (map mirror_char key))
  = map (fun k => (26 - k) mod 26) (map (fun x => ord x - ord "a") key).
Proof.
  unfold lower. rewrite !map_map. apply map_ext. intros c.
  rewrite lower_mirror_char, mirror_char_ord. change (ord "a") with 97. lia.
Qed.

(** Rotating by [k] and then by the mirrored amount gives the letter back. *)
Lemma rotate_letter_inverse (c : ascii) (k : Z) :
  rotate_letter (rotate_letter c k) ((26 - k) mod 26) = c.
Proof.
  pose proof (ord_range c) as Hc.
  assert (Hback : forall x,
             0 <= x < 26 -> ((x + k) mod 26 + (26 - k) mod 26) mod 26 = x).
  { intros x Hx. rewrite <- Z.add_mod by lia.
    replace (x + k + (26 - k)) with (x + 1 * 26) by lia.
    rewrite Z.mod_add by lia. apply Z.mod_small. lia. }
  unfold rotate_letter at 2. change (ord "a") with 97.
  change (ord "z") with 122. change (ord "A") with 65. change (ord "Z") with 90.
  destruct ((97 <=? ord c) && (ord c <? 122 + 1)) eqn:Elow.
  - apply andb_true_iff in Elow. destruct Elow as [H1 H2].
    apply Z.leb_le in H1. apply Z.ltb_lt in H2.
    pose proof (Z.mod_pos_bound (ord c - 97 + k) 26 ltac:(lia)) as Hm.
    unfold rotate_letter. change (ord "a") with 97. change (ord "z") with 122.
    rewrite ord_chr by lia.
    replace ((97 <=? _) && (_ <? 122 + 1)) with true
      by (symmetry; apply andb_true_iff; split;
          [apply Z.leb_le | apply Z.ltb_lt]; lia).
    replace ((ord c - 97 + k) mod 26 + 97 - 97)
      with ((ord c - 97 + k) mod 26) by lia.
    rewrite Hback by lia.
    replace (ord c - 97 + 97) with (ord c) by lia. apply chr_ord.
  - destruct ((65 <=? ord c) && (ord c <? 90 + 1)) eqn:Eup.
    + apply andb_true_iff in Eup. destruct Eup as [H1 H2].
      apply Z.leb_le in H1. apply Z.ltb_lt in H2.
      pose proof (Z.mod_pos_bound (ord c - 65 + k) 26 ltac:(lia)) as Hm.
      unfold rotate_letter. change (ord "a") with 97. change (ord "z") with 122.
      change (ord "A") with 65. change (ord "Z") with 90.
      rewrite ord_chr by lia.
      replace ((97 <=? _) && (_ <? 122 + 1)) with false
        by (symmetry; apply andb_false_iff; left; apply Z.leb_gt; lia).
      replace ((65 <=? _) && (_ <? 90 + 1)) with true
        by (symmetry; apply andb_true_iff; split;
            [apply Z.leb_le | apply Z.ltb_lt]; lia).
      replace ((ord c - 65 + k) mod 26 + 65 - 65)
        with ((ord c - 65 + k) mod 26) by lia.
      rewrite Hback by lia.
      replace (ord c - 65 + 65) with (ord c) by lia. apply chr_ord.
    + unfold rotate_letter. change (ord "a") with 97. change (ord "z") with 122.
      change (ord "A") with 65. change (ord "Z") with 90.
      rewrite Elow, Eup. reflexivity.
Qed.

Lemma rotate_all_inverse (text : str) (shifts : list Z) :
  length text = length shifts ->
  rotate_all (rotate_all text shifts) (map (fun k => (26 - k) mod 26) shifts)
  = text.
Proof.
  revert shifts. induction text as [|c text IH]; intros [|k shifts] H;
    simpl in H; try discriminate; [reflexivity|].
  unfold rotate_all in *. simpl. rewrite rotate_letter_inverse.
  f_equal. apply IH. lia.
Qed.

Lemma Zlen_lower (key : str) : Zlen (lower key) = Zlen key.
Proof. unfold Zlen, lower. rewrite length_map. reflexivity. Qed.

Lemma Zlen_map {A B : Type} (f : A -> B) (l : list A) : Zlen (map f l) = Zlen l.
Proof. unfold Zlen. rewrite length_map. reflexivity. Qed.

Lemma vigenere_decode_ok (crypt_text key : str) :
  Zlen key <= Zlen crypt_text -> key <> [] ->
  vigenere_decode crypt_text key
  = Ok (rotate_all crypt_text
          (map (fun k => (26 - k) mod 26)
             (key_text (map (fun x => ord x - ord "a") (lower key))
                (length crypt_text)))).
Proof.
  intros Hlen Hne. rewrite vigenere_decode_unfold.
  destruct (Zlen crypt_text <? Zlen key) eqn:E; [apply Z.ltb_lt in E; lia|].
  rewrite vigenere_encode_ok.
  - rewrite mirror_key_list, map_key_text. reflexivity.
  - rewrite Zlen_map, Zlen_lower. exact Hlen.
  - intro H. apply map_eq_nil in H. apply map_eq_nil in H. contradiction.
Qed.

Lemma vigenere_decode_empty_key (crypt_text : str) :
  vigenere_decode crypt_text [] = Raise ZeroDivisionError.
Proof.
  rewrite vigenere_decode_unfold. pose proof (Zlen_nonneg crypt_text) as H.
  change (Zlen (@nil ascii)) with 0.
  destruct (Zlen crypt_text <? 0) eqn:E; [apply Z.ltb_lt in E; lia|].
  apply vigenere_encode_empty_key.
Qed.

Lemma vigenere_decode_assert (crypt_text key : str) :
  vigenere_decode crypt_text key = Raise AssertionError
  <-> Zlen crypt_text < Zlen key.
Proof.
  split.
  - intros H.
    destruct (Z.lt_ge_cases (Zlen crypt_text) (Zlen key)) as [|Hge]; auto.
    destruct key as [|c key].
    + rewrite vigenere_decode_empty_key in H. discriminate.
    + rewrite vigenere_decode_ok in H by (auto; discriminate). discriminate.
  - intros H. rewrite vigenere_decode_unfold.
    apply Z.ltb_lt in H. rewrite H. reflexivity.
Qed.

(** Round trip for any key of [str] that is not empty, letters or not. *)
Lemma round_trip_any_key (text key : str) :
  Zlen key <= Zlen text -> key <> [] ->
  exists crypt_text,
    vigenere_encode text key = Ok crypt_text
    /\ vigenere_decode crypt_text key = Ok text.
Proof.
  intros Hlen Hne.
  set (shifts := key_text (map (fun x => ord x - ord "a") (lower key))
                   (length text)).
  assert (Hsh : length text = length shifts).
  { unfold shifts. rewrite length_key_text; [reflexivity|].
    intro H. apply map_eq_nil in H. apply map_eq_nil in H. contradiction. }
  exists (rotate_all text shifts). split.
  - apply vigenere_encode_ok; assumption.
  - rewrite vigenere_decode_ok; auto.
    + rewrite length_rotate_all by exact Hsh. fold shifts.
      rewrite rotate_all_inverse by exact Hsh. reflexivity.
    + unfold Zlen in *. rewrite length_rotate_all by exact Hsh. exact Hlen.
Qed.

(** C2, amended: for every text T and every alphabetic key K that is not
    empty, with len(K) <= len(T), vigenere_encode(T, K) returns a text C and
    vigenere_decode(C, K) returns T. *)
Theorem vigenere_round_trip (text key : str) :
  alphabetic key -> key <> [] -> Zlen key <= Zlen text ->
  exists crypt_text,
    vigenere_encode text key = Ok crypt_text
    /\ vigenere_decode crypt_text key = Ok text.
Proof.
  intros _ Hne Hlen. apply round_trip_any_key; assumption.
Qed.

Lemma vigenere_round_trip_witness :
  exists crypt_text,
    vigenere_encode (lit "attackatdawn") (lit "Lemon") = Ok crypt_text
    /\ vigenere_decode crypt_text (lit "Lemon") = Ok (lit "attackatdawn").
Proof.
  apply (vigenere_round_trip (lit "attackatdawn") (lit "Lemon")).
  - reflexivity.
  - discriminate.
  - vm_compute. discriminate.
Defined.

(** C2 as stated fails at the empty key, which is alphabetic and no longer
    than any text: vigenere_encode divides by len(key). *)
Lemma empty_key_breaks_round_trip :
  alphabetic [] /\ Zlen (@nil ascii) <= Zlen (lit "attack")
  /\ vigenere_encode (lit "attack") [] = Raise ZeroDivisionError
  /\ ~ (exists crypt_text,
          vigenere_encode (lit "attack") [] = Ok crypt_text
          /\ vigenere_decode crypt_text [] = Ok (lit "attack")).
Proof.
  split; [reflexivity|]. split; [vm_compute; discriminate|].
  split; [reflexivity|].
  intros [c [H _]]. vm_compute in H. discriminate.
Qed.

(** C8, amended: vigenere_encode fails its assertion (the argument error of
    the specification) exactly when the key is longer than the text;
    vigenere_decode fails its assertion whenever the key is longer than the
    text and, for an alphabetic key, only then; when len(text) >= len(key)
    and the key is alphabetic and not empty, both return a result. *)
Theorem vigenere_failure_modes (text key : str) :
  (vigenere_encode text key = Raise AssertionError <-> Zlen text < Zlen key)
  /\ (Zlen text < Zlen key -> vigenere_decode text key = Raise AssertionError)
  /\ (alphabetic key ->
      vigenere_decode text key = Raise AssertionError ->
      Zlen text < Zlen key)
  /\ (Zlen text >= Zlen key -> alphabetic key -> key <> [] ->
      returns (vigenere_encode text key) /\ returns (vigenere_decode text key)).
Proof.
  split; [apply vigenere_encode_assert|].
  split; [apply vigenere_decode_assert|].
  split; [intros _; apply vigenere_decode_assert|].
  intros Hlen _ Hne. split.
  - eexists. apply vigenere_encode_ok; [lia | exact Hne].
  - eexists. apply vigenere_decode_ok; [lia | exact Hne].
Qed.

Lemma vigenere_failure_modes_witness :
  vigenere_decode (lit "at") (lit "Lemon") = Raise AssertionError
  /\ returns (vigenere_encode (lit "attackatdawn") (lit "Lemon"))
  /\ returns (vigenere_decode (lit "attackatdawn") (lit "Lemon")).
Proof.
  split.
  - apply (proj1 (proj2 (vigenere_failure_modes (lit "at") (lit "Lemon")))).
    vm_compute. reflexivity.
  - apply (proj2 (proj2 (proj2 (vigenere_failure_modes (lit "attackatdawn")
                                  (lit "Lemon"))))).
    + vm_compute. discriminate.
    + reflexivity.
    + discriminate.
Defined.

(** C8 as stated fails at the empty key: the length check passes and the
    key is alphabetic, yet neither function returns. *)
Lemma vigenere_empty_key_no_result :
  Zlen (lit "attack") >= Zlen (@nil ascii) /\ alphabetic []
  /\ ~ (returns (vigenere_encode (lit "attack") [])
        /\ returns (vigenere_decode (lit "attack") [])).
Proof.
  split; [vm_compute; discriminate|]. split; [reflexivity|].
  intros [[c H] _]. vm_compute in H. discriminate.
Qed.

End Vigenere.

(** ** Dictionaries *)

Section Dict.

Lemma dict_get_In (d : table) (k : str) (v : list Z) :
  dict_get d k = Some v -> In (k, v) d.
Proof.
  induction d as [|[k' v'] d IH]; simpl; [discriminate|].
  destruct (str_eqb k' k) eqn:E.
  - apply str_eqb_eq in E. subst. intros H. inversion H. auto.
  - auto.
Qed.

Lemma In_keys (d : table) (k : str) (v : list Z) :
  In (k, v) d -> In k (keys d).
Proof. intros H. apply (in_map fst) in H. exact H. Qed.

Lemma dict_get_keys (d : table) (k : str) :
  In k (keys d) <-> exists v, dict_get d k = Some v.
Proof.
  induction d as [|[k' v'] d IH]; simpl.
  - split; [tauto | intros [v H]; discriminate].
  - destruct (str_eqb k' k) eqn:E.
    + apply str_eqb_eq in E. subst. split; eauto.
    + apply str_eqb_neq in E. rewrite <- IH. split; [|tauto].
      intros [H|H]; [contradiction | exact H].
Qed.

Lemma dict_get_None (d : table) (k : str) :
  dict_get d k = None <-> ~ In k (keys d).
Proof.
  rewrite dict_get_keys. destruct (dict_get d k) as [v|].
  - split; [discriminate | intros H; exfalso; eauto].
  - split; [intros _ [v H]; discriminate | reflexivity].
Qed.

Lemma In_dict_get (d : table) (k : str) (v : list Z) :
  NoDup (keys d) -> In (k, v) d -> dict_get d k = Some v.
Proof.
  induction d as [|[k' v'] d IH]; simpl; [tauto|].
  intros Hnd [H|H].
  - inversion H. subst. rewrite str_eqb_refl. reflexivity.
  - inversion Hnd as [|? ? Hnot Hnd']. subst.
    destruct (str_eqb k' k) eqn:E.
    + apply str_eqb_eq in E. subst. exfalso. apply Hnot.
      apply (in_map fst) in H. exact H.
    + auto.
Qed.

Lemma dict_get_set (d : table) (k k' : str) (v : list Z) :
  dict_get (dict_set d k v) k'
  = if str_eqb k k' then Some v else dict_get d k'.
Proof.
  induction d as [|[k0 v0] d IH]; simpl.
  - reflexivity.
  - destruct (str_eqb k0 k) eqn:E0; simpl.
    + apply str_eqb_eq in E0. subst.
      destruct (str_eqb k k'); reflexivity.
    + destruct (str_eqb k0 k') eqn:E1.
      * apply str_eqb_eq in E1. subst. rewrite str_eqb_sym, E0. reflexivity.
      * exact IH.
Qed.

Lemma keys_dict_set (d : table) (k : str) (v : list Z) :
  keys (dict_set d k v) = if dict_mem d k then keys d else keys d ++ [k].
Proof.
  unfold dict_mem.
  induction d as [|[k0 v0] d IH]; simpl; [reflexivity|].
  destruct (str_eqb k0 k) eqn:E; simpl; [reflexivity|].
  unfold keys in *. rewrite IH. destruct (dict_get d k); reflexivity.
Qed.

Lemma NoDup_dict_set (d : table) (k : str) (v : list Z) :
  NoDup (keys d) -> NoDup (keys (dict_set d k v)).
Proof.
  intros H. rewrite keys_dict_set. unfold dict_mem.
  destruct (dict_get d k) eqn:E; [exact H|].
  apply dict_get_None in E.
  apply NoDup_rev in H. rewrite <- (rev_involutive (keys d ++ [k])).
  apply NoDup_rev. rewrite rev_app_distr. simpl. constructor; [|exact H].
  rewrite <- in_rev. exact E.
Qed.

Lemma In_dict_set (d : table) (k : str) (v : list Z) (e : str * list Z) :
  In e (dict_set d k v) -> e = (k, v) \/ In e d.
Proof.
  induction d as [|[k0 v0] d IH]; simpl.
  - intros [H|[]]. auto.
  - destruct (str_eqb k0 k) eqn:E; simpl.
    + apply str_eqb_eq in E. subst. intros [H|H]; auto.
    + intros [H|H]; auto. destruct (IH H); auto.
Qed.

(** A property of all entries survives an assignment of an entry that has it. *)
Lemma Forall_dict_set (P : str * list Z -> Prop) (d : table) (k : str)
  (v : list Z) :
  Forall P d -> P (k, v) -> Forall P (dict_set d k v).
Proof.
  intros Hd Hkv. apply Forall_forall. intros e He.
  destruct (In_dict_set _ _ _ _ He) as [->|H]; [exact Hkv|].
  rewrite Forall_forall in Hd. auto.
Qed.

Lemma dict_get_update (p r : table) (k : str) :
  NoDup (keys r) ->
  dict_get (dict_update p r) k
  = match dict_get r k with
    | Some v => Some v
    | None => dict_get p k
    end.
Proof.
  unfold dict_update. revert p.
  induction r as [|[k0 v0] r IH]; intros p Hnd; simpl; [reflexivity|].
  inversion Hnd as [|? ? Hnot Hnd']. subst.
  rewrite IH by exact Hnd'.
  destruct (str_eqb k0 k) eqn:E.
  - apply str_eqb_eq in E. subst.
    assert (Hn : dict_get r k = None) by (apply dict_get_None; exact Hnot).
    rewrite Hn. cbn [fst snd]. rewrite dict_get_set, str_eqb_refl. reflexivity.
  - destruct (dict_get r k); [reflexivity|].
    cbn [fst snd]. rewrite dict_get_set, E. reflexivity.
Qed.

Lemma Forall_dict_update (P : str * list Z -> Prop) (p r : table) :
  Forall P p -> Forall P r -> Forall P (dict_update p r).
Proof.
  unfold dict_update. revert p.
  induction r as [|[k0 v0] r IH]; intros p Hp Hr; simpl; [exact Hp|].
  inversion Hr. subst. apply IH; [|assumption].
  apply Forall_dict_set; assumption.
Qed.

Lemma NoDup_dict_update (p r : table) :
  NoDup (keys p) -> NoDup (keys (dict_update p r)).
Proof.
  unfold dict_update. revert p.
  induction r as [|[k0 v0] r IH]; intros p Hp; simpl; [exact Hp|].
  apply IH. apply NoDup_dict_set. exact Hp.
Qed.

End Dict.

(** ** Slices and matches *)

Section Slices.

Context {A : Type}.

Lemma slice_nonneg (s : list A) (a b : Z) :
  0 <= a <= b ->
  slice s a b = firstn (Z.to_nat (b - a)) (skipn (Z.to_nat a) s).
Proof.
  intros [Ha Hab]. unfold slice, clamp.
  destruct (a <? 0) eqn:Ea; [apply Z.ltb_lt in Ea; lia|].
  destruct (b <? 0) eqn:Eb; [apply Z.ltb_lt in Eb; lia|].
  pose proof (Zlen_nonneg s) as Hn. unfold Zlen in *.
  destruct (Z.le_gt_cases a (Z.of_nat (length s))) as [Hle|Hgt].
  - rewrite (Z.min_l a) by lia.
    destruct (Z.le_gt_cases b (Z.of_nat (length s))) as [Hb|Hb].
    + rewrite Z.min_l by lia. reflexivity.
    + rewrite Z.min_r by lia.
      rewrite !firstn_all2; try reflexivity; rewrite length_skipn; lia.
  - rewrite (Z.min_r a) by lia. rewrite (Z.min_r b) by lia.
    rewrite !skipn_all2 by lia. rewrite !firstn_nil. reflexivity.
Qed.

Lemma Zlen_slice (s : list A) (a b : Z) :
  0 <= a <= b -> b <= Zlen s -> Zlen (slice s a b) = b - a.
Proof.
  intros Hab Hb. rewrite slice_nonneg by exact Hab.
  unfold Zlen in *. rewrite length_firstn, length_skipn. lia.
Qed.

Lemma Zlen_slice_le (s : list A) (a b : Z) :
  0 <= a <= b -> Zlen (slice s a b) <= b - a.
Proof.
  intros Hab. rewrite slice_nonneg by exact Hab.
  unfold Zlen. rewrite length_firstn. lia.
Qed.

(** A slice that runs past the end stops at the end. *)
Lemma slice_past_end (s : list A) (a b : Z) :
  0 <= a <= Zlen s -> Zlen s <= b -> slice s a b = slice s a (Zlen s).
Proof.
  intros Ha Hb. rewrite !slice_nonneg by lia.
  unfold Zlen in *.
  rewrite !firstn_all2; try reflexivity; rewrite length_skipn; lia.
Qed.

Lemma removelast_slice (s : list A) (a len : Z) :
  0 <= a -> 0 <= len -> a + (len + 1) <= Zlen s ->
  removelast (slice s a (a + (len + 1))) = slice s a (a + len).
Proof.
  intros Ha Hl Hb. rewrite !slice_nonneg by lia.
  replace (a + (len + 1) - a) with (len + 1) by lia.
  replace (a + len - a) with len by lia.
  replace (Z.to_nat (len + 1)) with (S (Z.to_nat len)) by lia.
  apply removelast_firstn. unfold Zlen in *. rewrite length_skipn. lia.
Qed.

End Slices.

Section Matches.

Variable text : str.

Lemma find_matches_In (pattern : str) (cands : list Z) (e : Z) :
  In e (find_matches text pattern cands)
  <-> In e cands /\ e + Zlen pattern <= Zlen text
      /\ slice text e (e + Zlen pattern) = pattern.
Proof.
  unfold find_matches. rewrite filter_In, andb_true_iff, negb_true_iff.
  rewrite str_eqb_eq.
  assert (H : (e + Zlen pattern >? Zlen text) = false
              <-> e + Zlen pattern <= Zlen text).
  { rewrite Z.gtb_ltb, Z.ltb_ge. reflexivity. }
  rewrite H. tauto.
Qed.

Lemma find_matches_incl (pattern : str) (cands : list Z) :
  incl (find_matches text pattern cands) cands.
Proof. intros e He. apply find_matches_In in He. tauto. Qed.

(** On a list of occurrences of the pattern, nothing is filtered out. *)
Lemma find_matches_valid (pattern : str) (cands : list Z) :
  Forall (occurs_at text pattern) cands ->
  find_matches text pattern cands = cands.
Proof.
  intros H. unfold find_matches. apply forallb_filter_id.
  apply forallb_forall. intros e He.
  rewrite Forall_forall in H. destruct (H e He) as (H0 & H1 & H2).
  rewrite H2, str_eqb_refl, andb_true_r, negb_true_iff.
  rewrite Z.gtb_ltb. apply Z.ltb_ge. exact H1.
Qed.

Lemma filter_StronglySorted (f : Z -> bool) (l : list Z) :
  StronglySorted Z.lt l -> StronglySorted Z.lt (filter f l).
Proof.
  induction 1 as [|x l Hs IH Hx]; simpl; [constructor|].
  destruct (f x); [|exact IH].
  constructor; [exact IH|].
  rewrite Forall_forall in *. intros y Hy. apply filter_In in Hy.
  apply Hx. tauto.
Qed.

Lemma filter_Sorted (f : Z -> bool) (l : list Z) :
  Sorted Z.lt l -> Sorted Z.lt (filter f l).
Proof.
  intros H. apply StronglySorted_Sorted, filter_StronglySorted.
  apply Sorted_StronglySorted; [|exact H].
  intros x y z. apply Z.lt_trans.
Qed.

Lemma find_matches_Sorted (pattern : str) (cands : list Z) :
  Sorted Z.lt cands -> Sorted Z.lt (find_matches text pattern cands).
Proof. apply filter_Sorted. Qed.

End Matches.

(** ** One round of maximize_patterns *)

Lemma fold_left_invariant {S X : Type} (f : S -> X -> S) (I : S -> Prop)
  (l : list X) :
  (forall s x, In x l -> I s -> I (f s x)) ->
  forall s, I s -> I (fold_left f l s).
Proof.
  induction l as [|y l IH]; intros Hstep s Hs; simpl; [exact Hs|].
  apply IH.
  - intros s' x Hx. apply Hstep. right. exact Hx.
  - apply Hstep; [left; reflexivity | exact Hs].
Qed.

Lemma fold_left_established {S X : Type} (f : S -> X -> S) (M : S -> Prop)
  (l : list X) (x : X) :
  In x l ->
  (forall s, M (f s x)) ->
  (forall s y, M s -> M (f s y)) ->
  forall s, M (fold_left f l s).
Proof.
  intros Hin Hx Hkeep.
  induction l as [|y l IH]; intros s; simpl; [destruct Hin|].
  destruct Hin as [->|Hin].
  - apply fold_left_invariant; [|apply Hx].
    intros s' z _. apply Hkeep.
  - apply IH. exact Hin.
Qed.

Lemma gtb_one (z : Z) : (z >? 1) = true <-> 1 < z.
Proof. rewrite Z.gtb_ltb. apply Z.ltb_lt. Qed.

Section Extend.

Variable text : str.
Variable max : Z.

(** Induction over the two loops: a property of the state that holds at the
    start and survives every pattern tried holds when the loops are left. *)
Lemma extend_patterns_ind (t : table) (I : table * bool -> Prop) :
  I ([], false) ->
  (forall st P occ i,
      In (P, occ) t -> Zlen P + 1 <= max -> In i occ ->
      I st -> I (try_occurrence text P occ st i)) ->
  I (extend_patterns text t max).
Proof.
  intros H0 Hstep. unfold extend_patterns.
  apply fold_left_invariant; [|exact H0].
  intros st [P occ] Hin Hst. unfold try_pattern. cbn [fst snd].
  destruct (Zlen P + 1 >? max) eqn:E; [exact Hst|].
  rewrite Z.gtb_ltb in E. apply Z.ltb_ge in E.
  apply fold_left_invariant; [|exact Hst].
  intros s i Hi Hs. apply Hstep; assumption.
Qed.

Lemma extend_patterns_provenance (t : table) :
  Forall (extension_of text max t) (fst (extend_patterns text t max)).
Proof.
  apply (extend_patterns_ind t
           (fun st => Forall (extension_of text max t) (fst st))).
  - constructor.
  - intros st P occ i Hin Hmax Hi Hst. unfold try_occurrence.
    destruct (Zlen (find_matches _ _ _) >? 1) eqn:E; [|exact Hst].
    cbn [fst]. apply Forall_dict_set; [exact Hst|].
    exists P, occ, i. cbn [fst snd]. apply gtb_one in E. auto 10.
Qed.

Lemma extend_patterns_NoDup (t : table) :
  NoDup (keys (fst (extend_patterns text t max))).
Proof.
  apply (extend_patterns_ind t (fun st => NoDup (keys (fst st)))).
  - constructor.
  - intros st P occ i _ _ _ Hst. unfold try_occurrence.
    destruct (Zlen (find_matches _ _ _) >? 1); [|exact Hst].
    cbn [fst]. apply NoDup_dict_set. exact Hst.
Qed.

(** [changed] is set exactly when something was registered. *)
Lemma extend_patterns_changed (t : table) :
  snd (extend_patterns text t max) = true
  <-> fst (extend_patterns text t max) <> [].
Proof.
  apply (extend_patterns_ind t
           (fun st => snd st = true <-> fst st <> [])).
  - simpl. split; [discriminate | congruence].
  - intros st P occ i _ _ _ Hst. unfold try_occurrence.
    destruct (Zlen (find_matches _ _ _) >? 1); [|exact Hst].
    cbn [fst snd]. split; [|reflexivity].
    intros _. destruct (fst st) as [|[k v] d]; simpl; [discriminate|].
    destruct (str_eqb k _); discriminate.
Qed.

(** A pattern with more than one match is registered. *)
Lemma extend_patterns_registers (t : table) (P : str) (occ : list Z) (i : Z) :
  In (P, occ) t -> Zlen P + 1 <= max -> In i occ ->
  1 < Zlen (find_matches text (slice text i (i + (Zlen P + 1))) occ) ->
  In (slice text i (i + (Zlen P + 1))) (keys (fst (extend_patterns text t max)))
  /\ snd (extend_patterns text t max) = true.
Proof.
  intros Hin Hmax Hi Hm.
  set (Q := slice text i (i + (Zlen P + 1))) in *.
  set (M := fun st : table * bool => In Q (keys (fst st)) /\ snd st = true).
  assert (Hkeep : forall st P' occ' j, M st -> M (try_occurrence text P' occ' st j)).
  { intros st P' occ' j [H1 H2]. unfold try_occurrence.
    destruct (Zlen (find_matches _ _ _) >? 1); [|split; assumption].
    split; [|reflexivity]. cbn [fst].
    apply dict_get_keys. rewrite dict_get_set.
    destruct (str_eqb _ Q); [eauto|]. apply dict_get_keys. exact H1. }
  unfold extend_patterns.
  apply (fold_left_established _ M t (P, occ) Hin).
  - intros st. unfold try_pattern. cbn [fst snd].
    destruct (Zlen P + 1 >? max) eqn:E.
    { rewrite Z.gtb_ltb in E. apply Z.ltb_lt in E. lia. }
    apply (fold_left_established _ M occ i Hi).
    + intros s. unfold try_occurrence. fold Q.
      apply gtb_one in Hm. rewrite Hm. split; [|reflexivity].
      cbn [fst]. apply dict_get_keys. rewrite dict_get_set, str_eqb_refl. eauto.
    + intros s j. apply Hkeep.
  - intros st [P' occ'] Hst. unfold try_pattern. cbn [fst snd].
    destruct (Zlen P' + 1 >? max); [exact Hst|].
    apply fold_left_invariant; [|exact Hst].
    intros s j _. apply Hkeep.
Qed.

(** Whatever the input, the registered lists pass the test of find_matches;
    on a valid table they are lists of occurrences. *)
Lemma extend_patterns_valid (t : table) :
  valid_table text t -> valid_table text (fst (extend_patterns text t max)).
Proof.
  intros Hv. pose proof (extend_patterns_provenance t) as Hp.
  unfold valid_table in *. rewrite Forall_forall in *.
  intros [Q v] Hin. destruct (Hp _ Hin) as (P & occ & i & HP & _ & _ & HQ & Hvv & _).
  cbn [fst snd] in *. unfold valid_entry. cbn [fst snd].
  apply Forall_forall. intros e He. rewrite Hvv in He.
  apply find_matches_In in He. destruct He as (He & H1 & H2).
  specialize (Hv _ HP). unfold valid_entry in Hv. cbn [fst snd] in Hv.
  rewrite Forall_forall in Hv. destruct (Hv e He) as (H0 & _).
  repeat split; assumption.
Qed.

End Extend.

(** ** maximize_patterns *)

Section Maximize.

Variable text : str.
Variable max : Z.

Lemma valid_table_entry (t : table) (P : str) (occ : list Z) (i : Z) :
  valid_table text t -> In (P, occ) t -> In i occ -> occurs_at text P i.
Proof.
  intros Hv HP Hi. unfold valid_table in Hv. rewrite Forall_forall in Hv.
  specialize (Hv _ HP). unfold valid_entry in Hv. cbn [fst snd] in Hv.
  rewrite Forall_forall in Hv. auto.
Qed.

(** The pattern tried at an occurrence [i] of [P]: one character longer
    than [P], or [P] itself when [P] ends with the text there. *)
Lemma tentative_pattern_shape (P : str) (i : Z) :
  occurs_at text P i ->
  (i + Zlen P + 1 <= Zlen text
   /\ Zlen (slice text i (i + (Zlen P + 1))) = Zlen P + 1
   /\ removelast (slice text i (i + (Zlen P + 1))) = P)
  \/ (i + Zlen P = Zlen text /\ slice text i (i + (Zlen P + 1)) = P).
Proof.
  intros (H0 & H1 & H2). pose proof (Zlen_nonneg P) as HP.
  destruct (Z.le_gt_cases (i + Zlen P + 1) (Zlen text)) as [Hle|Hgt].
  - left. split; [exact Hle|]. split.
    + rewrite Zlen_slice by lia. lia.
    + rewrite removelast_slice by lia. exact H2.
  - right. split; [lia|].
    rewrite slice_past_end by lia.
    replace (Zlen text) with (i + Zlen P) by lia. exact H2.
Qed.

Lemma extension_shape (t : table) (kv : str * list Z) :
  valid_table text t -> extension_of text max t kv ->
  exists P occ i,
    In (P, occ) t /\ Zlen P + 1 <= max /\ In i occ
    /\ snd kv = find_matches text (fst kv) occ /\ 1 < Zlen (snd kv)
    /\ ((Zlen (fst kv) = Zlen P + 1 /\ removelast (fst kv) = P)
        \/ (i + Zlen P = Zlen text /\ fst kv = P)).
Proof.
  intros Hv (P & occ & i & HP & Hmax & Hi & HQ & Hval & Hlen).
  exists P, occ, i. repeat (split; [assumption|]).
  pose proof (valid_table_entry t P occ i Hv HP Hi) as Hocc.
  rewrite HQ.
  destruct (tentative_pattern_shape P i Hocc) as [(_ & H1 & H2)|(H1 & H2)];
    [left | right]; split; assumption.
Qed.

Lemma extend_patterns_In_shape (t : table) (Q : str) (v : list Z) :
  valid_table text t ->
  In (Q, v) (fst (extend_patterns text t max)) ->
  exists P occ i,
    In (P, occ) t /\ Zlen P + 1 <= max /\ In i occ
    /\ v = find_matches text Q occ /\ 1 < Zlen v
    /\ ((Zlen Q = Zlen P + 1 /\ removelast Q = P)
        \/ (i + Zlen P = Zlen text /\ Q = P)).
Proof.
  intros Hv Hin. pose proof (extend_patterns_provenance text max t) as Hp.
  rewrite Forall_forall in Hp.
  exact (extension_shape t (Q, v) Hv (Hp _ Hin)).
Qed.

(** A stuck table is extended to a stuck table. *)
Lemma stuck_step (t : table) :
  stuck text max t ->
  stuck text max (fst (extend_patterns text t max))
  /\ snd (extend_patterns text t max) = true.
Proof.
  intros (Hnd & Hv & P & occ & Hget & Hin & Hmax & Hlen & Hmin).
  pose proof (dict_get_In _ _ _ Hget) as HP.
  assert (Hall : Forall (occurs_at text P) occ).
  { unfold valid_table in Hv. rewrite Forall_forall in Hv.
    exact (Hv _ HP). }
  pose proof (valid_table_entry t P occ _ Hv HP Hin) as Hocc.
  assert (HQ : slice text (Zlen text - Zlen P) (Zlen text - Zlen P + (Zlen P + 1)) = P).
  { destruct (tentative_pattern_shape P _ Hocc) as [(H1 & _)|(_ & H2)];
      [lia | exact H2]. }
  assert (Hreg : 1 < Zlen (find_matches text
                   (slice text (Zlen text - Zlen P)
                      (Zlen text - Zlen P + (Zlen P + 1))) occ)).
  { rewrite HQ, find_matches_valid by exact Hall. exact Hlen. }
  destruct (extend_patterns_registers text max t P occ _ HP Hmax Hin Hreg)
    as [Hkey Hchanged].
  rewrite HQ in Hkey.
  split; [|exact Hchanged].
  split; [apply extend_patterns_NoDup|].
  split; [apply extend_patterns_valid; exact Hv|].
  exists P, occ.
  assert (Hnew : dict_get (fst (extend_patterns text t max)) P = Some occ).
  { apply dict_get_keys in Hkey. destruct Hkey as [v Hv'].
    rewrite Hv'. f_equal.
    destruct (extend_patterns_In_shape t P v Hv (dict_get_In _ _ _ Hv'))
      as (P' & occ' & i' & HP' & _ & _ & Hval & _ & [(Hl & _)|(_ & Heq)]).
    - exfalso. assert (Zlen P <= Zlen P'); [|lia].
      apply Hmin. exact (In_keys _ _ _ HP').
    - subst P'. rewrite (In_dict_get _ _ _ Hnd HP') in Hget.
      inversion Hget. subst occ'. rewrite Hval.
      apply find_matches_valid. exact Hall. }
  repeat (split; [assumption|]).
  intros K HK. apply dict_get_keys in HK. destruct HK as [v Hv'].
  destruct (extend_patterns_In_shape t K v Hv (dict_get_In _ _ _ Hv'))
    as (P' & occ' & i' & HP' & _ & _ & _ & _ & [(Hl & _)|(_ & Heq)]).
  - assert (Zlen P <= Zlen P'); [|lia].
    apply Hmin. exact (In_keys _ _ _ HP').
  - subst K. apply Hmin. exact (In_keys _ _ _ HP').
Qed.

(** On a stuck table, maximize_patterns never returns: every budget is
    used up. *)
Lemma stuck_diverges (fuel : nat) :
  forall t, stuck text max t -> maximize_patterns fuel text t max = OutOfFuel.
Proof.
  induction fuel as [|fuel IH]; intros t Hs; [reflexivity|].
  cbn [maximize_patterns].
  destruct (stuck_step t Hs) as [Hs' Hc]. rewrite Hc.
  rewrite (IH _ Hs'). reflexivity.
Qed.

(** A larger budget does not change a result. *)
Lemma maximize_patterns_fuel_mono (fuel : nat) :
  forall t R k,
    maximize_patterns fuel text t max = Ok R ->
    maximize_patterns (fuel + k) text t max = Ok R.
Proof.
  induction fuel as [|fuel IH]; intros t R k H; [discriminate|].
  cbn [maximize_patterns Nat.add] in *.
  destruct (snd (extend_patterns text t max)); [|exact H].
  destruct (maximize_patterns fuel text _ max) as [R'| |] eqn:E;
    try discriminate.
  rewrite (IH _ _ k E). exact H.
Qed.

(** maximize_patterns raises nothing. *)
Lemma maximize_patterns_no_exception (fuel : nat) :
  forall t e, maximize_patterns fuel text t max <> Raise e.
Proof.
  induction fuel as [|fuel IH]; intros t e; [discriminate|].
  cbn [maximize_patterns].
  destruct (snd (extend_patterns text t max)); [|discriminate].
  destruct (maximize_patterns fuel text _ max) as [R'|e'|] eqn:E;
    simpl; try discriminate.
  exfalso. exact (IH _ _ E).
Qed.

(** The table returned for a table whose patterns all have length [L]:
    the input on the patterns of length [L], longer patterns elsewhere,
    and pattern monotonicity above [L]. *)
Lemma maximize_patterns_levels (fuel : nat) :
  forall t L R,
    seeded text L t ->
    maximize_patterns fuel text t max = Ok R ->
    NoDup (keys R)
    /\ (forall K, Zlen K = L -> dict_get R K = dict_get t K)
    /\ (forall K, In K (keys R) -> L <= Zlen K)
    /\ prefix_monotone L R.
Proof.
  induction fuel as [|fuel IH]; intros t L R (Hnd & Hv & Hlen) H;
    [discriminate|].
  assert (HlenK : forall K, In K (keys t) -> Zlen K = L).
  { intros K HK. unfold keys in HK. apply in_map_iff in HK.
    destruct HK as ([K' v] & <- & HK). rewrite Forall_forall in Hlen.
    exact (Hlen _ HK). }
  cbn [maximize_patterns] in H.
  destruct (snd (extend_patterns text t max)) eqn:Hc.
  - destruct (maximize_patterns fuel text _ max) as [R'| |] eqn:E;
      try discriminate.
    cbn [bind] in H. inversion H. subst R. clear H.
    set (new := fst (extend_patterns text t max)) in *.
    assert (Hseed : seeded text (L + 1) new).
    { split; [apply extend_patterns_NoDup|].
      split; [apply extend_patterns_valid; exact Hv|].
      apply Forall_forall. intros [Q v] HQ. cbn [fst].
      destruct (extend_patterns_In_shape t Q v Hv HQ)
        as (P & occ & i & HP & Hmax & Hi & Hval & Hl & [(Hlq & _)|(Hend & Heq)]).
      - rewrite Hlq. f_equal. apply HlenK. exact (In_keys _ _ _ HP).
      - exfalso. subst Q.
        assert (Hstuck : stuck text max new).
        { split; [apply extend_patterns_NoDup|].
          split; [apply extend_patterns_valid; exact Hv|].
          exists P, v.
          assert (Hall : Forall (occurs_at text P) occ).
          { unfold valid_table in Hv. rewrite Forall_forall in Hv.
            exact (Hv _ HP). }
          rewrite find_matches_valid in Hval by exact Hall. subst v.
          split; [apply In_dict_get;
                  [apply extend_patterns_NoDup | exact HQ]|].
          split; [replace (Zlen text - Zlen P) with i by lia; exact Hi|].
          split; [exact Hmax|]. split; [exact Hl|].
          intros K HK. apply dict_get_keys in HK. destruct HK as [v' Hv'].
          destruct (extend_patterns_In_shape t K v' Hv (dict_get_In _ _ _ Hv'))
            as (P' & occ' & i' & HP' & _ & _ & _ & _ & [(Hl' & _)|(_ & Heq')]).
          - rewrite Hl', (HlenK _ (In_keys _ _ _ HP)),
              (HlenK _ (In_keys _ _ _ HP')). lia.
          - subst K. rewrite (HlenK _ (In_keys _ _ _ HP)),
              (HlenK _ (In_keys _ _ _ HP')). lia. }
        rewrite (stuck_diverges fuel new Hstuck) in E. discriminate. }
    destruct (IH new (L + 1) R' Hseed E) as (HndR & Hsame & Hge & Hmono).
    assert (Hget : forall K,
               dict_get (dict_update t R') K
               = match dict_get R' K with
                 | Some v => Some v
                 | None => dict_get t K
                 end).
    { intros K. apply dict_get_update. exact HndR. }
    split; [apply NoDup_dict_update; exact Hnd|].
    split; [|split].
    + intros K HK. rewrite Hget.
      destruct (dict_get R' K) eqn:EK; [|reflexivity].
      exfalso. assert (L + 1 <= Zlen K); [|lia].
      apply Hge. apply dict_get_keys. eauto.
    + intros K HK. apply dict_get_keys in HK. destruct HK as [v HK].
      rewrite Hget in HK. destruct (dict_get R' K) eqn:EK.
      * assert (L + 1 <= Zlen K); [|lia].
        apply Hge. apply dict_get_keys. eauto.
      * assert (Zlen K = L); [|lia].
        apply HlenK. apply dict_get_keys. eauto.
    + intros Q occQ HQ HlQ. rewrite Hget in HQ.
      destruct (dict_get R' Q) as [w|] eqn:EQ.
      * inversion HQ. subst w. clear HQ.
        destruct (Z.eq_dec (Zlen Q) (L + 1)) as [Heq|Hne].
        -- rewrite (Hsame Q Heq) in EQ.
           destruct (extend_patterns_In_shape t Q occQ Hv (dict_get_In _ _ _ EQ))
             as (P & occ & i & HP & _ & _ & Hval & _ & [(_ & Hrl)|(_ & Heq')]).
           ++ exists occ. split.
              ** rewrite Hget.
                 assert (HlP : Zlen P = L)
                   by (apply HlenK; exact (In_keys _ _ _ HP)).
                 destruct (dict_get R' (removelast Q)) eqn:EP.
                 --- exfalso. assert (L + 1 <= Zlen (removelast Q)).
                     { apply Hge. apply dict_get_keys. eauto. }
                     rewrite Hrl in H. lia.
                 --- rewrite Hrl. apply In_dict_get; assumption.
              ** rewrite Hval. apply find_matches_incl.
           ++ exfalso. subst Q.
              rewrite (HlenK _ (In_keys _ _ _ HP)) in Heq. lia.
        -- assert (Hge' : L + 1 <= Zlen Q)
             by (apply Hge; apply dict_get_keys; eauto).
           destruct (Hmono Q occQ EQ) as (occP & HP & Hincl); [lia|].
           exists occP. split; [|exact Hincl].
           rewrite Hget, HP. reflexivity.
      * exfalso. assert (Zlen Q = L); [|lia].
        apply HlenK. apply dict_get_keys. eauto.
  - inversion H. subst R. clear H.
    split; [exact Hnd|]. split; [reflexivity|]. split.
    + intros K HK. rewrite (HlenK K HK). lia.
    + intros Q occQ HQ HlQ. exfalso.
      assert (Zlen Q = L); [|lia].
      apply HlenK. apply dict_get_keys. eauto.
Qed.

(** Lists that are repeated and ascending stay so. *)
Lemma extend_patterns_repeated_ascending (t : table) :
  Forall ascending_entry t ->
  Forall repeated_ascending (fst (extend_patterns text t max)).
Proof.
  intros Ht. pose proof (extend_patterns_provenance text max t) as Hp.
  rewrite Forall_forall in *. intros kv Hkv.
  destruct (Hp _ Hkv) as (P & occ & i & HP & _ & _ & _ & Hval & Hl).
  split; [lia|]. rewrite Hval. apply find_matches_Sorted.
  exact (Ht _ HP).
Qed.

Lemma repeated_ascending_entry (t : table) :
  Forall repeated_ascending t -> Forall ascending_entry t.
Proof. apply Forall_impl. intros kv [_ H]. exact H. Qed.

Lemma maximize_patterns_repeated_ascending (fuel : nat) :
  forall t R,
    Forall repeated_ascending t ->
    maximize_patterns fuel text t max = Ok R ->
    Forall repeated_ascending R.
Proof.
  induction fuel as [|fuel IH]; intros t R Ht H; [discriminate|].
  cbn [maximize_patterns] in H.
  destruct (snd (extend_patterns text t max)).
  - destruct (maximize_patterns fuel text _ max) as [R'| |] eqn:E;
      try discriminate.
    cbn [bind] in H. inversion H. subst R.
    apply Forall_dict_update; [exact Ht|].
    apply (IH _ _ (extend_patterns_repeated_ascending t
                     (repeated_ascending_entry t Ht)) E).
  - inversion H. subst R. exact Ht.
Qed.

End Maximize.

(** ** initialize_patterns *)

Section Initialize.

Variable text : str.
Variable m : Z.

(** An invariant of the entries that may depend on the next index to visit:
    it survives the first loop when it survives a new entry, an appended
    index and the step to the next index. *)
Lemma collect_patterns_invariant (I : Z -> str * list Z -> Prop) :
  (forall i kv, I i kv -> I (i + 1) kv) ->
  (forall i, 0 <= i -> i + m <= Zlen text ->
             I (i + 1) (slice text i (i + m), [i])) ->
  (forall i v, 0 <= i -> i + m <= Zlen text ->
               I i (slice text i (i + m), v) ->
               I (i + 1) (slice text i (i + m), v ++ [i])) ->
  forall len start t,
    Forall (I (Z.of_nat start)) t ->
    exists j, Forall (I j) (collect_patterns text m (seq start len) t).
Proof.
  intros Hnext Hnew Happ.
  induction len as [|len IH]; intros start t Ht; [exists (Z.of_nat start); exact Ht|].
  cbn [seq collect_patterns].
  destruct (Z.of_nat start + m >? Zlen text) eqn:E;
    [exists (Z.of_nat start); exact Ht|].
  rewrite Z.gtb_ltb in E. apply Z.ltb_ge in E.
  assert (Hlift : Forall (I (Z.of_nat (S start))) t).
  { rewrite Nat2Z.inj_succ. unfold Z.succ.
    revert Ht. apply Forall_impl. intros kv. apply Hnext. }
  destruct (dict_get t _) as [v|] eqn:G.
  - apply IH. apply Forall_dict_set; [exact Hlift|].
    rewrite Nat2Z.inj_succ. unfold Z.succ.
    apply Happ; [lia | exact E |].
    apply dict_get_In in G. rewrite Forall_forall in Ht. exact (Ht _ G).
  - apply IH. apply Forall_dict_set; [exact Hlift|].
    rewrite Nat2Z.inj_succ. unfold Z.succ.
    apply Hnew; [lia | exact E].
Qed.

Lemma collect_patterns_NoDup :
  forall indices t,
    NoDup (keys t) -> NoDup (keys (collect_patterns text m indices t)).
Proof.
  induction indices as [|i rest IH]; intros t Ht; [exact Ht|].
  cbn [collect_patterns].
  destruct (Z.of_nat i + m >? Zlen text); [exact Ht|].
  destruct (dict_get t _); apply IH; apply NoDup_dict_set; exact Ht.
Qed.

Lemma In_insert_by_count (x e : str * list Z) (l : table) :
  In e (insert_by_count x l) <-> e = x \/ In e l.
Proof.
  induction l as [|y l IH]; simpl; [intuition congruence|].
  destruct (Zlen (snd y) >? Zlen (snd x)); simpl; [rewrite IH|];
    intuition congruence.
Qed.

Lemma In_sort_by_count (e : str * list Z) (l : table) :
  In e (sort_by_count l) <-> In e l.
Proof.
  induction l as [|x l IH]; simpl; [tauto|].
  rewrite In_insert_by_count, IH. intuition congruence.
Qed.

Lemma Forall_sort_by_count (Q : str * list Z -> Prop) (l : table) :
  Forall Q l -> Forall Q (sort_by_count l).
Proof.
  rewrite !Forall_forall. intros H e He. apply H.
  apply In_sort_by_count. exact He.
Qed.

Lemma keep_repeated_Forall (Q : str * list Z -> Prop) :
  forall l acc,
    Forall Q l -> Forall (fun kv => Q kv /\ 2 <= Zlen (snd kv)) acc ->
    Forall (fun kv => Q kv /\ 2 <= Zlen (snd kv)) (keep_repeated l acc).
Proof.
  induction l as [|[k v] l IH]; intros acc Hl Hacc; [exact Hacc|].
  cbn [keep_repeated fst snd].
  destruct (Zlen v <=? 1) eqn:E; [exact Hacc|].
  apply Z.leb_gt in E. inversion Hl. subst.
  apply IH; [assumption|].
  apply Forall_dict_set; [exact Hacc|]. cbn [snd]. split; [assumption | lia].
Qed.

Lemma keep_repeated_NoDup :
  forall l acc, NoDup (keys acc) -> NoDup (keys (keep_repeated l acc)).
Proof.
  induction l as [|[k v] l IH]; intros acc Hacc; [exact Hacc|].
  cbn [keep_repeated fst snd].
  destruct (Zlen v <=? 1); [exact Hacc|].
  apply IH. apply NoDup_dict_set. exact Hacc.
Qed.

(** Whatever holds of every entry collected holds of every entry kept, and
    the kept entries have at least two occurrences. *)
Lemma initialize_patterns_Forall (Q : str * list Z -> Prop) :
  Forall Q (collect_patterns text m (seq 0 (length text)) []) ->
  Forall (fun kv => Q kv /\ 2 <= Zlen (snd kv)) (initialize_patterns text m).
Proof.
  intros H. unfold initialize_patterns.
  apply keep_repeated_Forall; [|constructor].
  apply Forall_sort_by_count. exact H.
Qed.

Lemma StronglySorted_snoc (v : list Z) (i : Z) :
  StronglySorted Z.lt v -> Forall (fun e => e < i) v ->
  StronglySorted Z.lt (v ++ [i]).
Proof.
  induction 1 as [|x v Hs IH Hx]; intros Hlt; simpl.
  - constructor; constructor.
  - inversion Hlt. subst. constructor; [apply IH; assumption|].
    apply Forall_app. split; [exact Hx|]. constructor; [assumption|constructor].
Qed.

Lemma initialize_patterns_repeated_ascending :
  Forall repeated_ascending (initialize_patterns text m).
Proof.
  set (I := fun (i : Z) (kv : str * list Z) =>
              StronglySorted Z.lt (snd kv) /\ Forall (fun e => e < i) (snd kv)).
  destruct (collect_patterns_invariant I) with (len := length text)
    (start := 0%nat) (t := @nil (str * list Z)) as [j Hj].
  - intros i kv [H1 H2]. split; [exact H1|].
    revert H2. apply Forall_impl. intros; lia.
  - intros i _ _. split; cbn [snd].
    + constructor; constructor.
    + constructor; [lia | constructor].
  - intros i v _ _ [H1 H2]. cbn [snd] in *. split.
    + apply StronglySorted_snoc; assumption.
    + apply Forall_app. split.
      * revert H2. apply Forall_impl. intros; lia.
      * constructor; [lia | constructor].
  - constructor.
  - pose proof (initialize_patterns_Forall (I j) Hj) as H.
    revert H. apply Forall_impl. intros kv [[H1 _] H2].
    split; [exact H2 | apply StronglySorted_Sorted; exact H1].
Qed.

Lemma initialize_patterns_seeded :
  0 <= m -> seeded text m (initialize_patterns text m).
Proof.
  intros Hm.
  set (I := fun (_ : Z) (kv : str * list Z) =>
              valid_entry text kv /\ Zlen (fst kv) = m).
  assert (Hocc : forall i, 0 <= i -> i + m <= Zlen text ->
                   occurs_at text (slice text i (i + m)) i
                   /\ Zlen (slice text i (i + m)) = m).
  { intros i Hi Hle.
    assert (Hl : Zlen (slice text i (i + m)) = m)
      by (rewrite Zlen_slice by lia; lia).
    split; [|exact Hl]. unfold occurs_at. rewrite Hl. auto. }
  destruct (collect_patterns_invariant I) with (len := length text)
    (start := 0%nat) (t := @nil (str * list Z)) as [j Hj].
  - intros i kv H. exact H.
  - intros i Hi Hle. destruct (Hocc i Hi Hle) as [H1 H2].
    split; [|exact H2]. unfold valid_entry. cbn [fst snd].
    constructor; [exact H1 | constructor].
  - intros i v Hi Hle [H1 H2]. destruct (Hocc i Hi Hle) as [H3 _].
    split; [|exact H2]. unfold valid_entry in *. cbn [fst snd] in *.
    apply Forall_app. split; [exact H1|]. constructor; [exact H3 | constructor].
  - constructor.
  - pose proof (initialize_patterns_Forall (I j) Hj) as H.
    split; [|split].
    + unfold initialize_patterns. apply keep_repeated_NoDup. constructor.
    + revert H. apply Forall_impl. intros kv [[H1 _] _]. exact H1.
    + revert H. apply Forall_impl. intros kv [[_ H1] _]. exact H1.
Qed.

End Initialize.

(** ** remove_redundant_patterns *)

Section Redundant.

Lemma subseq_nil_l {A : Type} (l : list A) : subseq [] l.
Proof. induction l; constructor; assumption. Qed.

Lemma subseq_tail {A : Type} (x : A) (l1 l2 : list A) :
  subseq (x :: l1) l2 -> subseq l1 l2.
Proof.
  revert l1. induction l2 as [|y l2 IH]; intros l1 H; inversion H; subst.
  - constructor. apply IH. assumption.
  - constructor. assumption.
Qed.

Lemma subseq_filter {A : Type} (f : A -> bool) (l : list A) :
  subseq (filter f l) l.
Proof.
  induction l as [|x l IH]; simpl; [constructor|].
  destruct (f x); constructor; exact IH.
Qed.

(** The position reported by [index] is never negative. *)
Lemma str_index_nonneg (s sub : str) (d : Z) :
  str_index s sub = Ok d -> 0 <= d.
Proof.
  revert d. induction s as [|c s IH]; intros d; cbn [str_index].
  - destruct (is_prefix sub []); [|discriminate].
    intros H. inversion H. lia.
  - destruct (is_prefix sub (c :: s)).
    + intros H. inversion H. lia.
    + destruct (str_index s sub) as [d'| |]; simpl; try discriminate.
      intros H. inversion H. specialize (IH d' eq_refl). lia.
Qed.

(** The only exception of [index] is ValueError. *)
Lemma str_index_raise (s sub : str) (e : exn) :
  str_index s sub = Raise e -> e = ValueError.
Proof.
  induction s as [|c s IH]; cbn [str_index].
  - destruct (is_prefix sub []); [discriminate|]. congruence.
  - destruct (is_prefix sub (c :: s)); [discriminate|].
    destruct (str_index s sub) as [d| |]; cbn [bind]; try discriminate.
    intros H. apply IH. exact H.
Qed.

(** After the containment check, [index] finds a position. *)
Lemma str_index_found (s sub : str) :
  str_in sub s = true -> exists d, str_index s sub = Ok d /\ 0 <= d.
Proof.
  induction s as [|c s IH]; cbn [str_in str_index]; intros H.
  - rewrite orb_false_r in H. rewrite H. exists 0. split; [reflexivity | lia].
  - destruct (is_prefix sub (c :: s)).
    + exists 0. split; [reflexivity | lia].
    + destruct (IH H) as (d & Hd & H0). rewrite Hd. simpl.
      exists (d + 1). split; [reflexivity | lia].
Qed.

Lemma dict_lookup_key (t : table) (k : str) :
  In k (keys t) -> exists v, dict_lookup t k = Ok v.
Proof.
  intros H. apply dict_get_keys in H. destruct H as [v H].
  exists v. unfold dict_lookup. rewrite H. reflexivity.
Qed.

(** One comparison of a suspect with a larger key always has a verdict. *)
Lemma coincides_returns (t : table) (suspect_key larger_key : str) :
  In suspect_key (keys t) -> In larger_key (keys t) ->
  returns (coincides t suspect_key larger_key).
Proof.
  intros Hs Hl. unfold coincides, returns.
  destruct (Zlen suspect_key >=? Zlen larger_key); [eauto|].
  destruct (str_in suspect_key larger_key) eqn:Hin; simpl; [|eauto].
  destruct (dict_lookup_key t _ Hs) as [vs ->].
  destruct (dict_lookup_key t _ Hl) as [vl ->]. simpl.
  destruct (Zlen vs =? Zlen vl); simpl; [|eauto].
  destruct (str_index_found _ _ Hin) as (d & -> & Hd). simpl.
  destruct (d >? 0) eqn:E1; simpl; [eauto|].
  destruct (d =? 0) eqn:E2; simpl; [eauto|].
  exfalso. rewrite Z.gtb_ltb in E1. apply Z.ltb_ge in E1.
  apply Z.eqb_neq in E2. lia.
Qed.

Lemma redundant_in_returns (t : table) (suspect_key : str) :
  In suspect_key (keys t) ->
  forall larger_keys,
    incl larger_keys (keys t) ->
    returns (redundant_in t suspect_key larger_keys).
Proof.
  intros Hs. induction larger_keys as [|l rest IH]; intros Hincl;
    cbn [redundant_in]; [eexists; reflexivity|].
  destruct (coincides_returns t suspect_key l Hs) as [b ->];
    [apply Hincl; left; reflexivity|].
  simpl. destruct b; [eexists; reflexivity|].
  apply IH. intros x Hx. apply Hincl. right. exact Hx.
Qed.

(** The outer loop: the keys marked are the redundant ones, in order, and
    [changed] tells whether there is one. *)
Lemma mark_redundant_spec (t : table) :
  forall suspects st,
    incl suspects (keys t) ->
    mark_redundant t suspects st
    = Ok (fst st ++ filter (is_redundant t) suspects,
          snd st || existsb (is_redundant t) suspects).
Proof.
  induction suspects as [|s rest IH]; intros [ks ch] Hincl;
    cbn [mark_redundant filter existsb fst snd].
  - rewrite app_nil_r, orb_false_r. reflexivity.
  - destruct (redundant_in_returns t s (Hincl s (or_introl eq_refl))
                (keys t) (incl_refl _)) as [b Hb].
    assert (Hr : is_redundant t s = b) by (unfold is_redundant; rewrite Hb; reflexivity).
    rewrite Hb, Hr. cbn [bind].
    rewrite IH by (intros x Hx; apply Hincl; right; exact Hx).
    destruct b; cbn [fst snd orb].
    + rewrite <- app_assoc. simpl. rewrite orb_true_r. reflexivity.
    + reflexivity.
Qed.

Lemma mark_redundant_keys (t : table) :
  mark_redundant t (keys t) ([], false)
  = Ok (filter (is_redundant t) (keys t), existsb (is_redundant t) (keys t)).
Proof. rewrite mark_redundant_spec by apply incl_refl. reflexivity. Qed.

Lemma existsb_filter_nil {A : Type} (f : A -> bool) (l : list A) :
  existsb f l = true -> filter f l <> [].
Proof.
  induction l as [|x l IH]; simpl; [discriminate|].
  destruct (f x); [discriminate | exact IH].
Qed.

(** Deleting one key of a subsequence of the keys. *)
Lemma dict_del_subseq (k : str) (ks : list str) :
  forall d,
    subseq (k :: ks) (keys d) ->
    exists d', dict_del d k = Ok d' /\ subseq ks (keys d')
               /\ S (length d') = length d.
Proof.
  induction d as [|[k0 v0] d IH]; intros H; [inversion H|].
  cbn [dict_del]. cbn [keys map fst] in H. fold (keys d) in H.
  destruct (str_eqb k0 k) eqn:E.
  - exists d. split; [reflexivity|]. split; [|reflexivity].
    inversion H; subst.
    + apply subseq_tail with (x := k). assumption.
    + assumption.
  - inversion H; subst.
    + destruct (IH H2) as (d' & Hd & Hs & Hl). rewrite Hd. simpl.
      exists ((k0, v0) :: d'). split; [reflexivity|]. split.
      * cbn [keys map fst]. constructor. exact Hs.
      * simpl. rewrite Hl. reflexivity.
    + rewrite str_eqb_refl in E. discriminate.
Qed.

Lemma delete_keys_subseq :
  forall ks d,
    subseq ks (keys d) ->
    exists d', delete_keys d ks = Ok d'
               /\ (length d' + length ks = length d)%nat.
Proof.
  induction ks as [|k ks IH]; intros d H; cbn [delete_keys].
  - exists d. split; [reflexivity | simpl; lia].
  - destruct (dict_del_subseq k ks d H) as (d1 & Hd & Hs & Hl).
    rewrite Hd. simpl. destruct (IH d1 Hs) as (d' & Hd' & Hl').
    exists d'. split; [exact Hd' | simpl; lia].
Qed.

(** A budget above the number of keys is enough. *)
Lemma remove_redundant_patterns_fuel_enough (fuel : nat) :
  forall p, (length p < fuel)%nat ->
            returns (remove_redundant_patterns_fuel fuel p).
Proof.
  induction fuel as [|fuel IH]; intros p Hlt; [lia|].
  cbn [remove_redundant_patterns_fuel].
  rewrite mark_redundant_keys. cbn [bind fst snd].
  destruct (existsb (is_redundant p) (keys p)) eqn:E; [|eexists; reflexivity].
  destruct (delete_keys_subseq _ p (subseq_filter (is_redundant p) (keys p)))
    as (d' & Hd & Hl).
  rewrite Hd. cbn [bind]. apply IH.
  apply existsb_filter_nil in E.
  destruct (filter (is_redundant p) (keys p)); [congruence|].
  simpl in Hl. lia.
Qed.

Lemma remove_redundant_patterns_returns (p : table) :
  returns (remove_redundant_patterns p).
Proof.
  apply remove_redundant_patterns_fuel_enough. lia.
Qed.

(** A returned table has no redundant key left. *)
Lemma remove_redundant_patterns_fuel_fixed (fuel : nat) :
  forall p q,
    remove_redundant_patterns_fuel fuel p = Ok q ->
    existsb (is_redundant q) (keys q) = false.
Proof.
  induction fuel as [|fuel IH]; intros p q H; [discriminate|].
  cbn [remove_redundant_patterns_fuel] in H.
  rewrite mark_redundant_keys in H. cbn [bind fst snd] in H.
  destruct (existsb (is_redundant p) (keys p)) eqn:E.
  - destruct (delete_keys p _) as [d'| |]; try discriminate.
    cbn [bind] in H. exact (IH _ _ H).
  - inversion H. subst. exact E.
Qed.

(** A table without a redundant key is returned as it is. *)
Lemma remove_redundant_patterns_fuel_id (fuel : nat) (q : table) :
  existsb (is_redundant q) (keys q) = false ->
  remove_redundant_patterns_fuel (S fuel) q = Ok q.
Proof.
  intros H. cbn [remove_redundant_patterns_fuel].
  rewrite mark_redundant_keys. cbn [bind fst snd]. rewrite H. reflexivity.
Qed.

(** A larger budget does not change a result. *)
Lemma remove_redundant_patterns_fuel_mono (fuel : nat) :
  forall p q k,
    remove_redundant_patterns_fuel fuel p = Ok q ->
    remove_redundant_patterns_fuel (fuel + k) p = Ok q.
Proof.
  induction fuel as [|fuel IH]; intros p q k H; [discriminate|].
  cbn [remove_redundant_patterns_fuel Nat.add] in *.
  destruct (mark_redundant p (keys p) ([], false)) as [st| |];
    try discriminate.
  cbn [bind] in *. destruct (snd st); [|exact H].
  destruct (delete_keys p (fst st)) as [d'| |]; try discriminate.
  cbn [bind] in *. apply IH. exact H.
Qed.

End Redundant.

(** ** remove_redundant_patterns and the object it is given *)

Section Heap.

Lemma heap_read_alloc_new (h : heap) (d : table) :
  heap_read (snd (heap_alloc h d)) (fst (heap_alloc h d)) = d.
Proof.
  unfold heap_alloc, heap_read. cbn [fst snd].
  rewrite app_nth2 by lia. rewrite Nat.sub_diag. reflexivity.
Qed.

Lemma heap_read_alloc_old (h : heap) (d : table) (a : ref) :
  (a < length h)%nat -> heap_read (snd (heap_alloc h d)) a = heap_read h a.
Proof.
  intros H. unfold heap_alloc, heap_read. cbn [snd]. apply app_nth1. exact H.
Qed.

Lemma length_heap_write (h : heap) (r : ref) (d : table) :
  length (heap_write h r d) = length h.
Proof.
  revert r. induction h as [|d0 h IH]; intros [|r]; simpl; auto.
Qed.

Lemma heap_read_write_same (h : heap) (r : ref) (d : table) :
  (r < length h)%nat -> heap_read (heap_write h r d) r = d.
Proof.
  unfold heap_read. revert r.
  induction h as [|d0 h IH]; intros [|r] H; simpl in *; try lia; auto.
  apply IH. lia.
Qed.

Lemma heap_read_write_other (h : heap) (r a : ref) (d : table) :
  a <> r -> heap_read (heap_write h r d) a = heap_read h a.
Proof.
  unfold heap_read. revert r a.
  induction h as [|d0 h IH]; intros [|r] [|a] H; simpl; auto; try congruence.
Qed.

Lemma heap_write_write (h : heap) (r : ref) (d1 d2 : table) :
  heap_write (heap_write h r d1) r d2 = heap_write h r d2.
Proof.
  revert r. induction h as [|d0 h IH]; intros [|r]; simpl; auto.
  rewrite IH. reflexivity.
Qed.

(** The deletions on the object at [r] are the deletions on its value, and
    they write to no other object. *)
Lemma delete_keys_at_spec (r : ref) :
  forall ks h,
    (r < length h)%nat ->
    delete_keys_at r ks h
    = d' <- delete_keys (heap_read h r) ks ;; Ok (heap_write h r d').
Proof.
  induction ks as [|k ks IH]; intros h Hr; cbn [delete_keys_at delete_keys].
  - simpl. f_equal. revert r Hr. unfold heap_read.
    induction h as [|d0 h IHh]; intros [|r] Hr; simpl in *; try lia; auto.
    rewrite <- IHh at 1 by lia. reflexivity.
  - destruct (dict_del (heap_read h r) k) as [d1| |]; simpl; try reflexivity.
    rewrite IH by (rewrite length_heap_write; exact Hr).
    rewrite heap_read_write_same by exact Hr.
    destruct (delete_keys d1 ks) as [d'| |]; simpl; try reflexivity.
    rewrite heap_write_write. reflexivity.
Qed.

(** The store version computes the value version on a fresh object and
    leaves every object that existed before the call as it was. *)
Lemma remove_redundant_patterns_heap_spec (fuel : nat) :
  forall h r,
    match remove_redundant_patterns_fuel fuel (heap_read h r) with
    | Ok q =>
        exists r' h',
          remove_redundant_patterns_heap fuel r h = Ok (r', h')
          /\ (length h <= r')%nat
          /\ heap_read h' r' = q
          /\ forall a, (a < length h)%nat -> heap_read h' a = heap_read h a
    | Raise e => remove_redundant_patterns_heap fuel r h = Raise e
    | OutOfFuel => remove_redundant_patterns_heap fuel r h = OutOfFuel
    end.
Proof.
  induction fuel as [|fuel IH]; intros h r; [reflexivity|].
  cbn [remove_redundant_patterns_fuel remove_redundant_patterns_heap].
  set (p := heap_read h r).
  pose proof (heap_read_alloc_new h p) as Hnew.
  pose proof (heap_read_alloc_old h p) as Hold.
  unfold heap_alloc in *. cbn [fst snd] in *.
  rewrite Hnew.
  destruct (mark_redundant p (keys p) ([], false)) as [st| |];
    cbn [bind]; try reflexivity.
  destruct (snd st).
  - rewrite delete_keys_at_spec by (rewrite length_app; simpl; lia).
    rewrite Hnew.
    destruct (delete_keys p (fst st)) as [d'| |]; cbn [bind]; try reflexivity.
    specialize (IH (heap_write (h ++ [p]) (length h) d') (length h)).
    rewrite heap_read_write_same in IH by (rewrite length_app; simpl; lia).
    destruct (remove_redundant_patterns_fuel fuel d') as [q| |];
      try exact IH.
    destruct IH as (r' & h' & Hrun & Hfresh & Hread & Hframe).
    rewrite length_heap_write, length_app in Hfresh, Hframe.
    simpl in Hfresh, Hframe.
    exists r', h'. split; [exact Hrun|]. split; [lia|].
    split; [exact Hread|].
    intros a Ha. rewrite Hframe by lia.
    rewrite heap_read_write_other by lia. apply Hold. exact Ha.
  - exists (length h), (h ++ [p]). split; [reflexivity|].
    split; [lia|]. split; [exact Hnew|]. exact Hold.
Qed.

End Heap.

(** ** vigenere_kasiski_test *)

Section Kasiski.

(** A larger budget does not change a result. *)
Lemma vigenere_kasiski_test_fuel_mono (fuel k : nat) (crypt_text : str)
  (minimum_pattern_length maximum_pattern_length : Z) (l : list Z) :
  vigenere_kasiski_test fuel crypt_text minimum_pattern_length
    maximum_pattern_length = Ok l ->
  vigenere_kasiski_test (fuel + k) crypt_text minimum_pattern_length
    maximum_pattern_length = Ok l.
Proof.
  unfold vigenere_kasiski_test. intros H.
  destruct (maximize_patterns fuel crypt_text _ maximum_pattern_length)
    as [R| |] eqn:E; try discriminate.
  rewrite (maximize_patterns_fuel_mono _ _ fuel _ _ k E). exact H.
Qed.

(** Without a period, the first element of an empty list is asked for. *)
Lemma vigenere_kasiski_test_no_periods (fuel : nat) (crypt_text : str)
  (minimum_pattern_length maximum_pattern_length : Z) (p q : table) :
  maximize_patterns fuel crypt_text
    (initialize_patterns crypt_text minimum_pattern_length)
    maximum_pattern_length = Ok p ->
  remove_redundant_patterns p = Ok q ->
  get_pattern_distances q = Ok [] ->
  vigenere_kasiski_test fuel crypt_text minimum_pattern_length
    maximum_pattern_length = Raise IndexError.
Proof.
  intros Hp Hq Hd. unfold vigenere_kasiski_test.
  rewrite Hp. cbn [bind]. rewrite Hq. cbn [bind]. rewrite Hd. reflexivity.
Qed.

(** C3: the Kasiski test with minimum pattern length 3 and maximum pattern
    length 6 on vigenere_encode("cryptoisshortforcryptography", "abcd")
    returns a list of candidate key lengths that includes 4; the list is
    [16, 8, 4, 2, 1], for every recursion budget of 4 or more. *)
Theorem kasiski_test_finds_key_length_4 :
  exists crypt_text,
    vigenere_encode (lit "cryptoisshortforcryptography") (lit "abcd")
    = Ok crypt_text
    /\ forall fuel,
         vigenere_kasiski_test (4 + fuel) crypt_text 3 6 = Ok [16; 8; 4; 2; 1]
         /\ In 4 [16; 8; 4; 2; 1].
Proof.
  exists (lit "csastpkvsiqutgqucsastpiuaqjb"). split.
  - vm_compute. reflexivity.
  - intros fuel. split.
    + apply vigenere_kasiski_test_fuel_mono. vm_compute. reflexivity.
    + simpl. auto.
Qed.

(** C4: on a ciphertext without a repeated pattern there is no period, and
    vigenere_kasiski_test raises IndexError at factors_of_distances[0]; no
    check turns this into an argument error. *)
Theorem kasiski_test_without_periods_index_error :
  forall fuel,
    initialize_patterns (lit "abc") 3 = []
    /\ get_pattern_distances [] = Ok []
    /\ vigenere_kasiski_test (S fuel) (lit "abc") 3 6 = Raise IndexError.
Proof.
  intros fuel. split; [reflexivity|]. split; [reflexivity|].
  apply (vigenere_kasiski_test_no_periods (S fuel) (lit "abc") 3 6 [] []);
    reflexivity.
Qed.

End Kasiski.

(** ** The pattern table: termination, invariants, redundancy *)

Section PatternTable.

(** C1: maximize_patterns does not terminate on every ciphertext and valid
    table.  On "abcabc" with the table {"abc": [0, 3]}, which is the table
    of initialize_patterns and lists occurrences only, the pattern tried at
    index 3 is cut by the end of the text to "abc" itself and registered
    again, so every call recurses on the same table: no recursion budget is
    enough, for maximize_patterns and for vigenere_kasiski_test. *)
Theorem maximize_patterns_diverges_at_text_end :
  initialize_patterns (lit "abcabc") 3 = [(lit "abc", [0; 3])]
  /\ seeded (lit "abcabc") 3 [(lit "abc", [0; 3])]
  /\ extend_patterns (lit "abcabc") [(lit "abc", [0; 3])] 6
     = ([(lit "abc", [0; 3])], true)
  /\ (forall fuel,
        maximize_patterns fuel (lit "abcabc") [(lit "abc", [0; 3])] 6
        = OutOfFuel)
  /\ (forall fuel, vigenere_kasiski_test fuel (lit "abcabc") 3 6 = OutOfFuel).
Proof.
  assert (Hinit : initialize_patterns (lit "abcabc") 3 = [(lit "abc", [0; 3])])
    by (vm_compute; reflexivity).
  assert (Hext : extend_patterns (lit "abcabc") [(lit "abc", [0; 3])] 6
                 = ([(lit "abc", [0; 3])], true))
    by (vm_compute; reflexivity).
  assert (Hdiv : forall fuel,
             maximize_patterns fuel (lit "abcabc") [(lit "abc", [0; 3])] 6
             = OutOfFuel).
  { induction fuel as [|fuel IH]; [reflexivity|].
    cbn [maximize_patterns]. rewrite Hext. cbn [fst snd].
    rewrite IH. reflexivity. }
  split; [exact Hinit|]. split.
  { rewrite <- Hinit. apply initialize_patterns_seeded. lia. }
  split; [exact Hext|]. split; [exact Hdiv|].
  intros fuel. unfold vigenere_kasiski_test. rewrite Hinit, Hdiv. reflexivity.
Qed.

(** C5: for every ciphertext and every initial pattern table (distinct
    patterns of one length m, each with a list of its occurrences, as
    initialize_patterns builds them), each pattern of the table returned by
    maximize_patterns that is longer than m has its one-character-shorter
    prefix in the table, and its occurrence list is a subset of the
    prefix's. *)
Theorem maximize_patterns_prefix_monotone (crypt_text : str) (m max : Z)
  (patterns : table) (fuel : nat) (R : table) :
  seeded crypt_text m patterns ->
  maximize_patterns fuel crypt_text patterns max = Ok R ->
  prefix_monotone m R.
Proof.
  intros Hseed Hrun.
  destruct (maximize_patterns_levels crypt_text max fuel patterns m R Hseed Hrun)
    as (_ & _ & _ & H).
  exact H.
Qed.

Lemma maximize_patterns_prefix_monotone_witness :
  prefix_monotone 3
    [(lit "abc", [0; 5]); (lit "bcd", [1; 6]); (lit "abcd", [0; 5])].
Proof.
  apply (maximize_patterns_prefix_monotone (lit "abcdxabcdy") 3 6
           (initialize_patterns (lit "abcdxabcdy") 3) 3).
  - apply initialize_patterns_seeded. lia.
  - vm_compute. reflexivity.
Defined.

(** C7: every table of initialize_patterns maps each pattern to at least two
    occurrence indices in strictly ascending order; from a table with
    ascending lists, every pattern that a round of maximize_patterns
    registers has at least two occurrences in strictly ascending order; and
    the table maximize_patterns returns keeps the property. *)
Theorem occurrence_lists_repeated_ascending (crypt_text : str)
  (minimum_pattern_length maximum_pattern_length : Z) :
  Forall repeated_ascending
    (initialize_patterns crypt_text minimum_pattern_length)
  /\ (forall patterns,
        Forall ascending_entry patterns ->
        Forall repeated_ascending
          (fst (extend_patterns crypt_text patterns maximum_pattern_length)))
  /\ (forall fuel patterns R,
        Forall repeated_ascending patterns ->
        maximize_patterns fuel crypt_text patterns maximum_pattern_length
        = Ok R ->
        Forall repeated_ascending R).
Proof.
  split; [apply initialize_patterns_repeated_ascending|]. split.
  - apply extend_patterns_repeated_ascending.
  - intros fuel patterns R.
    apply maximize_patterns_repeated_ascending.
Qed.

Lemma occurrence_lists_repeated_ascending_witness :
  Forall repeated_ascending
    (fst (extend_patterns (lit "abcdxabcdy")
            [(lit "abc", [0; 5]); (lit "bcd", [1; 6])] 6))
  /\ Forall repeated_ascending
       [(lit "abc", [0; 5]); (lit "bcd", [1; 6]); (lit "abcd", [0; 5])].
Proof.
  destruct (occurrence_lists_repeated_ascending (lit "abcdxabcdy") 3 6)
    as (Hinit & Hround & Hall).
  split.
  - apply Hround. repeat constructor.
  - apply (Hall 3%nat (initialize_patterns (lit "abcdxabcdy") 3)).
    + exact Hinit.
    + vm_compute. reflexivity.
Defined.

(** C6: remove_redundant_patterns is idempotent: on every table it returns
    a table, and applied to that table it returns it unchanged. *)
Theorem remove_redundant_patterns_idempotent (p : table) :
  exists q,
    remove_redundant_patterns p = Ok q
    /\ remove_redundant_patterns q = Ok q.
Proof.
  destruct (remove_redundant_patterns_returns p) as [q Hq].
  exists q. split; [exact Hq|].
  apply remove_redundant_patterns_fuel_id.
  exact (remove_redundant_patterns_fuel_fixed _ _ _ Hq).
Qed.

(** C9: remove_redundant_patterns does not mutate its argument: called on
    the dict object at an address of the store, it returns a dict at a new
    address, and every object of the store before the call, the argument
    among them, maps the same patterns to the same lists after the call. *)
Theorem remove_redundant_patterns_keeps_argument (h : heap) (patterns : ref) :
  (patterns < length h)%nat ->
  exists result h',
    remove_redundant_patterns_heap (S (length (heap_read h patterns)))
      patterns h = Ok (result, h')
    /\ heap_read h' patterns = heap_read h patterns
    /\ (forall a, (a < length h)%nat -> heap_read h' a = heap_read h a)
    /\ result <> patterns
    /\ remove_redundant_patterns (heap_read h patterns)
       = Ok (heap_read h' result).
Proof.
  intros Hr.
  pose proof (remove_redundant_patterns_heap_spec
                (S (length (heap_read h patterns))) h patterns) as H.
  destruct (remove_redundant_patterns_returns (heap_read h patterns))
    as [q Hq].
  unfold remove_redundant_patterns in *. rewrite Hq in H.
  destruct H as (r' & h' & Hrun & Hfresh & Hread & Hframe).
  exists r', h'. split; [exact Hrun|].
  split; [apply Hframe; exact Hr|]. split; [exact Hframe|].
  split; [lia|]. rewrite Hread. exact Hq.
Qed.

Lemma remove_redundant_patterns_keeps_argument_witness :
  exists result h',
    remove_redundant_patterns_heap 3 0%nat
      [[(lit "ow", [1; 5]); (lit "cow", [0; 4])]] = Ok (result, h')
    /\ heap_read h' 0%nat = [(lit "ow", [1; 5]); (lit "cow", [0; 4])]
    /\ (forall a, (a < 1)%nat ->
          heap_read h' a
          = heap_read [[(lit "ow", [1; 5]); (lit "cow", [0; 4])]] a)
    /\ result <> 0%nat
    /\ remove_redundant_patterns [(lit "ow", [1; 5]); (lit "cow", [0; 4])]
       = Ok (heap_read h' result).
Proof.
  apply (remove_redundant_patterns_keeps_argument
           [[(lit "ow", [1; 5]); (lit "cow", [0; 4])]] 0%nat).
  simpl. lia.
Defined.

(** C10: in remove_redundant_patterns the branch of the failing assertion
    is unreachable: when the containment check passes, index finds a
    position that is not negative, so no comparison of two keys and no call
    of the function, on any table, fails that assertion. *)
Theorem redundancy_assertion_unreachable :
  (forall suspect_key larger_key,
      str_in suspect_key larger_key = true ->
      exists difference,
        str_index larger_key suspect_key = Ok difference /\ 0 <= difference)
  /\ (forall t suspect_key larger_key,
        coincides t suspect_key larger_key <> Raise AssertionError)
  /\ (forall p, returns (remove_redundant_patterns p)).
Proof.
  split; [intros s l; apply str_index_found|]. split.
  - intros t s l. unfold coincides.
    destruct (Zlen s >=? Zlen l); [discriminate|].
    destruct (negb (str_in s l)); [discriminate|].
    unfold dict_lookup.
    destruct (dict_get t s) as [vs|]; cbn [bind]; try discriminate.
    destruct (dict_get t l) as [vl|]; cbn [bind]; try discriminate.
    destruct (negb (Zlen vs =? Zlen vl)); [discriminate|].
    destruct (str_index l s) as [d| |] eqn:E; cbn [bind]; try discriminate.
    + apply str_index_nonneg in E.
      destruct (d >? 0) eqn:E1; cbn [bind]; [discriminate|].
      destruct (d =? 0) eqn:E2; cbn [bind]; [discriminate|].
      rewrite Z.gtb_ltb in E1. apply Z.ltb_ge in E1.
      apply Z.eqb_neq in E2. lia.
    + apply str_index_raise in E. subst. discriminate.
  - apply remove_redundant_patterns_returns.
Qed.

Lemma redundancy_assertion_unreachable_witness :
  exists difference,
    str_index (lit "cow") (lit "ow") = Ok difference /\ 0 <= difference.
Proof.
  destruct redundancy_assertion_unreachable as (H & _ & _).
  apply (H (lit "ow") (lit "cow")). reflexivity.
Defined.

End PatternTable.

(** * Further properties *)

(** ** Caesar shifts *)

Section Caesar.

Lemma rotate_letter_lower (c : ascii) (k : Z) :
  is_lower c = true ->
  rotate_letter c k = chr ((ord c - 97 + k) mod 26 + 97).
Proof.
  unfold is_lower, rotate_letter. change (ord "a") with 97.
  change (ord "z") with 122. intros H.
  apply andb_true_iff in H. destruct H as [H1 H2].
  apply Z.leb_le in H2.
  replace (ord c <? 122 + 1) with true by (symmetry; apply Z.ltb_lt; lia).
  rewrite H1. reflexivity.
Qed.

Lemma rotate_letter_upper (c : ascii) (k : Z) :
  is_upper c = true ->
  rotate_letter c k = chr ((ord c - 65 + k) mod 26 + 65).
Proof.
  unfold is_upper, rotate_letter. change (ord "a") with 97.
  change (ord "z") with 122. change (ord "A") with 65.
  change (ord "Z") with 90. intros H.
  apply andb_true_iff in H. destruct H as [H1 H2].
  apply Z.leb_le in H1. apply Z.leb_le in H2.
  replace (97 <=? ord c) with false by (symmetry; apply Z.leb_gt; lia).
  replace (65 <=? ord c) with true by (symmetry; apply Z.leb_le; lia).
  replace (ord c <? 90 + 1) with true by (symmetry; apply Z.ltb_lt; lia).
  reflexivity.
Qed.

Lemma rotate_letter_other (c : ascii) (k : Z) :
  is_lower c = false -> is_upper c = false -> rotate_letter c k = c.
Proof.
  unfold is_lower, is_upper, rotate_letter. change (ord "a") with 97.
  change (ord "z") with 122. change (ord "A") with 65.
  change (ord "Z") with 90. intros H1 H2.
  replace (ord c <? 122 + 1) with (ord c <=? 122)
    by (destruct (ord c <=? 122) eqn:E; symmetry;
        [apply Z.leb_le in E; apply Z.ltb_lt | apply Z.leb_gt in E; apply Z.ltb_ge];
        lia).
  replace (ord c <? 90 + 1) with (ord c <=? 90)
    by (destruct (ord c <=? 90) eqn:E; symmetry;
        [apply Z.leb_le in E; apply Z.ltb_lt | apply Z.leb_gt in E; apply Z.ltb_ge];
        lia).
  rewrite H1, H2. reflexivity.
Qed.

Lemma is_lower_chr (x : Z) : 0 <= x < 26 -> is_lower (chr (x + 97)) = true.
Proof.
  intros H. unfold is_lower. rewrite ord_chr by lia.
  apply andb_true_iff. split; apply Z.leb_le; lia.
Qed.

Lemma is_upper_chr (x : Z) : 0 <= x < 26 -> is_upper (chr (x + 65)) = true.
Proof.
  intros H. unfold is_upper. rewrite ord_chr by lia.
  apply andb_true_iff. split; apply Z.leb_le; lia.
Qed.

Lemma lower_not_upper (c : ascii) : is_lower c = true -> is_upper c = false.
Proof.
  unfold is_lower, is_upper. intros H. apply andb_true_iff in H.
  destruct H as [H1 _]. apply Z.leb_le in H1.
  apply andb_false_iff. right. apply Z.leb_gt. lia.
Qed.

Lemma rotate_letter_same_class (c : ascii) (k : Z) :
  same_class c (rotate_letter c k).
Proof.
  unfold same_class. split; [|split].
  - intros H. rewrite rotate_letter_lower by exact H.
    apply is_lower_chr. apply Z.mod_pos_bound. lia.
  - intros H. rewrite rotate_letter_upper by exact H.
    apply is_upper_chr. apply Z.mod_pos_bound. lia.
  - apply rotate_letter_other.
Qed.

(** Two shifts in a row are the shift by the sum. *)
Lemma rotate_letter_add (c : ascii) (a b : Z) :
  rotate_letter (rotate_letter c a) b = rotate_letter c (a + b).
Proof.
  destruct (is_lower c) eqn:El.
  - pose proof (Z.mod_pos_bound (ord c - 97 + a) 26 ltac:(lia)) as Hm.
    rewrite (rotate_letter_lower c a El), (rotate_letter_lower c (a + b) El).
    rewrite rotate_letter_lower by (apply is_lower_chr; exact Hm).
    rewrite ord_chr by lia. f_equal. f_equal.
    replace ((ord c - 97 + a) mod 26 + 97 - 97 + b)
      with ((ord c - 97 + a) mod 26 + b) by lia.
    rewrite Z.add_mod_idemp_l by lia. f_equal. lia.
  - destruct (is_upper c) eqn:Eu.
    + pose proof (Z.mod_pos_bound (ord c - 65 + a) 26 ltac:(lia)) as Hm.
      rewrite (rotate_letter_upper c a Eu), (rotate_letter_upper c (a + b) Eu).
      rewrite rotate_letter_upper by (apply is_upper_chr; exact Hm).
      rewrite ord_chr by lia. f_equal. f_equal.
      replace ((ord c - 65 + a) mod 26 + 65 - 65 + b)
        with ((ord c - 65 + a) mod 26 + b) by lia.
      rewrite Z.add_mod_idemp_l by lia. f_equal. lia.
    + rewrite (rotate_letter_other c a El Eu).
      rewrite (rotate_letter_other c b El Eu).
      rewrite (rotate_letter_other c (a + b) El Eu). reflexivity.
Qed.

(** Only the shift modulo 26 matters. *)
Lemma rotate_letter_mod (c : ascii) (k : Z) :
  rotate_letter c (k mod 26) = rotate_letter c k.
Proof.
  destruct (is_lower c) eqn:El.
  - rewrite !rotate_letter_lower by exact El.
    rewrite Z.add_mod_idemp_r by lia. reflexivity.
  - destruct (is_upper c) eqn:Eu.
    + rewrite !rotate_letter_upper by exact Eu.
      rewrite Z.add_mod_idemp_r by lia. reflexivity.
    + rewrite !rotate_letter_other by assumption. reflexivity.
Qed.

Lemma rotate_letter_zero (c : ascii) : rotate_letter c 0 = c.
Proof.
  pose proof (ord_range c) as Hc.
  destruct (is_lower c) eqn:El.
  - rewrite rotate_letter_lower by exact El.
    unfold is_lower in El. apply andb_true_iff in El. destruct El as [H1 H2].
    apply Z.leb_le in H1. apply Z.leb_le in H2.
    rewrite Z.add_0_r, Z.mod_small by lia.
    replace (ord c - 97 + 97) with (ord c) by lia. apply chr_ord.
  - destruct (is_upper c) eqn:Eu.
    + rewrite rotate_letter_upper by exact Eu.
      unfold is_upper in Eu. apply andb_true_iff in Eu. destruct Eu as [H1 H2].
      apply Z.leb_le in H1. apply Z.leb_le in H2.
      rewrite Z.add_0_r, Z.mod_small by lia.
      replace (ord c - 65 + 65) with (ord c) by lia. apply chr_ord.
    + apply rotate_letter_other; assumption.
Qed.

Lemma rotate_zero (t : str) : rotate t 0 = t.
Proof.
  unfold rotate. rewrite <- (map_id t) at 2.
  apply map_ext. intros c. apply rotate_letter_zero.
Qed.

(** X1: rotate composes additively on every text, letters or not: shifting
    by a and then by b is shifting by a + b; in particular shifting back by
    -a restores the text, and a shift by a multiple of 26 changes nothing. *)
Theorem rotate_compose (plaintext : str) (a b : Z) :
  rotate (rotate plaintext a) b = rotate plaintext (a + b)
  /\ rotate (rotate plaintext a) (- a) = plaintext
  /\ rotate plaintext (26 * a) = plaintext.
Proof.
  pose proof rotate_zero as H0.
  assert (Hadd : forall t x y, rotate (rotate t x) y = rotate t (x + y)).
  { intros t x y. unfold rotate. rewrite map_map. apply map_ext.
    intros c. apply rotate_letter_add. }
  split; [apply Hadd|]. split.
  - rewrite Hadd. replace (a + - a) with 0 by lia. apply H0.
  - rewrite <- (H0 plaintext) at 2. unfold rotate. apply map_ext. intros c.
    rewrite <- (rotate_letter_mod c (26 * a)).
    rewrite Z.mul_comm, Z.mod_mul by lia. reflexivity.
Qed.

(** X2: rotate keeps the length of the text and the class of every
    character: small letters stay small letters, capitals stay capitals,
    and every other character is left as it is. *)
Theorem rotate_keeps_shape (plaintext : str) (rotate_by : Z) :
  Zlen (rotate plaintext rotate_by) = Zlen plaintext
  /\ Forall2 same_class plaintext (rotate plaintext rotate_by).
Proof.
  split; [unfold rotate; apply Zlen_map|].
  unfold rotate. induction plaintext as [|c t IH]; simpl; constructor.
  - apply rotate_letter_same_class.
  - exact IH.
Qed.

(** X3: get_all_rotations lists 26 texts, and the Caesar shift of the text
    by any integer n is the entry at index n mod 26; the entry at index 0 is
    the text itself. *)
Theorem get_all_rotations_complete (crypt_text : str) (n : Z) :
  length (get_all_rotations crypt_text) = 26%nat
  /\ nth_error (get_all_rotations crypt_text) (Z.to_nat (n mod 26))
     = Some (rotate crypt_text n)
  /\ nth_error (get_all_rotations crypt_text) 0 = Some crypt_text.
Proof.
  assert (Hnth : forall i, (i < 26)%nat ->
            nth_error (get_all_rotations crypt_text) i
            = Some (rotate crypt_text (Z.of_nat i))).
  { intros i Hi. unfold get_all_rotations, range.
    rewrite !nth_error_map.
    rewrite (nth_error_nth' (seq 0 26) 0%nat) by (rewrite length_seq; exact Hi).
    rewrite seq_nth by exact Hi. reflexivity. }
  split; [reflexivity|]. split.
  - pose proof (Z.mod_pos_bound n 26 ltac:(lia)) as Hm.
    rewrite Hnth by lia. rewrite Z2Nat.id by lia. f_equal.
    unfold rotate. apply map_ext. intros c. apply rotate_letter_mod.
  - rewrite (Hnth 0%nat) by lia. f_equal. apply rotate_zero.
Qed.

End Caesar.

(** ** Vigenere coding, position by position *)

Section VigenerePositions.

Lemma nth_error_key_text_gen (kl : list Z) (r : nat) :
  (r <= length kl)%nat ->
  forall q i,
    (i < q * length kl + r)%nat ->
    nth_error (list_mul kl q ++ firstn r kl) i
    = nth_error kl (i mod length kl).
Proof.
  intros Hr. induction q as [|q IH]; intros i Hi.
  - simpl in *. rewrite nth_error_firstn.
    replace (i <? r)%nat with true by (symmetry; apply Nat.ltb_lt; lia).
    rewrite Nat.mod_small by lia. reflexivity.
  - cbn [list_mul]. rewrite <- app_assoc.
    destruct (Nat.lt_ge_cases i (length kl)) as [Hlt|Hge].
    + rewrite nth_error_app1 by exact Hlt.
      rewrite Nat.mod_small by exact Hlt. reflexivity.
    + rewrite nth_error_app2 by exact Hge.
      rewrite IH by (simpl in Hi; lia).
      f_equal.
      replace i with ((i - length kl) + 1 * length kl)%nat at 2 by lia.
      rewrite Nat.Div0.mod_add. reflexivity.
Qed.

(** The key text cycles through the key. *)
Lemma nth_error_key_text (kl : list Z) (n i : nat) :
  kl <> [] -> (i < n)%nat ->
  nth_error (key_text kl n) i = nth_error kl (i mod length kl).
Proof.
  intros Hne Hi. unfold key_text.
  assert (Hk : length kl <> 0%nat)
    by (destruct kl; [congruence | simpl; lia]).
  pose proof (Nat.mod_upper_bound n (length kl) Hk) as Hlt.
  pose proof (Nat.div_mod_eq n (length kl)) as Hdm.
  apply nth_error_key_text_gen; lia.
Qed.

Lemma nth_error_rotate_all (text : str) (shifts : list Z) (i : nat) :
  nth_error (rotate_all text shifts) i
  = match nth_error text i, nth_error shifts i with
    | Some c, Some k => Some (rotate_letter c k)
    | _, _ => None
    end.
Proof.
  unfold rotate_all. revert shifts i.
  induction text as [|c text IH]; intros [|k shifts] [|i]; simpl;
    try reflexivity.
  - destruct (nth_error text i); reflexivity.
  - apply IH.
Qed.

Lemma rotate_all_same_class (text : str) (shifts : list Z) :
  length text = length shifts ->
  Forall2 same_class text (rotate_all text shifts).
Proof.
  unfold rotate_all. revert shifts.
  induction text as [|c text IH]; intros [|k shifts] H; simpl in *;
    try discriminate; constructor.
  - apply rotate_letter_same_class.
  - apply IH. lia.
Qed.

(** A call of vigenere_encode that returns had a key that is not empty and
    not longer than the text. *)
Lemma vigenere_encode_returns_inv (text key crypt_text : str) :
  vigenere_encode text key = Ok crypt_text ->
  key <> [] /\ Zlen key <= Zlen text.
Proof.
  intros H. split.
  - intros ->. rewrite vigenere_encode_empty_key in H. discriminate.
  - destruct (Z.lt_ge_cases (Zlen text) (Zlen key)) as [Hlt|Hge]; [|lia].
    apply vigenere_encode_assert in Hlt. congruence.
Qed.

Lemma vigenere_decode_returns_inv (crypt_text key text : str) :
  vigenere_decode crypt_text key = Ok text ->
  key <> [] /\ Zlen key <= Zlen crypt_text.
Proof.
  intros H. split.
  - intros ->. rewrite vigenere_decode_empty_key in H. discriminate.
  - destruct (Z.lt_ge_cases (Zlen crypt_text) (Zlen key)) as [Hlt|Hge]; [|lia].
    apply vigenere_decode_assert in Hlt. congruence.
Qed.

Lemma key_list_nonempty (key : str) :
  key <> [] -> map (fun x => ord x - ord "a") (lower key) <> [].
Proof.
  intros Hne H. apply map_eq_nil in H. apply map_eq_nil in H. contradiction.
Qed.

(** The value of a key letter, case ignored, is one of 0 to 25. *)
Lemma letter_value_range (k : ascii) :
  is_letter k = true -> 0 <= ord (lower_char k) - ord "a" < 26.
Proof.
  unfold is_letter, lower_char. intros H.
  change (ord "a") with 97. pose proof (ord_range k) as Hr.
  destruct ((65 <=? ord k) && (ord k <=? 90)) eqn:U; cbn [orb].
  - apply andb_true_iff in U. destruct U as [U1 U2].
    apply Z.leb_le in U1. apply Z.leb_le in U2.
    rewrite ord_chr by lia. lia.
  - rewrite orb_false_r in H. apply andb_true_iff in H.
    destruct H as [H1 H2]. apply Z.leb_le in H1. apply Z.leb_le in H2.
    destruct ((192 <=? ord k) && (ord k <=? 222) && negb (ord k =? 215))
      eqn:A.
    + apply andb_true_iff in A. destruct A as [A _].
      apply andb_true_iff in A. destruct A as [A _].
      apply Z.leb_le in A. lia.
    + lia.
Qed.

(** X4: vigenere_encode works position by position with an alphabetic key
    cycled: when it returns, the character at index i of the result is the
    character at index i of the text shifted by the value (a = 0, ...,
    z = 25, case ignored) of the key letter at index i mod len(key); the
    key moves on at every position of the text, letter or not. *)
Theorem vigenere_encode_positions (text key crypt_text : str) (i : nat)
  (c : ascii) :
  alphabetic key ->
  vigenere_encode text key = Ok crypt_text ->
  nth_error text i = Some c ->
  exists k,
    nth_error key (i mod length key) = Some k
    /\ is_letter k = true
    /\ 0 <= ord (lower_char k) - ord "a" < 26
    /\ nth_error crypt_text i
       = Some (rotate_letter c (ord (lower_char k) - ord "a")).
Proof.
  intros Halpha Hrun Hc.
  destruct (vigenere_encode_returns_inv _ _ _ Hrun) as [Hne Hlen].
  rewrite vigenere_encode_ok in Hrun by assumption.
  inversion Hrun. subst crypt_text. clear Hrun.
  assert (Hi : (i < length text)%nat)
    by (apply nth_error_Some; congruence).
  assert (Hk : length key <> 0%nat)
    by (destruct key; [congruence | simpl; lia]).
  pose proof (Nat.mod_upper_bound i (length key) Hk) as Hm.
  destruct (nth_error key (i mod length key)) as [k|] eqn:Ek;
    [|apply nth_error_None in Ek; lia].
  assert (Hletter : is_letter k = true).
  { unfold alphabetic in Halpha. rewrite forallb_forall in Halpha.
    apply Halpha. apply nth_error_In with (n := (i mod length key)%nat).
    exact Ek. }
  exists k. split; [reflexivity|]. split; [exact Hletter|]. split.
  - apply letter_value_range. exact Hletter.
  - rewrite nth_error_rotate_all, Hc.
    rewrite nth_error_key_text by (auto using key_list_nonempty).
    unfold lower. rewrite !length_map, !nth_error_map, Ek. reflexivity.
Qed.

Lemma vigenere_encode_positions_witness :
  exists k,
    nth_error (lit "Lemon") (7 mod length (lit "Lemon")) = Some k
    /\ is_letter k = true
    /\ 0 <= ord (lower_char k) - ord "a" < 26
    /\ nth_error (lit "lxfopvefrnhr") 7
       = Some (rotate_letter "t" (ord (lower_char k) - ord "a")).
Proof.
  apply (vigenere_encode_positions (lit "attackatdawn") (lit "Lemon")
           (lit "lxfopvefrnhr") 7 "t").
  - reflexivity.
  - vm_compute. reflexivity.
  - reflexivity.
Defined.

(** X5: a result of vigenere_encode or of vigenere_decode has the length of
    its input, with small letters at the places of small letters, capitals
    at the places of capitals and every other character unchanged. *)
Theorem vigenere_keeps_shape (text key out : str) :
  vigenere_encode text key = Ok out \/ vigenere_decode text key = Ok out ->
  Zlen out = Zlen text /\ Forall2 same_class text out.
Proof.
  assert (Hshape : forall shifts,
             length text = length shifts ->
             Zlen (rotate_all text shifts) = Zlen text
             /\ Forall2 same_class text (rotate_all text shifts)).
  { intros shifts Hs. split.
    - unfold Zlen. rewrite length_rotate_all by exact Hs. reflexivity.
    - apply rotate_all_same_class. exact Hs. }
  intros [H|H].
  - destruct (vigenere_encode_returns_inv _ _ _ H) as [Hne Hlen].
    rewrite vigenere_encode_ok in H by assumption.
    inversion H. apply Hshape.
    rewrite length_key_text by (auto using key_list_nonempty). reflexivity.
  - destruct (vigenere_decode_returns_inv _ _ _ H) as [Hne Hlen].
    rewrite vigenere_decode_ok in H by assumption.
    inversion H. apply Hshape.
    rewrite length_map, length_key_text by (auto using key_list_nonempty).
    reflexivity.
Qed.

Lemma vigenere_keeps_shape_witness :
  Zlen (lit "Lxfopv, og hmka!") = Zlen (lit "Attack, at dawn!")
  /\ Forall2 same_class (lit "Attack, at dawn!") (lit "Lxfopv, og hmka!").
Proof.
  apply (vigenere_keeps_shape (lit "Attack, at dawn!") (lit "lemon")).
  left. vm_compute. reflexivity.
Defined.

Lemma rotate_all_inverse_back (text : str) (shifts : list Z) :
  length text = length shifts ->
  rotate_all (rotate_all text (map (fun k => (26 - k) mod 26) shifts)) shifts
  = text.
Proof.
  revert shifts. induction text as [|c text IH]; intros [|k shifts] H;
    simpl in H; try discriminate; [reflexivity|].
  assert (Hz : ((26 - k) mod 26 + k) mod 26 = 0).
  { rewrite Z.add_mod_idemp_l by lia.
    replace (26 - k + k) with (1 * 26) by lia. apply Z.mod_mul. lia. }
  unfold rotate_all in *. cbn [map combine fst snd]. f_equal; [|apply IH; lia].
  rewrite rotate_letter_add, <- rotate_letter_mod, Hz.
  apply rotate_letter_zero.
Qed.

(** X6: the round trip in the other direction: for every ciphertext C and
    every alphabetic key K that is not empty with len(K) <= len(C),
    vigenere_decode(C, K) returns a text P and vigenere_encode(P, K)
    returns C. *)
Theorem vigenere_decode_then_encode (crypt_text key : str) :
  alphabetic key -> key <> [] -> Zlen key <= Zlen crypt_text ->
  exists text,
    vigenere_decode crypt_text key = Ok text
    /\ vigenere_encode text key = Ok crypt_text.
Proof.
  intros _ Hne Hlen.
  set (shifts := key_text (map (fun x => ord x - ord "a") (lower key))
                   (length crypt_text)).
  assert (Hsh : length crypt_text = length shifts).
  { unfold shifts.
    rewrite length_key_text by (auto using key_list_nonempty). reflexivity. }
  assert (Hsh' : length crypt_text
                 = length (map (fun k => (26 - k) mod 26) shifts))
    by (rewrite length_map; exact Hsh).
  exists (rotate_all crypt_text (map (fun k => (26 - k) mod 26) shifts)).
  split.
  - apply vigenere_decode_ok; assumption.
  - rewrite vigenere_encode_ok; auto.
    + rewrite length_rotate_all by exact Hsh'. fold shifts.
      rewrite rotate_all_inverse_back by exact Hsh. reflexivity.
    + unfold Zlen in *. rewrite length_rotate_all by exact Hsh'. exact Hlen.
Qed.

Lemma vigenere_decode_then_encode_witness :
  exists text,
    vigenere_decode (lit "lxfopvefrnhr") (lit "Lemon") = Ok text
    /\ vigenere_encode text (lit "Lemon") = Ok (lit "lxfopvefrnhr").
Proof.
  apply (vigenere_decode_then_encode (lit "lxfopvefrnhr") (lit "Lemon")).
  - reflexivity.
  - discriminate.
  - vm_compute. discriminate.
Defined.

Lemma rotate_all_repeat (text : str) (k : Z) :
  rotate_all text (repeat k (length text)) = rotate text k.
Proof.
  unfold rotate_all, rotate. induction text as [|c text IH]; simpl;
    [reflexivity|]. rewrite IH. reflexivity.
Qed.

Lemma key_text_single (k : Z) (n : nat) : key_text [k] n = repeat k n.
Proof.
  unfold key_text. cbn [length]. rewrite Nat.div_1_r, Nat.mod_1_r.
  cbn [firstn]. rewrite app_nil_r.
  induction n as [|n IH]; simpl; [reflexivity|]. rewrite IH. reflexivity.
Qed.

(** X7: with a key of one letter the Vigenere cipher is the Caesar shift:
    on a text that is not empty, vigenere_encode(T, k) is rotate(T, v) and
    vigenere_decode(T, k) is rotate(T, -v), where v is the value of the
    letter k. *)
Theorem vigenere_one_letter_key (text : str) (k : ascii) :
  text <> [] ->
  vigenere_encode text [k] = Ok (rotate text (ord (lower_char k) - ord "a"))
  /\ vigenere_decode text [k]
     = Ok (rotate text (- (ord (lower_char k) - ord "a"))).
Proof.
  intros Hne.
  assert (Hlen : Zlen [k] <= Zlen text).
  { destruct text; [congruence|]. unfold Zlen. simpl. lia. }
  split.
  - rewrite vigenere_encode_ok by (auto; discriminate).
    cbn [lower map]. rewrite key_text_single, rotate_all_repeat. reflexivity.
  - rewrite vigenere_decode_ok by (auto; discriminate).
    cbn [lower map]. rewrite key_text_single.
    rewrite map_repeat, rotate_all_repeat. f_equal. unfold rotate. apply map_ext. intros c.
    rewrite rotate_letter_mod.
    rewrite <- (rotate_letter_mod c (26 - _)), <- (rotate_letter_mod c (- _)).
    f_equal.
    replace (26 - (ord (lower_char k) - ord "a"))
      with (- (ord (lower_char k) - ord "a") + 1 * 26) by lia.
    apply Z.mod_add. lia.
Qed.

Lemma vigenere_one_letter_key_witness :
  vigenere_encode (lit "Hello, World") ["D"%char]
  = Ok (rotate (lit "Hello, World") (ord (lower_char "D") - ord "a"))
  /\ vigenere_decode (lit "Hello, World") ["D"%char]
     = Ok (rotate (lit "Hello, World") (- (ord (lower_char "D") - ord "a"))).
Proof.
  apply (vigenere_one_letter_key (lit "Hello, World") "D"). discriminate.
Defined.

End VigenerePositions.

(** ** Factors, periods and key lengths *)

Section Factors.

Lemma In_range1 (number d : Z) : In d (range1 number) <-> 1 <= d <= number.
Proof.
  unfold range1. rewrite in_map_iff. split.
  - intros (i & <- & Hi). apply in_seq in Hi. lia.
  - intros H. exists (Z.to_nat d). split; [lia|]. apply in_seq. lia.
Qed.

Lemma range1_sorted (number : Z) : StronglySorted Z.lt (range1 number).
Proof.
  unfold range1. generalize (Z.to_nat number) as n. generalize 1%nat as s.
  intros s n. revert s. induction n as [|n IH]; intros s; simpl;
    constructor; [apply IH|].
  apply Forall_forall. intros x Hx. apply in_map_iff in Hx.
  destruct Hx as (i & <- & Hi). apply in_seq in Hi. lia.
Qed.

Lemma get_factors_sorted_aux (number : Z) :
  StronglySorted Z.lt (get_factors number).
Proof.
  unfold get_factors. apply filter_StronglySorted. apply range1_sorted.
Qed.

(** X8: get_factors(number) lists exactly the divisors d of number with
    1 <= d <= number, in strictly ascending order; for number <= 0 the list
    is empty. *)
Theorem get_factors_divisors (number : Z) :
  (forall d, In d (get_factors number) <-> 1 <= d <= number /\ (d | number))
  /\ Sorted Z.lt (get_factors number)
  /\ (number <= 0 -> get_factors number = []).
Proof.
  split; [|split].
  - intros d. unfold get_factors. rewrite filter_In, In_range1, Z.eqb_eq.
    split; intros [H1 H2]; (split; [exact H1|]).
    + apply Z.mod_divide; [lia | exact H2].
    + apply Z.mod_divide; [lia | exact H2].
  - unfold get_factors. apply StronglySorted_Sorted, filter_StronglySorted.
    apply range1_sorted.
  - intros H. unfold get_factors, range1.
    replace (Z.to_nat number) with 0%nat by lia. reflexivity.
Qed.

Lemma get_factors_divisors_witness : get_factors (-4) = [].
Proof.
  destruct (get_factors_divisors (-4)) as (_ & _ & H). apply H. lia.
Defined.

Lemma existsb_eqb_In (x : Z) (l : list Z) :
  existsb (Z.eqb x) l = true <-> In x l.
Proof.
  rewrite existsb_exists. split.
  - intros (y & Hy & E). apply Z.eqb_eq in E. subst. exact Hy.
  - intros H. exists x. split; [exact H | apply Z.eqb_refl].
Qed.

Lemma In_set_of (x : Z) (l : list Z) : In x (set_of l) <-> In x l.
Proof.
  induction l as [|y l IH]; simpl; [tauto|].
  destruct (existsb (Z.eqb y) l) eqn:E.
  - apply existsb_eqb_In in E. rewrite IH. split; [auto|].
    intros [->|H]; assumption.
  - simpl. rewrite IH. tauto.
Qed.

Lemma NoDup_set_of (l : list Z) : NoDup (set_of l).
Proof.
  induction l as [|y l IH]; simpl; [constructor|].
  destruct (existsb (Z.eqb y) l) eqn:E; [exact IH|].
  constructor; [|exact IH]. rewrite In_set_of. intros H.
  apply existsb_eqb_In in H. congruence.
Qed.

Lemma In_set_inter (x : Z) (a b : list Z) :
  In x (set_inter a b) <-> In x a /\ In x b.
Proof.
  unfold set_inter. rewrite In_set_of, filter_In, existsb_eqb_In. tauto.
Qed.

Lemma In_fold_set_inter (x : Z) (others : list (list Z)) :
  forall first,
    In x (fold_left set_inter others first)
    <-> In x first /\ forall o, In o others -> In x o.
Proof.
  induction others as [|o others IH]; intros first; simpl.
  - split; [intros H; split; [exact H | intros o []] | tauto].
  - rewrite IH, In_set_inter. split.
    + intros [[H1 H2] H3]. split; [exact H1|].
      intros o' [<-|H]; auto.
    + intros [H1 H2]. split; [split|]; auto.
Qed.

Lemma NoDup_fold_set_inter (others : list (list Z)) :
  forall first, NoDup first -> NoDup (fold_left set_inter others first).
Proof.
  induction others as [|o others IH]; intros first H; simpl; [exact H|].
  apply IH. apply NoDup_set_of.
Qed.

Lemma In_insert_desc (x y : Z) (l : list Z) :
  In y (insert_desc x l) <-> y = x \/ In y l.
Proof.
  induction l as [|z l IH]; simpl; [intuition congruence|].
  destruct (z >? x); simpl; [rewrite IH|]; intuition congruence.
Qed.

Lemma In_sorted_desc (y : Z) (l : list Z) : In y (sorted_desc l) <-> In y l.
Proof.
  induction l as [|x l IH]; simpl; [tauto|].
  rewrite In_insert_desc, IH. intuition congruence.
Qed.

Lemma insert_desc_sorted (x : Z) (l : list Z) :
  ~ In x l -> StronglySorted Z.gt l -> StronglySorted Z.gt (insert_desc x l).
Proof.
  intros Hx Hs. induction Hs as [|z l Hs IH Hz]; simpl.
  - constructor; constructor.
  - destruct (z >? x) eqn:E.
    + rewrite Z.gtb_ltb in E. apply Z.ltb_lt in E.
      constructor; [apply IH; intros H; apply Hx; right; exact H|].
      apply Forall_forall. intros y Hy. apply In_insert_desc in Hy.
      destruct Hy as [->|Hy]; [lia|].
      rewrite Forall_forall in Hz. apply Hz. exact Hy.
    + rewrite Z.gtb_ltb in E. apply Z.ltb_ge in E.
      assert (z <> x) by (intros ->; apply Hx; left; reflexivity).
      constructor; [constructor; assumption|].
      constructor; [lia|].
      rewrite Forall_forall in *. intros y Hy. specialize (Hz y Hy). lia.
Qed.

(** Without repeated elements, the sorted list descends strictly. *)
Lemma sorted_desc_strict (l : list Z) :
  NoDup l -> StronglySorted Z.gt (sorted_desc l).
Proof.
  induction 1 as [|x l Hx Hnd IH]; simpl; [constructor|].
  apply insert_desc_sorted; [|exact IH].
  rewrite In_sorted_desc. exact Hx.
Qed.

Lemma get_factors_NoDup (number : Z) : NoDup (get_factors number).
Proof.
  pose proof (get_factors_sorted_aux number) as Hs.
  induction Hs as [|x l Hs IH Hx]; constructor; [|exact IH].
  intros H. rewrite Forall_forall in Hx. specialize (Hx x H). lia.
Qed.

End Factors.

Section Distances.

Lemma map_sub_step (a b : Z) (v : list Z) :
  map_sub (tl (a :: b :: v)) (removelast (a :: b :: v))
  = (b - a) :: map_sub (tl (b :: v)) (removelast (b :: v)).
Proof.
  cbn [tl]. change (removelast (a :: b :: v)) with (a :: removelast (b :: v)).
  cbn [map_sub]. reflexivity.
Qed.

Lemma In_map_sub (x : Z) (v : list Z) :
  In x (map_sub (tl v) (removelast v))
  <-> exists i, (S i < length v)%nat /\ x = nth (S i) v 0 - nth i v 0.
Proof.
  induction v as [|a v IH].
  - simpl. split; [tauto | intros (i & H & _); simpl in H; lia].
  - destruct v as [|b v].
    + simpl. split; [tauto | intros (i & H & _); simpl in H; lia].
    + rewrite map_sub_step. cbn [In]. rewrite IH. split.
      * intros [<-|(i & Hi & ->)].
        -- exists 0%nat. split; [simpl; lia | reflexivity].
        -- exists (S i). split; [simpl in *; lia | reflexivity].
      * intros ([|i] & Hi & ->).
        -- left. reflexivity.
        -- right. exists i. split; [simpl in *; lia | reflexivity].
Qed.

Lemma map_sub_nonempty (v : list Z) :
  2 <= Zlen v -> map_sub (tl v) (removelast v) <> [].
Proof.
  destruct v as [|a [|b v]]; intros H.
  - unfold Zlen in H. simpl in H. lia.
  - unfold Zlen in H. simpl in H. lia.
  - rewrite map_sub_step. discriminate.
Qed.

Lemma map_sub_short (v : list Z) :
  Zlen v <= 1 -> map_sub (tl v) (removelast v) = [].
Proof.
  destruct v as [|a [|b v]]; intros H; try reflexivity.
  unfold Zlen in H. simpl in H. lia.
Qed.

Lemma set_of_singleton (l : list Z) (d : Z) :
  set_of l = [d] <-> l <> [] /\ forall x, In x l -> x = d.
Proof.
  split.
  - intros H. split.
    + intros ->. discriminate.
    + intros x Hx. apply In_set_of in Hx. rewrite H in Hx.
      destruct Hx as [<-|[]]. reflexivity.
  - intros [Hne Hall].
    pose proof (NoDup_set_of l) as Hnd.
    assert (Hin : forall x, In x (set_of l) -> x = d)
      by (intros x Hx; apply Hall, In_set_of; exact Hx).
    destruct (set_of l) as [|y [|z s]] eqn:E.
    + destruct l as [|a l]; [congruence|].
      assert (In a (set_of (a :: l))) by (apply In_set_of; left; reflexivity).
      rewrite E in H. destruct H.
    + f_equal. apply Hin. left. reflexivity.
    + exfalso. inversion Hnd as [|? ? Hnot _]. subst. apply Hnot.
      left. rewrite (Hin y), (Hin z); simpl; auto.
Qed.

Lemma deltas_of_singleton (v : list Z) (d : Z) :
  2 <= Zlen v -> (deltas_of v = [d] <-> constant_spacing v d).
Proof.
  intros Hlen. unfold deltas_of, constant_spacing.
  rewrite set_of_singleton. split.
  - intros [_ H] i Hi. apply H. apply In_map_sub. eauto.
  - intros H. split; [apply map_sub_nonempty; exact Hlen|].
    intros x Hx. apply In_map_sub in Hx. destruct Hx as (i & Hi & ->).
    apply H. exact Hi.
Qed.

(** The loop of get_pattern_distances on lists of two or more indices. *)
Lemma pattern_distances_loop_ok (t : table) :
  forall ks acc,
    Forall (fun k => exists v, dict_get t k = Some v /\ 2 <= Zlen v) ks ->
    exists ps,
      pattern_distances_loop t ks acc = Ok (acc ++ ps)
      /\ forall d, In d ps
                   <-> exists k v, In k ks /\ dict_get t k = Some v
                                   /\ deltas_of v = [d].
Proof.
  induction ks as [|k ks IH]; intros acc Hks.
  - exists []. rewrite app_nil_r. split; [reflexivity|].
    intros d. split; [intros [] | intros (k & v & [] & _)].
  - inversion Hks as [|? ? (v & Hv & Hlen) Hrest]. subst.
    cbn [pattern_distances_loop]. unfold dict_lookup. rewrite Hv.
    cbn [bind]. fold (deltas_of v).
    assert (Hne : deltas_of v <> []).
    { unfold deltas_of. intros E.
      pose proof (map_sub_nonempty v Hlen) as Hm.
      destruct (map_sub (tl v) (removelast v)) as [|x l]; [congruence|].
      assert (In x (set_of (x :: l))) by (apply In_set_of; left; reflexivity).
      rewrite E in H. destruct H. }
    destruct (Zlen (deltas_of v) >? 1) eqn:E.
    + destruct (IH acc Hrest) as (ps & Hrun & Hps).
      exists ps. split; [exact Hrun|].
      intros d. rewrite Hps. split.
      * intros (k' & v' & Hk' & H). exists k', v'. split; [right|]; tauto.
      * intros (k' & v' & [<-|Hk'] & Hv' & Hd).
        -- rewrite Hv in Hv'. inversion Hv'. subst v'. rewrite Hd in E.
           discriminate.
        -- eauto.
    + destruct (deltas_of v) as [|d0 [|d1 l]] eqn:Ed; [congruence| |].
      * destruct (IH (acc ++ [d0]) Hrest) as (ps & Hrun & Hps).
        exists (d0 :: ps). rewrite Hrun, <- app_assoc. split; [reflexivity|].
        intros d. cbn [In]. rewrite Hps. split.
        -- intros [<-|(k' & v' & Hk' & H)].
           ++ exists k, v. split; [left; reflexivity|]. auto.
           ++ exists k', v'. split; [right|]; tauto.
        -- intros (k' & v' & [<-|Hk'] & Hv' & Hd).
           ++ rewrite Hv in Hv'. inversion Hv'. subst v'. rewrite Ed in Hd.
              inversion Hd. left. reflexivity.
           ++ right. eauto.
      * exfalso. rewrite Z.gtb_ltb in E. apply Z.ltb_ge in E.
        unfold Zlen in E. simpl in E. lia.
Qed.

(** The loop on a table with a list of fewer than two indices. *)
Lemma pattern_distances_loop_short (t : table) :
  forall ks acc,
    incl ks (keys t) ->
    Exists (fun k => exists v, dict_get t k = Some v /\ Zlen v <= 1) ks ->
    pattern_distances_loop t ks acc = Raise IndexError.
Proof.
  induction ks as [|k ks IH]; intros acc Hincl Hex; [inversion Hex|].
  cbn [pattern_distances_loop].
  assert (Hk : In k (keys t)) by (apply Hincl; left; reflexivity).
  apply dict_get_keys in Hk. destruct Hk as [v Hv].
  unfold dict_lookup. rewrite Hv. cbn [bind].
  assert (Hrest : incl ks (keys t))
    by (intros x Hx; apply Hincl; right; exact Hx).
  destruct (Z.le_gt_cases (Zlen v) 1) as [Hshort|Hlong].
  - rewrite (map_sub_short v Hshort). reflexivity.
  - assert (Hex' : Exists (fun k => exists v, dict_get t k = Some v
                                              /\ Zlen v <= 1) ks).
    { inversion Hex as [? ? (v' & Hv' & Hl)|]; subst; [|assumption].
      rewrite Hv in Hv'. inversion Hv'. subst. lia. }
    destruct (Zlen _ >? 1); [apply IH; assumption|].
    destruct (set_of _) as [|d l]; [reflexivity|].
    apply IH; assumption.
Qed.

(** X10: on a dict, get_pattern_distances raises IndexError as soon as some
    pattern has fewer than two occurrences; when every pattern has two or
    more, it returns a list without repetition that holds exactly the
    periods d such that some pattern's consecutive occurrences are all d
    apart. *)
Theorem get_pattern_distances_periods (patterns : table) :
  NoDup (keys patterns) ->
  (Exists (fun kv => Zlen (snd kv) <= 1) patterns ->
   get_pattern_distances patterns = Raise IndexError)
  /\ (Forall (fun kv => 2 <= Zlen (snd kv)) patterns ->
      exists ds,
        get_pattern_distances patterns = Ok ds
        /\ NoDup ds
        /\ forall d, In d ds
                     <-> exists k v, In (k, v) patterns
                                     /\ constant_spacing v d).
Proof.
  intros Hnd. split.
  - intros Hex. unfold get_pattern_distances.
    rewrite pattern_distances_loop_short; [reflexivity | apply incl_refl|].
    apply Exists_exists in Hex. destruct Hex as ([k v] & Hin & Hl).
    apply Exists_exists. exists k. split; [exact (In_keys _ _ _ Hin)|].
    exists v. split; [apply In_dict_get; assumption | exact Hl].
  - intros Hall. unfold get_pattern_distances.
    destruct (pattern_distances_loop_ok patterns (keys patterns) []) as
      (ps & Hrun & Hps).
    { apply Forall_forall. intros k Hk. apply dict_get_keys in Hk.
      destruct Hk as [v Hv]. exists v. split; [exact Hv|].
      rewrite Forall_forall in Hall.
      exact (Hall _ (dict_get_In _ _ _ Hv)). }
    rewrite Hrun. cbn [bind app]. exists (set_of ps).
    split; [reflexivity|]. split; [apply NoDup_set_of|].
    intros d. rewrite In_set_of, Hps. rewrite Forall_forall in Hall. split.
    + intros (k & v & Hk & Hv & Hd). exists k, v.
      pose proof (dict_get_In _ _ _ Hv) as Hin. split; [exact Hin|].
      apply deltas_of_singleton; [exact (Hall _ Hin) | exact Hd].
    + intros (k & v & Hin & Hd). exists k, v.
      split; [exact (In_keys _ _ _ Hin)|].
      split; [apply In_dict_get; assumption|].
      apply deltas_of_singleton; [exact (Hall _ Hin) | exact Hd].
Qed.

Lemma get_pattern_distances_periods_witness :
  (Exists (fun kv => Zlen (snd kv) <= 1)
     [(lit "abc", [0; 5]); (lit "xyz", [7])] ->
   get_pattern_distances [(lit "abc", [0; 5]); (lit "xyz", [7])]
   = Raise IndexError)
  /\ (Forall (fun kv => 2 <= Zlen (snd kv))
        [(lit "abc", [0; 5]); (lit "xyz", [7])] ->
      exists ds,
        get_pattern_distances [(lit "abc", [0; 5]); (lit "xyz", [7])] = Ok ds
        /\ NoDup ds
        /\ forall d, In d ds
                     <-> exists k v,
                           In (k, v) [(lit "abc", [0; 5]); (lit "xyz", [7])]
                           /\ constant_spacing v d).
Proof.
  apply (get_pattern_distances_periods
           [(lit "abc", [0; 5]); (lit "xyz", [7])]).
  repeat constructor; simpl; intuition discriminate.
Defined.

(** X11: when vigenere_kasiski_test returns, its list descends strictly and
    holds exactly the common divisors of the periods found (the numbers k
    with 1 <= k <= d that divide d, for every period d); there is at least
    one period. *)
Theorem vigenere_kasiski_test_common_divisors (fuel : nat) (crypt_text : str)
  (minimum_pattern_length maximum_pattern_length : Z) (l : list Z) :
  vigenere_kasiski_test fuel crypt_text minimum_pattern_length
    maximum_pattern_length = Ok l ->
  exists p q ds,
    maximize_patterns fuel crypt_text
      (initialize_patterns crypt_text minimum_pattern_length)
      maximum_pattern_length = Ok p
    /\ remove_redundant_patterns p = Ok q
    /\ get_pattern_distances q = Ok ds
    /\ ds <> []
    /\ StronglySorted Z.gt l
    /\ forall k, In k l <-> forall d, In d ds -> 1 <= k <= d /\ (k | d).
Proof.
  unfold vigenere_kasiski_test. intros H.
  destruct (maximize_patterns fuel crypt_text _ _) as [p| |] eqn:Hp;
    try discriminate. cbn [bind] in H.
  destruct (remove_redundant_patterns p) as [q| |] eqn:Hq;
    try discriminate.
  cbn [bind] in H.
  destruct (get_pattern_distances q) as [ds| |] eqn:Hdist; try discriminate.
  cbn [bind] in H.
  exists p, q, ds.
  split; [reflexivity|]. split; [exact Hq|]. split; [exact Hdist|].
  destruct (map get_factors (set_of ds)) as [|first others] eqn:E;
    [discriminate|].
  inversion H. subst l. clear H.
  assert (Hfs : forall f, In f (first :: others)
                          <-> exists d, In d ds /\ f = get_factors d).
  { intros f. rewrite <- E, in_map_iff. split.
    - intros (d & <- & Hd). apply (proj1 (In_set_of _ _)) in Hd.
      exists d. split; [exact Hd | reflexivity].
    - intros (d & Hd & ->). exists d. split; [reflexivity|].
      apply In_set_of. exact Hd. }
  split.
  { intros Hds. rewrite Hds in E. discriminate E. }
  split.
  { apply sorted_desc_strict. apply NoDup_fold_set_inter.
    destruct (proj1 (Hfs first) (or_introl eq_refl)) as (d & _ & ->).
    apply get_factors_NoDup. }
  intros k. rewrite In_sorted_desc, In_fold_set_inter.
  assert (Hdiv : forall d, In k (get_factors d) <-> 1 <= k <= d /\ (k | d)).
  { intros d. unfold get_factors.
    rewrite filter_In, In_range1, Z.eqb_eq. split; intros [H1 H2];
      (split; [exact H1|]); apply Z.mod_divide; try lia; exact H2. }
  split.
  - intros [H1 H2] d Hd. apply Hdiv.
    assert (Hin : In (get_factors d) (first :: others))
      by (apply Hfs; eauto).
    destruct Hin as [<-|Hin]; [exact H1 | exact (H2 _ Hin)].
  - intros Hall. split.
    + destruct (proj1 (Hfs first) (or_introl eq_refl)) as (d & Hd & ->).
      apply Hdiv. exact (Hall d Hd).
    + intros o Ho.
      destruct (proj1 (Hfs o) (or_intror Ho)) as (d & Hd & ->).
      apply Hdiv. exact (Hall d Hd).
Qed.

Lemma vigenere_kasiski_test_common_divisors_witness :
  exists p q ds,
    maximize_patterns 4 (lit "csastpkvsiqutgqucsastpiuaqjb")
      (initialize_patterns (lit "csastpkvsiqutgqucsastpiuaqjb") 3) 6 = Ok p
    /\ remove_redundant_patterns p = Ok q
    /\ get_pattern_distances q = Ok ds
    /\ ds <> []
    /\ StronglySorted Z.gt [16; 8; 4; 2; 1]
    /\ forall k, In k [16; 8; 4; 2; 1]
                 <-> forall d, In d ds -> 1 <= k <= d /\ (k | d).
Proof.
  apply (vigenere_kasiski_test_common_divisors 4
           (lit "csastpkvsiqutgqucsastpiuaqjb") 3 6).
  vm_compute. reflexivity.
Defined.

End Distances.

(** ** Occurrences and the initial table *)

Section Occurrences.

Variable text : str.

(** An occurrence at [e] cuts the text into what is before it, the pattern
    and what is after it. *)
Lemma occurs_at_split (pattern : str) (e : Z) :
  occurs_at text pattern e
  <-> exists pre post, text = pre ++ pattern ++ post /\ Zlen pre = e.
Proof.
  unfold occurs_at. split.
  - intros (H0 & H1 & H2). rewrite slice_nonneg in H2 by (pose proof (Zlen_nonneg pattern); lia).
    exists (firstn (Z.to_nat e) text),
           (skipn (Z.to_nat (e + Zlen pattern - e)) (skipn (Z.to_nat e) text)).
    split.
    + rewrite <- H2 at 1. rewrite firstn_skipn, firstn_skipn. reflexivity.
    + pose proof (Zlen_nonneg pattern). unfold Zlen in *.
      rewrite length_firstn. lia.
  - intros (pre & post & -> & <-). unfold Zlen.
    split; [lia|]. split; [rewrite !length_app; lia|].
    fold (Zlen pre). fold (Zlen pattern).
    rewrite slice_nonneg by (pose proof (Zlen_nonneg pattern);
                              pose proof (Zlen_nonneg pre); lia).
    unfold Zlen.
    replace (Z.to_nat (Z.of_nat (length pre) + Z.of_nat (length pattern)
                       - Z.of_nat (length pre)))
      with (length pattern) by lia.
    rewrite Nat2Z.id, skipn_app, skipn_all, Nat.sub_diag. cbn [skipn app].
    rewrite firstn_app, firstn_all, Nat.sub_diag. cbn [firstn].
    apply app_nil_r.
Qed.

(** X9: find_matches keeps the candidates in their order and returns, among
    the candidates that are not negative, exactly the indices e at which
    the pattern stands in the text: text = pre + pattern + post with
    len(pre) = e.  An occurrence never runs past the end of the text. *)
Theorem find_matches_occurrences (pattern : str) (cands : list Z) :
  subseq (find_matches text pattern cands) cands
  /\ forall e,
       0 <= e ->
       (In e (find_matches text pattern cands)
        <-> In e cands
            /\ exists pre post, text = pre ++ pattern ++ post /\ Zlen pre = e).
Proof.
  split; [apply subseq_filter|].
  intros e He. rewrite find_matches_In, <- occurs_at_split.
  unfold occurs_at. tauto.
Qed.

End Occurrences.

Lemma find_matches_occurrences_witness :
  In 3 (find_matches (lit "abcabc") (lit "abc") [0; 1; 3])
  <-> In 3 [0; 1; 3]
      /\ exists pre post,
           lit "abcabc" = pre ++ lit "abc" ++ post /\ Zlen pre = 3.
Proof.
  destruct (find_matches_occurrences (lit "abcabc") (lit "abc") [0; 1; 3])
    as [_ H].
  apply H. lia.
Defined.

Section ShortText.

(** X12: on an empty text, and on a text shorter than the minimum pattern
    length, initialize_patterns returns the empty table; and whenever the
    initial table is empty, vigenere_kasiski_test raises IndexError. *)
Theorem initialize_patterns_short_text (crypt_text : str)
  (minimum_pattern_length maximum_pattern_length : Z) :
  (crypt_text = [] \/ Zlen crypt_text < minimum_pattern_length ->
   initialize_patterns crypt_text minimum_pattern_length = [])
  /\ (initialize_patterns crypt_text minimum_pattern_length = [] ->
      forall fuel,
        vigenere_kasiski_test (S fuel) crypt_text minimum_pattern_length
          maximum_pattern_length = Raise IndexError).
Proof.
  split.
  - intros [->|H]; [reflexivity|].
    unfold initialize_patterns. destruct crypt_text as [|c t]; [reflexivity|].
    cbn [length seq collect_patterns]. change (Z.of_nat 0) with 0.
    replace (0 + minimum_pattern_length >? Zlen (c :: t)) with true;
      [reflexivity|].
    symmetry. rewrite Z.gtb_ltb. apply Z.ltb_lt. lia.
  - intros H fuel. unfold vigenere_kasiski_test. rewrite H. reflexivity.
Qed.

Lemma initialize_patterns_short_text_witness :
  initialize_patterns (lit "ab") 3 = []
  /\ vigenere_kasiski_test 1 (lit "ab") 3 6 = Raise IndexError.
Proof.
  destruct (initialize_patterns_short_text (lit "ab") 3 6) as [H1 H2].
  assert (H : initialize_patterns (lit "ab") 3 = []).
  { apply H1. right. vm_compute. reflexivity. }
  split; [exact H|]. apply H2. exact H.
Defined.

End ShortText.

Section InitializeExact.

Variable text : str.
Variable m : Z.

(** Every index visited by the first loop is recorded under its pattern. *)
Lemma collect_patterns_complete :
  forall len start t,
    (forall e, 0 <= e < Z.of_nat start -> e + m <= Zlen text ->
               exists v, dict_get t (slice text e (e + m)) = Some v /\ In e v) ->
    forall e, 0 <= e < Z.of_nat (start + len) -> e + m <= Zlen text ->
              exists v,
                dict_get (collect_patterns text m (seq start len) t)
                  (slice text e (e + m)) = Some v
                /\ In e v.
Proof.
  induction len as [|len IH]; intros start t Ht e He Hm.
  - apply Ht; [lia | exact Hm].
  - cbn [seq collect_patterns].
    destruct (Z.of_nat start + m >? Zlen text) eqn:E.
    + rewrite Z.gtb_ltb in E. apply Z.ltb_lt in E. apply Ht; lia.
    + rewrite Z.gtb_ltb in E. apply Z.ltb_ge in E.
      set (cur := slice text (Z.of_nat start) (Z.of_nat start + m)).
      assert (Hstep : forall w,
                 (forall v, dict_get t cur = Some v -> incl v w) ->
                 In (Z.of_nat start) w ->
                 forall e', 0 <= e' < Z.of_nat (S start) ->
                            e' + m <= Zlen text ->
                            exists v,
                              dict_get (dict_set t cur w)
                                (slice text e' (e' + m)) = Some v
                              /\ In e' v).
      { intros w Hw Hin e' He' Hm'. rewrite dict_get_set.
        destruct (str_eqb cur (slice text e' (e' + m))) eqn:Eq.
        - exists w. split; [reflexivity|].
          destruct (Z.eq_dec e' (Z.of_nat start)) as [->|Hne]; [exact Hin|].
          destruct (Ht e') as (v & Hv & Hev); [lia | exact Hm' |].
          apply str_eqb_eq in Eq. rewrite <- Eq in Hv.
          exact (Hw v Hv e' Hev).
        - destruct (Z.eq_dec e' (Z.of_nat start)) as [->|Hne].
          + unfold cur in Eq. rewrite str_eqb_refl in Eq. discriminate.
          + apply Ht; [lia | exact Hm']. }
      destruct (dict_get t cur) as [v|] eqn:G.
      * apply (IH (S start)); [|lia | exact Hm].
        apply Hstep.
        -- intros v' Hv'. inversion Hv'. subst. apply incl_appl, incl_refl.
        -- apply in_or_app. right. left. reflexivity.
      * apply (IH (S start)); [|lia | exact Hm].
        apply Hstep.
        -- intros v' Hv'. discriminate.
        -- left. reflexivity.
Qed.

Lemma In_keys_insert_by_count (x : str * list Z) (k : str) (l : table) :
  In k (keys (insert_by_count x l)) <-> k = fst x \/ In k (keys l).
Proof.
  unfold keys. rewrite in_map_iff. split.
  - intros (e & <- & He). apply In_insert_by_count in He.
    destruct He as [->|He]; [left; reflexivity|].
    right. apply in_map. exact He.
  - intros [->|H].
    + exists x. split; [reflexivity|]. apply In_insert_by_count. auto.
    + apply in_map_iff in H. destruct H as (e & <- & He).
      exists e. split; [reflexivity|]. apply In_insert_by_count. auto.
Qed.

Lemma NoDup_keys_insert_by_count (x : str * list Z) (l : table) :
  ~ In (fst x) (keys l) -> NoDup (keys l) ->
  NoDup (keys (insert_by_count x l)).
Proof.
  induction l as [|y l IH]; intros Hx Hnd; simpl.
  - constructor; [intros [] | constructor].
  - destruct (Zlen (snd y) >? Zlen (snd x)).
    + cbn [keys map]. fold (keys (insert_by_count x l)).
      inversion Hnd as [|? ? Hy Hnd']. subst. constructor.
      * rewrite In_keys_insert_by_count. intros [H|H].
        -- apply Hx. left. exact H.
        -- exact (Hy H).
      * apply IH; [|exact Hnd']. intros H. apply Hx. right. exact H.
    + cbn [keys map]. constructor; assumption.
Qed.

Lemma NoDup_keys_sort_by_count (l : table) :
  NoDup (keys l) -> NoDup (keys (sort_by_count l)).
Proof.
  induction l as [|x l IH]; intros Hnd; [constructor|].
  inversion Hnd as [|? ? Hx Hnd']. subst. cbn [sort_by_count fold_right].
  apply NoDup_keys_insert_by_count; [|apply IH; exact Hnd'].
  intros H. apply Hx. unfold keys in *. apply in_map_iff in H.
  destruct H as (e & He1 & He2). apply (proj1 (In_sort_by_count _ _)) in He2.
  rewrite <- He1. apply in_map. exact He2.
Qed.

(** The sort puts longer occurrence lists first. *)
Lemma sort_by_count_sorted (l : table) :
  StronglySorted (fun x y => Zlen (snd y) <= Zlen (snd x)) (sort_by_count l).
Proof.
  induction l as [|x l IH]; [constructor|].
  cbn [sort_by_count fold_right]. fold (sort_by_count l).
  induction IH as [|y s Hs IHs Hy]; simpl.
  - constructor; constructor.
  - destruct (Zlen (snd y) >? Zlen (snd x)) eqn:E.
    + rewrite Z.gtb_ltb in E. apply Z.ltb_lt in E.
      constructor; [exact IHs|].
      apply Forall_forall. intros z Hz. apply In_insert_by_count in Hz.
      destruct Hz as [->|Hz]; [lia|].
      rewrite Forall_forall in Hy. exact (Hy z Hz).
    + rewrite Z.gtb_ltb in E. apply Z.ltb_ge in E.
      constructor; [constructor; assumption|].
      constructor; [exact E|].
      rewrite Forall_forall in *. intros z Hz. specialize (Hy z Hz). lia.
Qed.

Lemma keep_repeated_get_other (P : str) :
  forall l acc,
    ~ In P (keys l) ->
    dict_get (keep_repeated l acc) P = dict_get acc P.
Proof.
  induction l as [|[k v] l IH]; intros acc HP; [reflexivity|].
  cbn [keep_repeated fst snd].
  destruct (Zlen v <=? 1); [reflexivity|].
  rewrite IH by (intros H; apply HP; right; exact H).
  rewrite dict_get_set.
  destruct (str_eqb k P) eqn:E; [|reflexivity].
  apply str_eqb_eq in E. subst. exfalso. apply HP. left. reflexivity.
Qed.

(** On a list sorted by count, every entry with two or more occurrences
    is copied. *)
Lemma keep_repeated_get (P : str) (v : list Z) :
  forall l acc,
    StronglySorted (fun x y => Zlen (snd y) <= Zlen (snd x)) l ->
    NoDup (keys l) -> In (P, v) l -> 2 <= Zlen v ->
    dict_get (keep_repeated l acc) P = Some v.
Proof.
  induction l as [|[k w] l IH]; intros acc Hs Hnd Hin Hlen; [destruct Hin|].
  inversion Hs as [|? ? Hs' Hall]. subst.
  inversion Hnd as [|? ? Hk Hnd']. subst.
  cbn [keep_repeated fst snd].
  assert (Hw : 2 <= Zlen w).
  { destruct Hin as [H|H]; [inversion H; subst; exact Hlen|].
    rewrite Forall_forall in Hall. specialize (Hall _ H). simpl in Hall. lia. }
  destruct (Zlen w <=? 1) eqn:E; [apply Z.leb_le in E; lia|].
  destruct Hin as [H|H].
  - inversion H. subst. rewrite keep_repeated_get_other by exact Hk.
    rewrite dict_get_set, str_eqb_refl. reflexivity.
  - apply IH; assumption.
Qed.

Lemma two_members_length (v : list Z) (e1 e2 : Z) :
  In e1 v -> In e2 v -> e1 <> e2 -> 2 <= Zlen v.
Proof.
  destruct v as [|a [|b v]]; unfold Zlen; simpl; [tauto | | lia].
  intros [<-|[]] [<-|[]]. congruence.
Qed.

(** Every pattern of length m that occurs at two different indices is a key
    of the initial table, with all of its occurrences. *)
Lemma initialize_patterns_complete (P : str) (e1 e2 : Z) :
  1 <= m -> Zlen P = m ->
  occurs_at text P e1 -> occurs_at text P e2 -> e1 <> e2 ->
  exists occ,
    dict_get (initialize_patterns text m) P = Some occ
    /\ forall e, occurs_at text P e -> In e occ.
Proof.
  intros Hm HP H1 H2 Hne.
  set (C := collect_patterns text m (seq 0 (length text)) []).
  assert (HndC : NoDup (keys C))
    by (apply collect_patterns_NoDup; constructor).
  assert (Hcomplete : forall e, occurs_at text P e ->
                        exists v, dict_get C P = Some v /\ In e v).
  { intros e (H0 & H1' & H2'). rewrite HP in *. rewrite <- H2'.
    apply collect_patterns_complete; [intros e' He'; lia | | exact H1'].
    unfold Zlen in *. lia. }
  destruct (Hcomplete e1 H1) as (v & Hget & Hev1).
  destruct (Hcomplete e2 H2) as (v' & Hget' & Hev2).
  rewrite Hget in Hget'. inversion Hget'. subst v'.
  exists v. split.
  - unfold initialize_patterns. fold C. apply keep_repeated_get.
    + apply sort_by_count_sorted.
    + apply NoDup_keys_sort_by_count. exact HndC.
    + apply In_sort_by_count. apply dict_get_In. exact Hget.
    + exact (two_members_length v e1 e2 Hev1 Hev2 Hne).
  - intros e He. destruct (Hcomplete e He) as (w & Hw & Hew).
    rewrite Hget in Hw. inversion Hw. subst. exact Hew.
Qed.

(** A strictly ascending list of two or more indices has two different
    members. *)
Lemma ascending_two_members (v : list Z) :
  2 <= Zlen v -> Sorted Z.lt v ->
  exists e1 e2, In e1 v /\ In e2 v /\ e1 <> e2.
Proof.
  destruct v as [|a [|b v]]; unfold Zlen; simpl; try lia.
  intros _ Hs. exists a, b. split; [auto|]. split; [auto|].
  inversion Hs as [|? ? _ Hhd]. inversion Hhd. subst. lia.
Qed.

(** X13: for a minimum pattern length m >= 1, initialize_patterns builds
    exactly the table of the repeated patterns of length m: a pattern is a
    key if and only if it has length m and occurs at two different indices,
    and its list holds all of its occurrences, in strictly ascending
    order. *)
Theorem initialize_patterns_exact (P : str) :
  1 <= m ->
  match dict_get (initialize_patterns text m) P with
  | Some occ =>
      Zlen P = m /\ 2 <= Zlen occ /\ Sorted Z.lt occ
      /\ forall e, In e occ <-> occurs_at text P e
  | None =>
      Zlen P <> m
      \/ forall e1 e2, occurs_at text P e1 -> occurs_at text P e2 -> e1 = e2
  end.
Proof.
  intros Hm.
  destruct (initialize_patterns_seeded text m ltac:(lia)) as (Hnd & Hv & Hl).
  pose proof (initialize_patterns_repeated_ascending text m) as Hra.
  destruct (dict_get (initialize_patterns text m) P) as [occ|] eqn:G.
  - pose proof (dict_get_In _ _ _ G) as Hin.
    rewrite Forall_forall in Hl, Hra.
    pose proof (Hl _ Hin) as HP. destruct (Hra _ Hin) as [Hlen Hsorted].
    cbn [fst snd] in *.
    split; [exact HP|]. split; [exact Hlen|]. split; [exact Hsorted|].
    assert (Hval : forall e, In e occ -> occurs_at text P e)
      by (intros e He; exact (valid_table_entry text _ P occ e Hv Hin He)).
    intros e. split; [apply Hval|]. intros He.
    destruct (ascending_two_members occ Hlen Hsorted) as (e1 & e2 & H1 & H2 & Hne).
    destruct (initialize_patterns_complete P e1 e2 Hm HP (Hval _ H1)
                (Hval _ H2) Hne) as (occ' & Hget & Hall).
    rewrite G in Hget. inversion Hget. subst. exact (Hall e He).
  - destruct (Z.eq_dec (Zlen P) m) as [HP|HP]; [right | left; exact HP].
    intros e1 e2 H1 H2. destruct (Z.eq_dec e1 e2) as [|Hne]; [assumption|].
    exfalso.
    destruct (initialize_patterns_complete P e1 e2 Hm HP H1 H2 Hne)
      as (occ & Hget & _).
    congruence.
Qed.

End InitializeExact.

Lemma initialize_patterns_exact_witness :
  match dict_get (initialize_patterns (lit "abcdxabcdy") 3) (lit "bcd") with
  | Some occ =>
      Zlen (lit "bcd") = 3 /\ 2 <= Zlen occ /\ Sorted Z.lt occ
      /\ forall e, In e occ <-> occurs_at (lit "abcdxabcdy") (lit "bcd") e
  | None =>
      Zlen (lit "bcd") <> 3
      \/ forall e1 e2,
           occurs_at (lit "abcdxabcdy") (lit "bcd") e1 ->
           occurs_at (lit "abcdxabcdy") (lit "bcd") e2 -> e1 = e2
  end.
Proof.
  apply (initialize_patterns_exact (lit "abcdxabcdy") 3 (lit "bcd")). lia.
Defined.

(** ** The recursion of maximize_patterns *)

Section MaximizeDepth.

Variable text : str.
Variable max : Z.

Lemma seeded_key_length (L : Z) (t : table) (K : str) :
  seeded text L t -> In K (keys t) -> Zlen K = L.
Proof.
  intros (_ & _ & Hl) HK. unfold keys in HK. apply in_map_iff in HK.
  destruct HK as ([K' v] & <- & HK). rewrite Forall_forall in Hl.
  exact (Hl _ HK).
Qed.

(** A round on a table of patterns of length [L] registers patterns of
    length [L + 1] only, or leaves a stuck table. *)
Lemma extend_seeded_or_stuck (L : Z) (t : table) :
  seeded text L t ->
  seeded text (L + 1) (fst (extend_patterns text t max))
  \/ stuck text max (fst (extend_patterns text t max)).
Proof.
  intros Hseed. pose proof Hseed as (Hnd & Hv & _).
  set (new := fst (extend_patterns text t max)).
  assert (Hshape : forall Q v, In (Q, v) new ->
             Zlen Q = L + 1
             \/ exists occ, In (Q, occ) t /\ v = occ
                            /\ In (Zlen text - Zlen Q) occ
                            /\ Zlen Q = L /\ Zlen Q + 1 <= max /\ 1 < Zlen v).
  { intros Q v HQ.
    destruct (extend_patterns_In_shape text max t Q v Hv HQ)
      as (P & occ & i & HP & Hmax & Hi & Hval & Hl & [(Hlq & _)|(Hend & Heq)]).
    - left. rewrite Hlq, (seeded_key_length L t P Hseed (In_keys _ _ _ HP)).
      reflexivity.
    - right. subst Q. exists occ.
      assert (Hall : Forall (occurs_at text P) occ).
      { unfold valid_table in Hv. rewrite Forall_forall in Hv.
        exact (Hv _ HP). }
      rewrite find_matches_valid in Hval by exact Hall.
      split; [exact HP|]. split; [exact Hval|].
      split; [replace (Zlen text - Zlen P) with i by lia; exact Hi|].
      split; [exact (seeded_key_length L t P Hseed (In_keys _ _ _ HP))|].
      split; [exact Hmax | exact Hl]. }
  destruct (Forall_Exists_dec (fun kv : str * list Z => Zlen (fst kv) = L + 1)
              (fun kv => Z.eq_dec (Zlen (fst kv)) (L + 1)) new) as [Hall|Hex].
  - left. split; [apply extend_patterns_NoDup|].
    split; [apply extend_patterns_valid; exact Hv | exact Hall].
  - right. apply Exists_exists in Hex. destruct Hex as ([Q v] & HQ & Hne).
    cbn [fst] in Hne.
    destruct (Hshape Q v HQ) as [H|(occ & HP & -> & Hin & HlQ & Hmax & Hl)];
      [contradiction|].
    split; [apply extend_patterns_NoDup|].
    split; [apply extend_patterns_valid; exact Hv|].
    exists Q, occ.
    split; [apply In_dict_get; [apply extend_patterns_NoDup | exact HQ]|].
    split; [exact Hin|]. split; [exact Hmax|]. split; [exact Hl|].
    intros K HK. apply dict_get_keys in HK. destruct HK as [w Hw].
    destruct (Hshape K w (dict_get_In _ _ _ Hw)) as [H|(_ & _ & _ & _ & H & _)];
      lia.
Qed.

(** A round that registers something had room below the maximum length. *)
Lemma extend_changed_room (L : Z) (t : table) :
  seeded text L t ->
  snd (extend_patterns text t max) = true -> L + 1 <= max.
Proof.
  intros Hseed Hc. apply extend_patterns_changed in Hc.
  pose proof (extend_patterns_provenance text max t) as Hp.
  destruct (fst (extend_patterns text t max)) as [|kv new]; [congruence|].
  inversion Hp as [|? ? (P & occ & i & HP & Hmax & _) _]. subst.
  rewrite <- (seeded_key_length L t P Hseed (In_keys _ _ _ HP)). exact Hmax.
Qed.

(** X14: on an initial table of patterns of length L, maximize_patterns
    either returns within a recursion depth of max(0, maximum - L) + 1, or
    returns for no recursion depth at all; between the two nothing else
    happens. *)
Theorem maximize_patterns_depth (L : Z) (patterns : table) :
  seeded text L patterns ->
  (exists R, forall fuel,
      (Z.to_nat (max - L) + 1 <= fuel)%nat ->
      maximize_patterns fuel text patterns max = Ok R)
  \/ (forall fuel, maximize_patterns fuel text patterns max = OutOfFuel).
Proof.
  remember (Z.to_nat (max - L)) as n eqn:Hn.
  revert L patterns Hn.
  induction n as [|n IH]; intros L t Hn Hseed.
  - left. exists t. intros [|fuel] Hf; [lia|]. cbn [maximize_patterns].
    destruct (snd (extend_patterns text t max)) eqn:Hc; [|reflexivity].
    pose proof (extend_changed_room L t Hseed Hc). lia.
  - destruct (snd (extend_patterns text t max)) eqn:Hc.
    + destruct (extend_seeded_or_stuck L t Hseed) as [Hnext|Hstuck].
      * destruct (IH (L + 1) _ ltac:(lia) Hnext) as [(R' & HR')|Hdiv].
        -- left. exists (dict_update t R'). intros [|fuel] Hf; [lia|].
           cbn [maximize_patterns]. rewrite Hc, HR' by lia. reflexivity.
        -- right. intros [|fuel]; [reflexivity|].
           cbn [maximize_patterns]. rewrite Hc, Hdiv. reflexivity.
      * right. intros [|fuel]; [reflexivity|].
        cbn [maximize_patterns]. rewrite Hc.
        rewrite (stuck_diverges text max fuel _ Hstuck). reflexivity.
    + left. exists t. intros [|fuel] Hf; [lia|].
      cbn [maximize_patterns]. rewrite Hc. reflexivity.
Qed.

Lemma In_keys_dict_set (d : table) (k k' : str) (v : list Z) :
  In k' (keys (dict_set d k v)) <-> k' = k \/ In k' (keys d).
Proof.
  rewrite !dict_get_keys. split.
  - intros [w Hw]. rewrite dict_get_set in Hw.
    destruct (str_eqb k k') eqn:E.
    + left. apply str_eqb_eq in E. auto.
    + right. eauto.
  - intros [->|[w Hw]]; rewrite dict_get_set.
    + rewrite str_eqb_refl. eauto.
    + destruct (str_eqb k k'); eauto.
Qed.

Lemma In_keys_dict_update (p r : table) (k : str) :
  In k (keys (dict_update p r)) -> In k (keys p) \/ In k (keys r).
Proof.
  unfold dict_update. revert p.
  induction r as [|[k0 v0] r IH]; intros p H; simpl in *; [auto|].
  destruct (IH _ H) as [H'|H']; [|auto].
  apply In_keys_dict_set in H'. destruct H' as [->|H']; auto.
Qed.

Lemma maximize_patterns_valid (fuel : nat) :
  forall t R,
    valid_table text t ->
    maximize_patterns fuel text t max = Ok R -> valid_table text R.
Proof.
  induction fuel as [|fuel IH]; intros t R Hv H; [discriminate|].
  cbn [maximize_patterns] in H.
  destruct (snd (extend_patterns text t max)).
  - destruct (maximize_patterns fuel text _ max) as [R'| |] eqn:E;
      try discriminate.
    cbn [bind] in H. inversion H. subst R.
    apply Forall_dict_update; [exact Hv|].
    exact (IH _ _ (extend_patterns_valid text max t Hv) E).
  - inversion H. subst. exact Hv.
Qed.

(** Apart from the keys it was given, the returned table has no key longer
    than the maximum. *)
Lemma maximize_patterns_key_bound (fuel : nat) :
  forall t R,
    valid_table text t ->
    maximize_patterns fuel text t max = Ok R ->
    forall K, In K (keys R) -> In K (keys t) \/ Zlen K <= max.
Proof.
  induction fuel as [|fuel IH]; intros t R Hv H K HK; [discriminate|].
  cbn [maximize_patterns] in H.
  destruct (snd (extend_patterns text t max)).
  - destruct (maximize_patterns fuel text _ max) as [R'| |] eqn:E;
      try discriminate.
    cbn [bind] in H. inversion H. subst R.
    destruct (In_keys_dict_update _ _ _ HK) as [H1|H1]; [auto|].
    right.
    destruct (IH _ _ (extend_patterns_valid text max t Hv) E K H1)
      as [H2|H2]; [|exact H2].
    apply dict_get_keys in H2. destruct H2 as [w Hw].
    pose proof (extend_patterns_provenance text max t) as Hp.
    rewrite Forall_forall in Hp.
    destruct (Hp _ (dict_get_In _ _ _ Hw))
      as (P & occ & i & HP & Hmax & Hi & HQ & _).
    cbn [fst] in HQ. rewrite HQ.
    destruct (valid_table_entry text t P occ i Hv HP Hi) as (H0 & _).
    pose proof (Zlen_nonneg P).
    pose proof (Zlen_slice_le text i (i + (Zlen P + 1)) ltac:(lia)). lia.
  - inversion H. subst. auto.
Qed.

(** X15: what maximize_patterns returns for an initial table of patterns of
    length L is a dict whose lists hold occurrences only, whose patterns
    have lengths from L to the maximum pattern length, and in which every
    pattern of length L has the list it had in the initial table. *)
Theorem maximize_patterns_sound (L : Z) (patterns : table) (fuel : nat)
  (R : table) :
  seeded text L patterns ->
  maximize_patterns fuel text patterns max = Ok R ->
  NoDup (keys R)
  /\ valid_table text R
  /\ (forall K, In K (keys R) -> L <= Zlen K <= Z.max L max)
  /\ (forall K, Zlen K = L -> dict_get R K = dict_get patterns K).
Proof.
  intros Hseed Hrun. pose proof Hseed as (_ & Hv & _).
  destruct (maximize_patterns_levels text max fuel patterns L R Hseed Hrun)
    as (Hnd & Hsame & Hge & _).
  split; [exact Hnd|]. split; [exact (maximize_patterns_valid fuel _ _ Hv Hrun)|].
  split; [|exact Hsame].
  intros K HK. split; [exact (Hge K HK)|].
  destruct (maximize_patterns_key_bound fuel _ _ Hv Hrun K HK) as [H|H].
  - rewrite (seeded_key_length L patterns K Hseed H). lia.
  - lia.
Qed.

End MaximizeDepth.

Lemma maximize_patterns_depth_witness :
  (exists R, forall fuel,
      (Z.to_nat (6 - 3) + 1 <= fuel)%nat ->
      maximize_patterns fuel (lit "abcdxabcdy")
        (initialize_patterns (lit "abcdxabcdy") 3) 6 = Ok R)
  \/ (forall fuel,
        maximize_patterns fuel (lit "abcdxabcdy")
          (initialize_patterns (lit "abcdxabcdy") 3) 6 = OutOfFuel).
Proof.
  apply (maximize_patterns_depth (lit "abcdxabcdy") 6 3).
  apply initialize_patterns_seeded. lia.
Defined.

Lemma maximize_patterns_sound_witness :
  NoDup (keys [(lit "abc", [0; 5]); (lit "bcd", [1; 6]); (lit "abcd", [0; 5])])
  /\ valid_table (lit "abcdxabcdy")
       [(lit "abc", [0; 5]); (lit "bcd", [1; 6]); (lit "abcd", [0; 5])]
  /\ (forall K,
        In K (keys [(lit "abc", [0; 5]); (lit "bcd", [1; 6]);
                    (lit "abcd", [0; 5])]) ->
        3 <= Zlen K <= Z.max 3 6)
  /\ (forall K,
        Zlen K = 3 ->
        dict_get [(lit "abc", [0; 5]); (lit "bcd", [1; 6]);
                  (lit "abcd", [0; 5])] K
        = dict_get (initialize_patterns (lit "abcdxabcdy") 3) K).
Proof.
  apply (maximize_patterns_sound (lit "abcdxabcdy") 6 3
           (initialize_patterns (lit "abcdxabcdy") 3) 3).
  - apply initialize_patterns_seeded. lia.
  - vm_compute. reflexivity.
Defined.

Section MaximizeComplete.

Variable text : str.
Variable max : Z.

Lemma Zlen_firstn (P : str) (k : nat) :
  (k <= length P)%nat -> Zlen (firstn k P) = Z.of_nat k.
Proof.
  intros H. unfold Zlen. rewrite length_firstn. lia.
Qed.

(** A pattern that occurs at [e] has each of its prefixes occur at [e]. *)
Lemma occurs_at_prefix (P : str) (e : Z) (k : nat) :
  occurs_at text P e -> occurs_at text (firstn k P) e.
Proof.
  intros H. apply occurs_at_split in H. destruct H as (pre & post & Ht & He).
  apply occurs_at_split. exists pre, (skipn k P ++ post).
  split; [|exact He].
  rewrite Ht. rewrite (app_assoc (firstn k P)), firstn_skipn. reflexivity.
Qed.

Lemma removelast_as_firstn (Q : str) (L : Z) :
  Zlen Q = L + 1 -> 0 <= L ->
  removelast Q = firstn (Z.to_nat L) Q /\ Zlen (removelast Q) = L.
Proof.
  intros HQ HL. rewrite removelast_firstn_len.
  assert (E : pred (length Q) = Z.to_nat L) by (unfold Zlen in HQ; lia).
  rewrite E. split; [reflexivity|].
  rewrite Zlen_firstn by (unfold Zlen in HQ; lia). lia.
Qed.

(** From a complete table of the patterns of length [L], a round builds the
    complete table of the patterns of length [L + 1]. *)
Lemma extend_patterns_complete (L : Z) (t : table) :
  0 <= L -> seeded text L t -> complete_table text L t -> L + 1 <= max ->
  complete_table text (L + 1) (fst (extend_patterns text t max)).
Proof.
  intros HL Hseed Hcomp Hmax Q e1 e2 HQ H1 H2 Hne.
  pose proof Hseed as (Hnd & Hv & _).
  destruct (removelast_as_firstn Q L HQ HL) as [Hrl HlP].
  assert (Hpre : forall e, occurs_at text Q e ->
                           occurs_at text (removelast Q) e).
  { intros e He. rewrite Hrl. apply occurs_at_prefix. exact He. }
  destruct (Hcomp (removelast Q) e1 e2 HlP (Hpre _ H1) (Hpre _ H2) Hne)
    as (occ & Hget & Hall).
  pose proof (dict_get_In _ _ _ Hget) as HP.
  assert (Hm : forall e, occurs_at text Q e ->
                         In e (find_matches text Q occ)).
  { intros e He. apply find_matches_In.
    split; [apply Hall, Hpre; exact He|].
    destruct He as (_ & Ha & Hb). split; assumption. }
  assert (Htent : slice text e1 (e1 + (Zlen (removelast Q) + 1)) = Q).
  { rewrite HlP, <- HQ. destruct H1 as (_ & _ & H). exact H. }
  destruct (extend_patterns_registers text max t (removelast Q) occ e1 HP)
    as [Hkey _].
  - rewrite HlP. exact Hmax.
  - apply Hall, Hpre. exact H1.
  - rewrite Htent.
    pose proof (two_members_length _ e1 e2 (Hm _ H1) (Hm _ H2) Hne). lia.
  - rewrite Htent in Hkey. apply dict_get_keys in Hkey.
    destruct Hkey as [v Hv']. exists v. split; [exact Hv'|].
    destruct (extend_patterns_In_shape text max t Q v Hv (dict_get_In _ _ _ Hv'))
      as (P' & occ' & i' & HP' & _ & _ & Hval & _ & [(_ & Heq)|(_ & Heq)]).
    + subst P'. rewrite (In_dict_get _ _ _ Hnd HP') in Hget.
      inversion Hget. subst occ'. rewrite Hval. exact Hm.
    + exfalso. subst P'.
      pose proof (seeded_key_length text L t Q Hseed (In_keys _ _ _ HP')).
      lia.
Qed.

(** The returned table is complete for every length from [L] to the
    maximum. *)
Lemma maximize_patterns_complete (fuel : nat) :
  forall t L R,
    0 <= L -> seeded text L t -> complete_table text L t ->
    maximize_patterns fuel text t max = Ok R ->
    forall P e1 e2,
      L <= Zlen P <= Z.max L max ->
      occurs_at text P e1 -> occurs_at text P e2 -> e1 <> e2 ->
      exists occ,
        dict_get R P = Some occ /\ forall e, occurs_at text P e -> In e occ.
Proof.
  induction fuel as [|fuel IH]; intros t L R HL Hseed Hcomp Hrun P e1 e2
    HlP H1 H2 Hne; [discriminate|].
  destruct (maximize_patterns_levels text max (S fuel) t L R Hseed Hrun)
    as (_ & Hsame & _ & _).
  destruct (Z.eq_dec (Zlen P) L) as [Heq|Hneq].
  - rewrite (Hsame P Heq). exact (Hcomp P e1 e2 Heq H1 H2 Hne).
  - assert (Hmax : L + 1 <= max) by lia.
    pose proof (extend_patterns_complete L t HL Hseed Hcomp Hmax) as Hcomp'.
    assert (Hc : snd (extend_patterns text t max) = true).
    { apply extend_patterns_changed.
      destruct (Hcomp' (firstn (Z.to_nat (L + 1)) P) e1 e2) as (occ & Hg & _).
      - rewrite Zlen_firstn by (unfold Zlen in *; lia). lia.
      - apply occurs_at_prefix. exact H1.
      - apply occurs_at_prefix. exact H2.
      - exact Hne.
      - intros E. rewrite E in Hg. discriminate. }
    cbn [maximize_patterns] in Hrun. rewrite Hc in Hrun.
    destruct (maximize_patterns fuel text _ max) as [R'| |] eqn:E;
      try discriminate.
    cbn [bind] in Hrun. inversion Hrun. subst R. clear Hrun.
    destruct (extend_seeded_or_stuck text max L t Hseed) as [Hnext|Hstuck];
      [|rewrite (stuck_diverges text max fuel _ Hstuck) in E; discriminate].
    destruct (IH _ (L + 1) R' ltac:(lia) Hnext Hcomp' E P e1 e2
                ltac:(lia) H1 H2 Hne) as (occ & Hg & Hall).
    exists occ. split; [|exact Hall].
    destruct (maximize_patterns_levels text max fuel _ (L + 1) R' Hnext E)
      as (HndR & _).
    rewrite dict_get_update by exact HndR. rewrite Hg. reflexivity.
Qed.

(** X16: when maximize_patterns returns on the table of initialize_patterns
    (minimum pattern length m >= 1), the table holds exactly the repeated
    patterns of the lengths from m to the maximum pattern length: a pattern
    is a key if and only if its length is in that range and it occurs at
    two different indices, and its list holds all of its occurrences in
    strictly ascending order. *)
Theorem maximize_patterns_exact (m : Z) (fuel : nat) (R : table) (P : str) :
  1 <= m ->
  maximize_patterns fuel text (initialize_patterns text m) max = Ok R ->
  match dict_get R P with
  | Some occ =>
      m <= Zlen P <= Z.max m max /\ 2 <= Zlen occ /\ Sorted Z.lt occ
      /\ forall e, In e occ <-> occurs_at text P e
  | None =>
      ~ (m <= Zlen P <= Z.max m max)
      \/ forall e1 e2, occurs_at text P e1 -> occurs_at text P e2 -> e1 = e2
  end.
Proof.
  intros Hm Hrun.
  pose proof (initialize_patterns_seeded text m ltac:(lia)) as Hseed.
  assert (Hcomp : complete_table text m (initialize_patterns text m)).
  { intros Q e1 e2 HQ H1 H2 Hne.
    exact (initialize_patterns_complete text m Q e1 e2 Hm HQ H1 H2 Hne). }
  pose proof (maximize_patterns_complete fuel _ m R ltac:(lia) Hseed Hcomp Hrun)
    as Hall.
  destruct (dict_get R P) as [occ|] eqn:G.
  - pose proof (dict_get_In _ _ _ G) as Hin.
    pose proof Hseed as (_ & Hv & _).
    destruct (maximize_patterns_levels text max fuel _ m R Hseed Hrun)
      as (_ & _ & Hge & _).
    assert (Hbound : m <= Zlen P <= Z.max m max).
    { split; [exact (Hge P (In_keys _ _ _ Hin))|].
      destruct (maximize_patterns_key_bound text max fuel _ _ Hv Hrun P
                  (In_keys _ _ _ Hin)) as [H|H]; [|lia].
      rewrite (seeded_key_length text m _ P Hseed H). lia. }
    pose proof (maximize_patterns_repeated_ascending text max fuel _ R
                  (initialize_patterns_repeated_ascending text m) Hrun) as Hra.
    rewrite Forall_forall in Hra. destruct (Hra _ Hin) as [Hlen Hs].
    cbn [snd] in *.
    assert (Hval : forall e, In e occ -> occurs_at text P e).
    { intros e He.
      exact (valid_table_entry text R P occ e
               (maximize_patterns_valid text max fuel _ _ Hv Hrun) Hin He). }
    split; [exact Hbound|]. split; [exact Hlen|]. split; [exact Hs|].
    intros e. split; [apply Hval|]. intros He.
    destruct (ascending_two_members occ Hlen Hs) as (e1 & e2 & H1 & H2 & Hne).
    destruct (Hall P e1 e2 Hbound (Hval _ H1) (Hval _ H2) Hne)
      as (occ' & Hg & Hocc).
    rewrite G in Hg. inversion Hg. subst. exact (Hocc e He).
  - destruct (Z_le_dec m (Zlen P)) as [Hlo|Hlo]; [|left; lia].
    destruct (Z_le_dec (Zlen P) (Z.max m max)) as [Hhi|Hhi]; [|left; lia].
    right. intros e1 e2 H1 H2.
    destruct (Z.eq_dec e1 e2) as [|Hne]; [assumption|]. exfalso.
    destruct (Hall P e1 e2 (conj Hlo Hhi) H1 H2 Hne) as (occ & Hg & _).
    congruence.
Qed.

End MaximizeComplete.

Lemma maximize_patterns_exact_witness :
  match dict_get
          [(lit "abc", [0; 5]); (lit "bcd", [1; 6]); (lit "abcd", [0; 5])]
          (lit "abcd") with
  | Some occ =>
      3 <= Zlen (lit "abcd") <= Z.max 3 6 /\ 2 <= Zlen occ /\ Sorted Z.lt occ
      /\ forall e, In e occ <-> occurs_at (lit "abcdxabcdy") (lit "abcd") e
  | None =>
      ~ (3 <= Zlen (lit "abcd") <= Z.max 3 6)
      \/ forall e1 e2,
           occurs_at (lit "abcdxabcdy") (lit "abcd") e1 ->
           occurs_at (lit "abcdxabcdy") (lit "abcd") e2 -> e1 = e2
  end.
Proof.
  apply (maximize_patterns_exact (lit "abcdxabcdy") 6 3 3).
  - lia.
  - vm_compute. reflexivity.
Defined.

(** ** What remove_redundant_patterns keeps *)

Section RedundantKeeps.

Lemma subseq_refl {A : Type} (l : list A) : subseq l l.
Proof. induction l; [apply subseq_nil | apply subseq_keep; assumption]. Qed.

Lemma subseq_trans {A : Type} (l1 l2 l3 : list A) :
  subseq l1 l2 -> subseq l2 l3 -> subseq l1 l3.
Proof.
  intros H12 H23. revert l1 H12.
  induction H23 as [|x l2 l3 H23 IH|x l2 l3 H23 IH]; intros l1 H12.
  - exact H12.
  - apply subseq_skip. apply IH. exact H12.
  - inversion H12; subst.
    + apply subseq_skip. apply IH. assumption.
    + apply subseq_keep. apply IH. assumption.
Qed.

Lemma subseq_In {A : Type} (l1 l2 : list A) (x : A) :
  subseq l1 l2 -> In x l1 -> In x l2.
Proof.
  induction 1 as [|y l1 l2 H IH|y l1 l2 H IH]; simpl; intros Hx; auto.
  destruct Hx; auto.
Qed.

Lemma dict_del_subseq_entries (k : str) :
  forall d d', dict_del d k = Ok d' -> subseq d' d.
Proof.
  induction d as [|[k0 v0] d IH]; intros d' H; [discriminate|].
  cbn [dict_del] in H. destruct (str_eqb k0 k).
  - inversion H. subst. apply subseq_skip. apply subseq_refl.
  - destruct (dict_del d k) as [d1| |]; try discriminate.
    cbn [bind] in H. inversion H. subst. apply subseq_keep. apply IH.
    reflexivity.
Qed.

Lemma delete_keys_subseq_entries :
  forall ks d d', delete_keys d ks = Ok d' -> subseq d' d.
Proof.
  induction ks as [|k ks IH]; intros d d' H; cbn [delete_keys] in H.
  - inversion H. apply subseq_refl.
  - destruct (dict_del d k) as [d1| |] eqn:E; try discriminate.
    cbn [bind] in H.
    exact (subseq_trans _ _ _ (IH _ _ H) (dict_del_subseq_entries k _ _ E)).
Qed.

Lemma remove_redundant_patterns_fuel_subseq (fuel : nat) :
  forall p q, remove_redundant_patterns_fuel fuel p = Ok q -> subseq q p.
Proof.
  induction fuel as [|fuel IH]; intros p q H; [discriminate|].
  cbn [remove_redundant_patterns_fuel] in H.
  destruct (mark_redundant p (keys p) ([], false)) as [st| |];
    try discriminate.
  cbn [bind] in H. destruct (snd st).
  - destruct (delete_keys p (fst st)) as [d'| |] eqn:E; try discriminate.
    cbn [bind] in H.
    exact (subseq_trans _ _ _ (IH _ _ H) (delete_keys_subseq_entries _ _ _ E)).
  - inversion H. apply subseq_refl.
Qed.

Lemma redundant_in_false (t : table) (suspect_key : str) :
  forall larger_keys,
    redundant_in t suspect_key larger_keys = Ok false ->
    forall l, In l larger_keys -> coincides t suspect_key l = Ok false.
Proof.
  induction larger_keys as [|l0 rest IH]; intros H l Hl; [destruct Hl|].
  cbn [redundant_in] in H.
  destruct (coincides t suspect_key l0) as [[|]| |] eqn:E; try discriminate.
  cbn [bind] in H. destruct Hl as [<-|Hl]; [exact E | exact (IH H l Hl)].
Qed.

Lemma str_index_in (s sub : str) (d : Z) :
  str_index s sub = Ok d -> str_in sub s = true.
Proof.
  revert d. induction s as [|c s IH]; intros d; cbn [str_index str_in].
  - destruct (is_prefix sub []); [reflexivity | discriminate].
  - destruct (is_prefix sub (c :: s)); [reflexivity|].
    destruct (str_index s sub) as [d'| |]; try discriminate.
    intros _. exact (IH d' eq_refl).
Qed.

(** What it means that one comparison does not mark the suspect. *)
Lemma coincides_false (t : table) (S L : str) (vs vl : list Z) (d : Z) :
  coincides t S L = Ok false ->
  dict_get t S = Some vs -> dict_get t L = Some vl ->
  Zlen S < Zlen L -> str_index L S = Ok d ->
  map (fun x => x - d) vs <> vl.
Proof.
  unfold coincides, dict_lookup. intros H HS HL Hlen Hd.
  replace (Zlen S >=? Zlen L) with false in H
    by (symmetry; rewrite Z.geb_leb; apply Z.leb_gt; exact Hlen).
  rewrite (str_index_in _ _ _ Hd), HS, HL, Hd in H. cbn [negb bind] in H.
  destruct (Zlen vs =? Zlen vl) eqn:El; cbn [negb] in H.
  - destruct (d >? 0) eqn:E1; cbn [bind] in H.
    + inversion H as [H']. intros Heq. apply list_Z_eqb_eq in Heq. congruence.
    + pose proof (str_index_nonneg _ _ _ Hd) as H0.
      rewrite Z.gtb_ltb in E1. apply Z.ltb_ge in E1.
      assert (d = 0) by lia. subst d. cbn [Z.eqb bind] in H.
      inversion H as [H']. intros Heq.
      rewrite (map_ext _ (fun x => x) (fun x => Z.sub_0_r x)), map_id in Heq.
      apply list_Z_eqb_eq in Heq. congruence.
  - apply Z.eqb_neq in El. intros Heq. apply El. rewrite <- Heq.
    symmetry. apply Zlen_map.
Qed.

(** X17: remove_redundant_patterns returns, on every table, the table with
    some entries left out, the others in their order and with their lists;
    and nothing redundant is left: for no shorter pattern S contained in a
    longer pattern L of the result is the list of S, shifted by the
    position of S in L, the list of L. *)
Theorem remove_redundant_patterns_result (p : table) :
  exists q,
    remove_redundant_patterns p = Ok q
    /\ subseq q p
    /\ forall S L vs vl d,
         dict_get q S = Some vs -> dict_get q L = Some vl ->
         Zlen S < Zlen L -> str_index L S = Ok d ->
         map (fun x => x - d) vs <> vl.
Proof.
  destruct (remove_redundant_patterns_returns p) as [q Hq].
  exists q. split; [exact Hq|].
  split; [exact (remove_redundant_patterns_fuel_subseq _ _ _ Hq)|].
  intros S L vs vl d HS HL Hlen Hd.
  pose proof (remove_redundant_patterns_fuel_fixed _ _ _ Hq) as Hfix.
  assert (HSk : In S (keys q)) by (apply dict_get_keys; eauto).
  assert (HLk : In L (keys q)) by (apply dict_get_keys; eauto).
  assert (Hred : is_redundant q S = false).
  { destruct (is_redundant q S) eqn:E; [|reflexivity].
    assert (existsb (is_redundant q) (keys q) = true)
      by (apply existsb_exists; eauto).
    congruence. }
  destruct (redundant_in_returns q S HSk (keys q) (incl_refl _)) as [b Hb].
  unfold is_redundant in Hred. rewrite Hb in Hred. subst b.
  exact (coincides_false q S L vs vl d (redundant_in_false q S _ Hb L HLk)
           HS HL Hlen Hd).
Qed.

Lemma remove_redundant_patterns_result_witness :
  exists q,
    remove_redundant_patterns
      [(lit "ow", [1; 5]); (lit "cow", [0; 4]); (lit "w", [2; 6; 9])] = Ok q
    /\ subseq q [(lit "ow", [1; 5]); (lit "cow", [0; 4]); (lit "w", [2; 6; 9])]
    /\ forall S L vs vl d,
         dict_get q S = Some vs -> dict_get q L = Some vl ->
         Zlen S < Zlen L -> str_index L S = Ok d ->
         map (fun x => x - d) vs <> vl.
Proof.
  apply (remove_redundant_patterns_result
           [(lit "ow", [1; 5]); (lit "cow", [0; 4]); (lit "w", [2; 6; 9])]).
Defined.

End RedundantKeeps.

(** ** A text whose last character occurs once *)

Section LastCharacterOnce.

Variable text : str.
Variable max : Z.
Variable body : str.
Variable c : ascii.
Hypothesis Htext : text = body ++ [c].
Hypothesis Honce : ~ In c body.

(** No repeated pattern ends with the text. *)
Lemma no_repeat_at_end (P : str) (e : Z) :
  1 <= Zlen P ->
  occurs_at text P (Zlen text - Zlen P) -> occurs_at text P e ->
  e = Zlen text - Zlen P.
Proof.
  intros HP Hend He.
  destruct (Z.eq_dec e (Zlen text - Zlen P)) as [|Hne]; [assumption|].
  exfalso.
  apply occurs_at_split in Hend. destruct Hend as (pre' & post' & Ht' & Hl').
  apply occurs_at_split in He. destruct He as (pre & post & Ht & Hl).
  assert (Hlen' : Zlen text = Zlen pre' + Zlen P + Zlen post').
  { rewrite Ht' at 1. unfold Zlen. rewrite !length_app. lia. }
  assert (Hlen : Zlen text = Zlen pre + Zlen P + Zlen post).
  { rewrite Ht at 1. unfold Zlen. rewrite !length_app. lia. }
  assert (post' = []) by (apply Zlen_nil_iff; lia). subst post'.
  assert (Hpost : post <> []).
  { intros ->. change (Zlen (@nil ascii)) with 0 in Hlen. lia. }
  destruct (exists_last Hpost) as (post0 & y & ->).
  assert (HPne : P <> []).
  { intros ->. change (Zlen (@nil ascii)) with 0 in HP. lia. }
  destruct (exists_last HPne) as (P' & x & ->).
  rewrite app_nil_r, Htext in Ht'.
  rewrite app_assoc in Ht'. apply app_inj_tail in Ht'.
  destruct Ht' as [_ Hx]. subst x.
  rewrite Htext in Ht.
  replace (pre ++ (P' ++ [c]) ++ post0 ++ [y])
    with ((pre ++ P' ++ [c] ++ post0) ++ [y]) in Ht
    by (rewrite <- !app_assoc; reflexivity).
  apply app_inj_tail in Ht. destruct Ht as [Hb _].
  apply Honce. rewrite Hb. apply in_or_app. right.
  apply in_or_app. right. left. reflexivity.
Qed.

Lemma not_stuck (t : table) :
  Forall repeated_ascending t ->
  (forall K, In K (keys t) -> 1 <= Zlen K) ->
  ~ stuck text max t.
Proof.
  intros Hra Hkeys (Hnd & Hv & P & occ & Hget & Hin & _ & _ & _).
  pose proof (dict_get_In _ _ _ Hget) as HP.
  rewrite Forall_forall in Hra. destruct (Hra _ HP) as [Hlen Hs].
  cbn [snd] in *.
  destruct (ascending_two_members occ Hlen Hs) as (e1 & e2 & H1 & H2 & Hne).
  pose proof (Hkeys P (In_keys _ _ _ HP)) as HlP.
  pose proof (valid_table_entry text t P occ _ Hv HP Hin) as Hend.
  pose proof (no_repeat_at_end P e1 HlP Hend
                (valid_table_entry text t P occ _ Hv HP H1)).
  pose proof (no_repeat_at_end P e2 HlP Hend
                (valid_table_entry text t P occ _ Hv HP H2)).
  lia.
Qed.

Lemma maximize_patterns_returns_depth (n : nat) :
  forall L t,
    Z.to_nat (max - L) = n -> 1 <= L ->
    seeded text L t -> Forall repeated_ascending t ->
    exists R, forall fuel,
      (n + 1 <= fuel)%nat -> maximize_patterns fuel text t max = Ok R.
Proof.
  induction n as [|n IH]; intros L t Hn HL Hseed Hra.
  - exists t. intros [|fuel] Hf; [lia|]. cbn [maximize_patterns].
    destruct (snd (extend_patterns text t max)) eqn:Hc; [|reflexivity].
    pose proof (extend_changed_room text max L t Hseed Hc). lia.
  - destruct (snd (extend_patterns text t max)) eqn:Hc.
    + pose proof (extend_patterns_repeated_ascending text max t
                    (repeated_ascending_entry t Hra)) as Hra'.
      destruct (extend_seeded_or_stuck text max L t Hseed) as [Hnext|Hstuck].
      * destruct (IH (L + 1) _ ltac:(lia) ltac:(lia) Hnext Hra') as (R' & HR').
        exists (dict_update t R'). intros [|fuel] Hf; [lia|].
        cbn [maximize_patterns]. rewrite Hc, HR' by lia. reflexivity.
      * exfalso. apply (not_stuck _ Hra'); [|exact Hstuck].
        intros K HK. apply dict_get_keys in HK. destruct HK as [v Hv'].
        pose proof Hseed as (_ & Hv & _).
        destruct (extend_patterns_In_shape text max t K v Hv
                    (dict_get_In _ _ _ Hv'))
          as (P & occ & i & HP & _ & _ & _ & _ & [(Hl & _)|(_ & ->)]).
        -- rewrite Hl, (seeded_key_length text L t P Hseed (In_keys _ _ _ HP)).
           lia.
        -- rewrite (seeded_key_length text L t P Hseed (In_keys _ _ _ HP)).
           lia.
    + exists t. intros [|fuel] Hf; [lia|].
      cbn [maximize_patterns]. rewrite Hc. reflexivity.
Qed.

Lemma subseq_Forall {A : Type} (Q : A -> Prop) (l1 l2 : list A) :
  subseq l1 l2 -> Forall Q l2 -> Forall Q l1.
Proof.
  intros Hs H. rewrite Forall_forall in *. intros x Hx.
  apply H. exact (subseq_In _ _ _ Hs Hx).
Qed.

(** X18: when the last character of the ciphertext occurs nowhere else in
    it and the minimum pattern length is at least 1, maximize_patterns
    returns on the table of initialize_patterns within a recursion depth of
    max(0, maximum - minimum) + 1, and vigenere_kasiski_test then either
    returns a list or raises IndexError (no period found): it does not
    recurse for ever. *)
Theorem kasiski_terminates_on_unique_last_character (m : Z) (fuel : nat) :
  1 <= m ->
  (Z.to_nat (max - m) + 1 <= fuel)%nat ->
  (exists R,
      maximize_patterns fuel text (initialize_patterns text m) max = Ok R)
  /\ ((exists l, vigenere_kasiski_test fuel text m max = Ok l)
      \/ vigenere_kasiski_test fuel text m max = Raise IndexError).
Proof.
  intros Hm Hfuel.
  pose proof (initialize_patterns_repeated_ascending text m) as Hra.
  destruct (maximize_patterns_returns_depth _ m _ eq_refl Hm
              (initialize_patterns_seeded text m ltac:(lia)) Hra)
    as (R & HR).
  specialize (HR fuel Hfuel). split; [eauto|].
  unfold vigenere_kasiski_test. rewrite HR. cbn [bind].
  destruct (remove_redundant_patterns_returns R) as [q Hq].
  rewrite Hq. cbn [bind].
  pose proof (maximize_patterns_repeated_ascending text max fuel _ R Hra HR)
    as HraR.
  pose proof (subseq_Forall _ _ _
                (remove_redundant_patterns_fuel_subseq _ _ _ Hq) HraR) as Hraq.
  destruct (pattern_distances_loop_ok q (keys q) []) as (ps & Hrun & _).
  { apply Forall_forall. intros k Hk. apply dict_get_keys in Hk.
    destruct Hk as [v Hv]. exists v. split; [exact Hv|].
    rewrite Forall_forall in Hraq.
    exact (proj1 (Hraq _ (dict_get_In _ _ _ Hv))). }
  unfold get_pattern_distances. rewrite Hrun. cbn [bind app].
  destruct (map get_factors (set_of (set_of ps))); [right | left; eexists];
    reflexivity.
Qed.

End LastCharacterOnce.

Lemma kasiski_terminates_on_unique_last_character_witness :
  (exists R,
      maximize_patterns 4 (lit "abcabc.")
        (initialize_patterns (lit "abcabc.") 3) 6 = Ok R)
  /\ ((exists l, vigenere_kasiski_test 4 (lit "abcabc.") 3 6 = Ok l)
      \/ vigenere_kasiski_test 4 (lit "abcabc.") 3 6 = Raise IndexError).
Proof.
  apply (kasiski_terminates_on_unique_last_character (lit "abcabc.") 6
           (lit "abcabc") "."%char).
  - reflexivity.
  - simpl. intuition discriminate.
  - lia.
  - simpl. lia.
Defined.

(** ** Letter counts, sorting and substitution *)

Section CharDict.

Context {V : Type}.

Lemma aget_aset (d : list (ascii * V)) (k k' : ascii) (v : V) :
  aget Ascii.eqb (aset Ascii.eqb d k v) k'
  = if Ascii.eqb k k' then Some v else aget Ascii.eqb d k'.
Proof.
  induction d as [|[k0 v0] d IH]; simpl.
  - reflexivity.
  - destruct (Ascii.eqb k0 k) eqn:E0; simpl.
    + apply Ascii.eqb_eq in E0. subst.
      destruct (Ascii.eqb k k'); reflexivity.
    + destruct (Ascii.eqb k0 k') eqn:E1.
      * apply Ascii.eqb_eq in E1. subst. rewrite Ascii.eqb_sym, E0.
        reflexivity.
      * exact IH.
Qed.

Lemma map_fst_aset_present (d : list (ascii * V)) (k : ascii) (v w : V) :
  aget Ascii.eqb d k = Some w ->
  map fst (aset Ascii.eqb d k v) = map fst d.
Proof.
  induction d as [|[k0 v0] d IH]; simpl; [discriminate|].
  destruct (Ascii.eqb k0 k); simpl; [reflexivity|].
  intros H. rewrite IH by exact H. reflexivity.
Qed.

Lemma aget_In (d : list (ascii * V)) (k : ascii) (v : V) :
  aget Ascii.eqb d k = Some v -> In (k, v) d.
Proof.
  induction d as [|[k0 v0] d IH]; simpl; [discriminate|].
  destruct (Ascii.eqb k0 k) eqn:E.
  - apply Ascii.eqb_eq in E. subst. intros H. inversion H. auto.
  - auto.
Qed.

Lemma aget_None (d : list (ascii * V)) (k : ascii) :
  aget Ascii.eqb d k = None <-> ~ In k (map fst d).
Proof.
  induction d as [|[k0 v0] d IH]; simpl; [tauto|].
  destruct (Ascii.eqb k0 k) eqn:E.
  - apply Ascii.eqb_eq in E. subst. split; [discriminate | tauto].
  - apply Ascii.eqb_neq in E. rewrite IH. tauto.
Qed.

Lemma In_aget (d : list (ascii * V)) (k : ascii) (v : V) :
  NoDup (map fst d) -> In (k, v) d -> aget Ascii.eqb d k = Some v.
Proof.
  induction d as [|[k0 v0] d IH]; simpl; [tauto|].
  intros Hnd [H|H].
  - inversion H. subst. rewrite Ascii.eqb_refl. reflexivity.
  - inversion Hnd as [|? ? Hnot Hnd']. subst.
    destruct (Ascii.eqb k0 k) eqn:E.
    + apply Ascii.eqb_eq in E. subst. exfalso. apply Hnot.
      apply (in_map fst) in H. exact H.
    + auto.
Qed.

(** The dict built by assigning one value to the letters of a list. *)
Lemma aget_fold_aset_const (v : V) (xs : list Z) (L : ascii) :
  forall d,
    aget Ascii.eqb
      (fold_left (fun acc x => aset Ascii.eqb acc (chr x) v) xs d) L
    = if existsb (fun x => Ascii.eqb (chr x) L) xs then Some v
      else aget Ascii.eqb d L.
Proof.
  induction xs as [|x xs IH]; intros d; simpl; [reflexivity|].
  rewrite IH, aget_aset.
  destruct (existsb _ xs); [rewrite orb_true_r; reflexivity|].
  rewrite orb_false_r. reflexivity.
Qed.

End CharDict.

Section LetterCounts.

Lemma ord_inj (c d : ascii) : ord c = ord d -> c = d.
Proof. intros H. rewrite <- (chr_ord c), <- (chr_ord d), H. reflexivity. Qed.

Lemma is_upper_range (L : ascii) :
  is_upper L = true <-> 65 <= ord L <= 90.
Proof.
  unfold is_upper. rewrite andb_true_iff, !Z.leb_le. tauto.
Qed.

Lemma upper_letter_listed (L : ascii) :
  existsb (fun x => Ascii.eqb (chr x) L) (range_from (ord "A") 26)
  = is_upper L.
Proof.
  destruct (is_upper L) eqn:E.
  - apply is_upper_range in E. apply existsb_exists. exists (ord L).
    split; [|rewrite chr_ord; apply Ascii.eqb_refl].
    unfold range_from. apply in_map_iff. exists (Z.to_nat (ord L - 65)).
    change (ord "A") with 65. split; [lia|]. apply in_seq. lia.
  - apply not_true_is_false. intros H. apply existsb_exists in H.
    destruct H as (x & Hx & Heq). apply Ascii.eqb_eq in Heq. subst L.
    unfold range_from in Hx. apply in_map_iff in Hx.
    destruct Hx as (i & <- & Hi). apply in_seq in Hi.
    change (ord "A") with 65 in E.
    assert (is_upper (chr (65 + Z.of_nat i)) = true); [|congruence].
    apply is_upper_range. rewrite ord_chr by lia. lia.
Qed.

Lemma zero_counts_get (L : ascii) :
  aget Ascii.eqb zero_counts L = if is_upper L then Some 0 else None.
Proof.
  unfold zero_counts. rewrite aget_fold_aset_const, upper_letter_listed.
  reflexivity.
Qed.

(** The counting loop: every capital gains the number of its occurrences,
    and no key is added. *)
Lemma count_letters_spec :
  forall text counts,
    (forall L, is_upper L = true ->
               exists n, aget Ascii.eqb counts L = Some n) ->
    exists counts',
      count_letters text counts = Ok counts'
      /\ map fst counts' = map fst counts
      /\ forall L n,
           is_upper L = true -> aget Ascii.eqb counts L = Some n ->
           aget Ascii.eqb counts' L
           = Some (n + Z.of_nat (count_occ Z.eq_dec text (ord L))).
Proof.
  induction text as [|each rest IH]; intros counts Hkeys.
  - exists counts. split; [reflexivity|]. split; [reflexivity|].
    intros L n _ H. rewrite H. simpl. f_equal. lia.
  - cbn [count_letters]. change (ord "A") with 65. change (ord "Z") with 90.
    destruct ((65 <=? each) && (each <? 90 + 1)) eqn:E; cbn [negb].
    + apply andb_true_iff in E. destruct E as [E1 E2].
      apply Z.leb_le in E1. apply Z.ltb_lt in E2.
      assert (Hup : is_upper (chr each) = true)
        by (apply is_upper_range; rewrite ord_chr by lia; lia).
      destruct (Hkeys _ Hup) as [n0 Hn0]. rewrite Hn0.
      destruct (IH (aset Ascii.eqb counts (chr each) (n0 + 1)))
        as (counts' & Hrun & Hfst & Hget).
      { intros L HL. rewrite aget_aset.
        destruct (Ascii.eqb (chr each) L); [eauto | exact (Hkeys L HL)]. }
      exists counts'. split; [exact Hrun|]. split.
      * rewrite Hfst. exact (map_fst_aset_present counts _ _ _ Hn0).
      * intros L n HL Hn. cbn [count_occ].
        destruct (Z.eq_dec each (ord L)) as [Heq|Hne].
        -- subst each. rewrite chr_ord in *. rewrite Hn in Hn0.
           inversion Hn0. subst n0.
           rewrite (Hget L (n + 1) HL)
             by (rewrite aget_aset, Ascii.eqb_refl; reflexivity).
           f_equal. lia.
        -- apply Hget; [exact HL|]. rewrite aget_aset.
           destruct (Ascii.eqb (chr each) L) eqn:Eq; [|exact Hn].
           apply Ascii.eqb_eq in Eq. subst L. rewrite ord_chr in Hne by lia.
           congruence.
    + destruct (IH counts Hkeys) as (counts' & Hrun & Hfst & Hget).
      exists counts'. split; [exact Hrun|]. split; [exact Hfst|].
      intros L n HL Hn. rewrite (Hget L n HL Hn). cbn [count_occ].
      destruct (Z.eq_dec each (ord L)) as [Heq|Hne]; [|reflexivity].
      exfalso. apply is_upper_range in HL. subst each.
      apply andb_false_iff in E. destruct E as [E|E].
      * apply Z.leb_gt in E. lia.
      * apply Z.ltb_ge in E. lia.
Qed.

(** On ASCII text, upper-casing turns exactly the small letters into
    capitals. *)
Lemma count_upper_ascii (text : str) (L : ascii) :
  Forall (fun c => ord c < 128) text -> is_upper L = true ->
  count_occ Z.eq_dec (upper text) (ord L)
  = (count_occ ascii_dec text L
     + count_occ ascii_dec text (chr (ord L + 32)))%nat.
Proof.
  intros Hascii HL. apply is_upper_range in HL.
  induction Hascii as [|c text Hc _ IH]; [reflexivity|].
  unfold upper in *. cbn [flat_map]. rewrite count_occ_app, IH.
  cbn [count_occ].
  assert (Hlow : ord (chr (ord L + 32)) = ord L + 32)
    by (apply ord_chr; lia).
  unfold upper_char.
  destruct ((97 <=? ord c) && (ord c <=? 122)) eqn:E.
  - apply andb_true_iff in E. destruct E as [E1 E2].
    apply Z.leb_le in E1. apply Z.leb_le in E2. cbn [count_occ].
    destruct (ascii_dec c L) as [->|_]; [lia|].
    destruct (Z.eq_dec (ord c - 32) (ord L)) as [Heq|Hne];
      destruct (ascii_dec c (chr (ord L + 32))) as [Hc'|Hc']; try lia.
    + exfalso. apply Hc'. apply ord_inj. rewrite Hlow. lia.
    + exfalso. apply Hne. rewrite Hc', Hlow. lia.
  - replace (ord c =? 181) with false by (symmetry; apply Z.eqb_neq; lia).
    replace (ord c =? 223) with false by (symmetry; apply Z.eqb_neq; lia).
    replace (224 <=? ord c) with false by (symmetry; apply Z.leb_gt; lia).
    replace (ord c =? 255) with false by (symmetry; apply Z.eqb_neq; lia).
    cbn [andb count_occ].
    destruct (ascii_dec c (chr (ord L + 32))) as [Hc'|_].
    + exfalso. subst c. rewrite Hlow in E.
      apply andb_false_iff in E. destruct E as [E|E].
      * apply Z.leb_gt in E. lia.
      * apply Z.leb_gt in E. lia.
    + destruct (Z.eq_dec (ord c) (ord L)) as [Heq|Hne];
        destruct (ascii_dec c L) as [Hc'|Hc']; try lia.
      * exfalso. apply Hc'. apply ord_inj. exact Heq.
      * exfalso. apply Hne. rewrite Hc'. reflexivity.
Qed.

(** X19: get_letter_counts returns, for every text, a dict whose keys are
    the 26 capitals A to Z in order; the value of a capital is the number
    of its occurrences in the upper-cased text, which for an ASCII text is
    the number of occurrences of the letter in either case. *)
Theorem get_letter_counts_counts (text : str) :
  exists counts,
    get_letter_counts text = Ok counts
    /\ map fst counts = map chr (range_from 65 26)
    /\ (forall L,
          is_upper L = true ->
          aget Ascii.eqb counts L
          = Some (Z.of_nat (count_occ Z.eq_dec (upper text) (ord L))))
    /\ (Forall (fun c => ord c < 128) text ->
        forall L,
          is_upper L = true ->
          aget Ascii.eqb counts L
          = Some (Z.of_nat (count_occ ascii_dec text L
                            + count_occ ascii_dec text (chr (ord L + 32))))).
Proof.
  destruct (count_letters_spec (upper text) zero_counts)
    as (counts & Hrun & Hfst & Hget).
  { intros L HL. rewrite zero_counts_get, HL. eauto. }
  exists counts. split; [exact Hrun|]. split; [rewrite Hfst; reflexivity|].
  assert (Hval : forall L, is_upper L = true ->
            aget Ascii.eqb counts L
            = Some (Z.of_nat (count_occ Z.eq_dec (upper text) (ord L)))).
  { intros L HL. rewrite (Hget L 0 HL); [reflexivity|].
    rewrite zero_counts_get, HL. reflexivity. }
  split; [exact Hval|].
  intros Hascii L HL. rewrite (Hval L HL), count_upper_ascii by assumption.
  reflexivity.
Qed.

Lemma get_letter_counts_counts_witness :
  exists counts,
    get_letter_counts (lit "Hello World") = Ok counts
    /\ aget Ascii.eqb counts "L"%char
       = Some (Z.of_nat (count_occ ascii_dec (lit "Hello World") "L"%char
                         + count_occ ascii_dec (lit "Hello World")
                             (chr (ord "L" + 32)))).
Proof.
  destruct (get_letter_counts_counts (lit "Hello World"))
    as (counts & Hrun & _ & _ & Hascii).
  exists counts. split; [exact Hrun|]. apply Hascii.
  - repeat constructor.
  - reflexivity.
Defined.

End LetterCounts.

Section SortByValue.

Context {K : Type}.

Lemma insert_by_value_perm (x : K * Z) (l : list (K * Z)) :
  Permutation (x :: l) (insert_by_value x l).
Proof.
  induction l as [|y l IH]; simpl; [apply Permutation_refl|].
  destruct (snd y >? snd x); [|apply Permutation_refl].
  apply perm_trans with (y :: x :: l); [apply perm_swap|].
  apply perm_skip. exact IH.
Qed.

Lemma In_insert_by_value (x e : K * Z) (l : list (K * Z)) :
  In e (insert_by_value x l) <-> e = x \/ In e l.
Proof.
  induction l as [|y l IH]; simpl; [intuition congruence|].
  destruct (snd y >? snd x); simpl; [rewrite IH|]; intuition congruence.
Qed.

Lemma insert_by_value_sorted (x : K * Z) (l : list (K * Z)) :
  StronglySorted (fun a b => snd b <= snd a) l ->
  StronglySorted (fun a b => snd b <= snd a) (insert_by_value x l).
Proof.
  induction 1 as [|y l Hs IH Hy]; simpl.
  - constructor; constructor.
  - destruct (snd y >? snd x) eqn:E.
    + rewrite Z.gtb_ltb in E. apply Z.ltb_lt in E.
      constructor; [exact IH|].
      apply Forall_forall. intros z Hz. apply In_insert_by_value in Hz.
      destruct Hz as [->|Hz]; [lia|].
      rewrite Forall_forall in Hy. exact (Hy z Hz).
    + rewrite Z.gtb_ltb in E. apply Z.ltb_ge in E.
      constructor; [constructor; assumption|].
      constructor; [exact E|].
      rewrite Forall_forall in *. intros z Hz. specialize (Hy z Hz). lia.
Qed.

Lemma filter_insert_by_value (v : Z) (x : K * Z) (l : list (K * Z)) :
  filter (fun e => snd e =? v) (insert_by_value x l)
  = filter (fun e => snd e =? v) (x :: l).
Proof.
  induction l as [|y l IH]; [reflexivity|].
  cbn [insert_by_value]. destruct (snd y >? snd x) eqn:E; [|reflexivity].
  rewrite Z.gtb_ltb in E. apply Z.ltb_lt in E.
  cbn [filter] in *. rewrite IH.
  destruct (snd y =? v) eqn:Ey; [|reflexivity].
  destruct (snd x =? v) eqn:Ex; [|reflexivity].
  apply Z.eqb_eq in Ey, Ex. lia.
Qed.

(** X20: sort_dict_of_str_to_int returns the items of the dict, each once,
    with larger values first, and the items of one value in the order they
    have in the dict (the sort is stable). *)
Theorem sort_dict_of_str_to_int_stable (unsorted_dict : list (K * Z)) :
  Permutation unsorted_dict (sort_dict_of_str_to_int unsorted_dict)
  /\ StronglySorted (fun a b => snd b <= snd a)
       (sort_dict_of_str_to_int unsorted_dict)
  /\ forall v,
       filter (fun e => snd e =? v) (sort_dict_of_str_to_int unsorted_dict)
       = filter (fun e => snd e =? v) unsorted_dict.
Proof.
  unfold sort_dict_of_str_to_int.
  induction unsorted_dict as [|x l (IH1 & IH2 & IH3)]; cbn [fold_right].
  - split; [constructor|]. split; [constructor | reflexivity].
  - split; [|split].
    + apply perm_trans with (x :: fold_right insert_by_value [] l).
      * apply perm_skip. exact IH1.
      * apply insert_by_value_perm.
    + apply insert_by_value_sorted. exact IH2.
    + intros v. rewrite filter_insert_by_value. cbn [filter].
      rewrite IH3. reflexivity.
Qed.

End SortByValue.

Section Substitution.

Lemma blank_cipher_get (L : ascii) :
  aget Ascii.eqb blank_cipher L = if is_upper L then Some (lit "-") else None.
Proof.
  unfold blank_cipher. rewrite aget_fold_aset_const, upper_letter_listed.
  reflexivity.
Qed.

Lemma In_firstn_In {A : Type} (n : nat) (l : list A) (x : A) :
  In x (firstn n l) -> In x l.
Proof.
  revert l. induction n as [|n IH]; intros [|y l] H; simpl in *; try tauto.
  destruct H as [H|H]; auto.
Qed.

(** The assignment loop, from position [index] of the frequency alphabet. *)
Lemma assign_letters_spec :
  forall sorted_counts index cipher,
    NoDup (map fst sorted_counts) ->
    (index + leading_nonzero sorted_counts <= 26)%nat ->
    exists cipher',
      assign_letters sorted_counts index cipher = Ok cipher'
      /\ (forall i letter count,
            (i < leading_nonzero sorted_counts)%nat ->
            nth_error sorted_counts i = Some (letter, count) ->
            exists plain,
              nth_error letters_by_english_frequency (index + i) = Some plain
              /\ aget Ascii.eqb cipher' letter = Some [plain])
      /\ (forall L,
            ~ In L (map fst (firstn (leading_nonzero sorted_counts)
                               sorted_counts)) ->
            aget Ascii.eqb cipher' L = aget Ascii.eqb cipher L).
Proof.
  induction sorted_counts as [|[letter count] rest IH];
    intros index cipher Hnd Hle.
  - exists cipher. split; [reflexivity|]. split; [|reflexivity].
    intros i l c Hi. simpl in Hi. lia.
  - cbn [assign_letters leading_nonzero] in *.
    destruct (count =? 0) eqn:E.
    + exists cipher. split; [reflexivity|]. split; [|reflexivity].
      intros i l c Hi. lia.
    + inversion Hnd as [|? ? Hnot Hnd']. subst.
      destruct (nth_error letters_by_english_frequency index) as [plain|]
        eqn:Hplain.
      2:{ apply nth_error_None in Hplain.
          change (length letters_by_english_frequency) with 26%nat in Hplain.
          lia. }
      destruct (IH (S index) (aset Ascii.eqb cipher letter [plain]) Hnd')
        as (cipher' & Hrun & Hassigned & Hother); [lia|].
      exists cipher'. split; [exact Hrun|]. split.
      * intros [|i] l c Hi Hnth.
        -- cbn [nth_error] in Hnth. inversion Hnth. subst l c.
           exists plain. rewrite Nat.add_0_r. split; [exact Hplain|].
           rewrite Hother.
           ++ rewrite aget_aset, Ascii.eqb_refl. reflexivity.
           ++ intros H. apply Hnot. apply in_map_iff in H.
              destruct H as (e & He1 & He2). apply In_firstn_In in He2.
              rewrite <- He1. apply in_map. exact He2.
        -- cbn [nth_error] in Hnth.
           destruct (Hassigned i l c ltac:(lia) Hnth) as (p & Hp1 & Hp2).
           exists p. split; [|exact Hp2].
           replace (index + S i)%nat with (S index + i)%nat by lia.
           exact Hp1.
      * intros L HL. cbn [firstn map In] in HL.
        rewrite Hother by (intros H; apply HL; right; exact H).
        rewrite aget_aset.
        destruct (Ascii.eqb letter L) eqn:Eq; [|reflexivity].
        apply Ascii.eqb_eq in Eq. subst. exfalso. apply HL. left. reflexivity.
Qed.

Lemma assign_letters_overflow :
  forall sorted_counts index cipher,
    (26 < index + leading_nonzero sorted_counts)%nat -> (index <= 26)%nat ->
    assign_letters sorted_counts index cipher = Raise IndexError.
Proof.
  induction sorted_counts as [|[letter count] rest IH];
    intros index cipher Hgt Hle.
  - simpl in Hgt. lia.
  - cbn [assign_letters leading_nonzero] in *.
    destruct (count =? 0); [lia|].
    destruct (nth_error letters_by_english_frequency index) as [plain|]
      eqn:Hplain; [|reflexivity].
    assert (index < 26)%nat.
    { change 26%nat with (length letters_by_english_frequency).
      apply nth_error_Some. congruence. }
    apply IH; lia.
Qed.

Lemma naive_substitution_by_rank_aux (sorted_counts : list (ascii * Z)) :
  NoDup (map fst sorted_counts) ->
  (leading_nonzero sorted_counts <= 26)%nat ->
  exists cipher,
    naive_substitution sorted_counts = Ok cipher
    /\ (forall i letter count,
          (i < leading_nonzero sorted_counts)%nat ->
          nth_error sorted_counts i = Some (letter, count) ->
          exists plain,
            nth_error letters_by_english_frequency i = Some plain
            /\ aget Ascii.eqb cipher letter = Some [plain])
    /\ (forall L,
          is_upper L = true ->
          ~ In L (map fst (firstn (leading_nonzero sorted_counts)
                             sorted_counts)) ->
          aget Ascii.eqb cipher L = Some (lit "-")).
Proof.
  intros Hnd Hle. unfold naive_substitution.
  destruct (assign_letters_spec sorted_counts 0 blank_cipher Hnd)
    as (cipher & Hrun & Hassigned & Hother); [lia|].
  exists cipher. split; [exact Hrun|]. split; [exact Hassigned|].
  intros L HL Hnot. rewrite (Hother L Hnot), blank_cipher_get, HL.
  reflexivity.
Qed.

(** X21: naive_substitution on a list of distinct letters with their
    counts: the letter at position i, for every position before the first
    count of 0, is mapped to the letter at position i of
    ETAOINSHRDLCUMWFGYPBVKJXQZ; every other capital is mapped to '-'; and
    when more than 26 entries come before the first count of 0 the call
    raises IndexError. *)
Theorem naive_substitution_by_rank (sorted_counts : list (ascii * Z)) :
  NoDup (map fst sorted_counts) ->
  ((leading_nonzero sorted_counts <= 26)%nat ->
   exists cipher,
     naive_substitution sorted_counts = Ok cipher
     /\ (forall i letter count,
           (i < leading_nonzero sorted_counts)%nat ->
           nth_error sorted_counts i = Some (letter, count) ->
           exists plain,
             nth_error letters_by_english_frequency i = Some plain
             /\ aget Ascii.eqb cipher letter = Some [plain])
     /\ (forall L,
           is_upper L = true ->
           ~ In L (map fst (firstn (leading_nonzero sorted_counts)
                              sorted_counts)) ->
           aget Ascii.eqb cipher L = Some (lit "-")))
  /\ ((26 < leading_nonzero sorted_counts)%nat ->
      naive_substitution sorted_counts = Raise IndexError).
Proof.
  intros Hnd. split.
  - apply naive_substitution_by_rank_aux. exact Hnd.
  - intros Hgt. unfold naive_substitution.
    apply assign_letters_overflow; lia.
Qed.

Lemma naive_substitution_by_rank_witness :
  exists cipher,
    naive_substitution [("L"%char, 3); ("O"%char, 2); ("H"%char, 1);
                        ("A"%char, 0)] = Ok cipher
    /\ (forall i letter count,
          (i < 3)%nat ->
          nth_error [("L"%char, 3); ("O"%char, 2); ("H"%char, 1);
                     ("A"%char, 0)] i = Some (letter, count) ->
          exists plain,
            nth_error letters_by_english_frequency i = Some plain
            /\ aget Ascii.eqb cipher letter = Some [plain])
    /\ (forall L,
          is_upper L = true ->
          ~ In L ["L"%char; "O"%char; "H"%char] ->
          aget Ascii.eqb cipher L = Some (lit "-")).
Proof.
  destruct (naive_substitution_by_rank
              [("L"%char, 3); ("O"%char, 2); ("H"%char, 1); ("A"%char, 0)])
    as [H _].
  - repeat constructor; simpl; intuition discriminate.
  - apply H. simpl. lia.
Defined.

Lemma aget_letter_dict (d : list (ascii * ascii)) (c : ascii) :
  aget Ascii.eqb (letter_dict d) c
  = option_map (fun v => [v]) (aget Ascii.eqb d c).
Proof.
  induction d as [|[k v] d IH]; simpl; [reflexivity|].
  destruct (Ascii.eqb k c); [reflexivity | exact IH].
Qed.

Lemma aget_inverse_letters (d : list (ascii * ascii)) (k v : ascii) :
  NoDup (map snd d) -> In (k, v) d ->
  aget Ascii.eqb (inverse_letters d) v = Some [k].
Proof.
  induction d as [|[k0 v0] d IH]; simpl; [tauto|].
  intros Hnd [H|H].
  - inversion H. subst. rewrite Ascii.eqb_refl. reflexivity.
  - inversion Hnd as [|? ? Hnot Hnd']. subst.
    destruct (Ascii.eqb v0 v) eqn:E.
    + apply Ascii.eqb_eq in E. subst. exfalso. apply Hnot.
      apply (in_map snd) in H. exact H.
    + auto.
Qed.

Lemma map_fst_inverse_letters (d : list (ascii * ascii)) :
  map fst (inverse_letters d) = map snd d.
Proof.
  unfold inverse_letters. rewrite map_map. reflexivity.
Qed.

(** X22: substitute_alphabet returns the text unchanged when none of its
    characters is a key of the dict; and a substitution by a dict from
    letters to letters with distinct values is undone by the substitution
    with the inverse dict, on every text whose characters are keys of the
    dict or not among its values. *)
Theorem substitute_alphabet_inverse (text : str) (d : list (ascii * ascii)) :
  (forall m : list (ascii * str),
      (forall c, In c text -> ~ In c (map fst m)) ->
      substitute_alphabet text m = text)
  /\ (NoDup (map fst d) -> NoDup (map snd d) ->
      (forall c, In c text -> In c (map fst d) \/ ~ In c (map snd d)) ->
      substitute_alphabet (substitute_alphabet text (letter_dict d))
        (inverse_letters d) = text).
Proof.
  split.
  - intros m Hm. unfold substitute_alphabet.
    induction text as [|c text IH]; [reflexivity|].
    cbn [flat_map].
    rewrite (proj2 (aget_None m c)) by (apply Hm; left; reflexivity).
    cbn [app]. f_equal. apply IH. intros c' Hc'. apply Hm. right. exact Hc'.
  - intros Hk Hv Hdom. unfold substitute_alphabet.
    induction text as [|c text IH]; [reflexivity|].
    cbn [flat_map]. rewrite flat_map_app.
    rewrite IH by (intros c' Hc'; apply Hdom; right; exact Hc').
    replace (flat_map _ _) with [c]; [reflexivity|].
    rewrite aget_letter_dict.
    destruct (aget Ascii.eqb d c) as [v|] eqn:G; cbn [option_map flat_map].
    + rewrite (aget_inverse_letters d c v Hv (aget_In d c v G)).
      reflexivity.
    + apply aget_None in G.
      destruct (Hdom c (or_introl eq_refl)) as [H|H]; [contradiction|].
      rewrite (proj2 (aget_None (inverse_letters d) c))
        by (rewrite map_fst_inverse_letters; exact H).
      reflexivity.
Qed.

Lemma substitute_alphabet_inverse_witness :
  substitute_alphabet
    (substitute_alphabet (lit "a cab!")
       (letter_dict [("a"%char, "b"%char); ("b"%char, "c"%char);
                     ("c"%char, "a"%char)]))
    (inverse_letters [("a"%char, "b"%char); ("b"%char, "c"%char);
                      ("c"%char, "a"%char)])
  = lit "a cab!".
Proof.
  destruct (substitute_alphabet_inverse (lit "a cab!")
              [("a"%char, "b"%char); ("b"%char, "c"%char);
               ("c"%char, "a"%char)]) as [_ H].
  apply H.
  - repeat constructor; simpl; intuition discriminate.
  - repeat constructor; simpl; intuition discriminate.
  - intros c Hc. simpl in Hc.
    destruct Hc as [<-|[<-|[<-|[<-|[<-|[<-|[]]]]]]]; simpl;
      try (left; tauto); right; intuition discriminate.
Defined.

End Substitution.

Section FrequencyPipeline.

Lemma leading_nonzero_le (sc : list (ascii * Z)) :
  (leading_nonzero sc <= length sc)%nat.
Proof.
  induction sc as [|[l c] sc IH]; simpl; [lia|].
  destruct (c =? 0); simpl; lia.
Qed.

(** Before the first count of 0 no count is 0. *)
Lemma leading_nonzero_before (sc : list (ascii * Z)) :
  forall i l c,
    (i < leading_nonzero sc)%nat -> nth_error sc i = Some (l, c) -> c <> 0.
Proof.
  induction sc as [|[l0 c0] sc IH]; intros i l c Hi Hnth;
    [simpl in Hi; lia|].
  cbn [leading_nonzero] in Hi. destruct (c0 =? 0) eqn:E; [lia|].
  destruct i as [|i]; cbn [nth_error] in Hnth.
  - inversion Hnth. subst. apply Z.eqb_neq. exact E.
  - apply (IH i l c); [lia | exact Hnth].
Qed.

(** In a list sorted by count, without negative counts, every count from
    the first 0 on is 0. *)
Lemma leading_nonzero_after (sc : list (ascii * Z)) :
  StronglySorted (fun a b => snd b <= snd a) sc ->
  Forall (fun e => 0 <= snd e) sc ->
  forall i l c,
    (leading_nonzero sc <= i)%nat -> nth_error sc i = Some (l, c) -> c = 0.
Proof.
  induction 1 as [|[l0 c0] sc Hs IH Hhd]; intros Hpos i l c Hi Hnth.
  - destruct i; discriminate.
  - inversion Hpos as [|? ? Hc0 Hpos']. subst. cbn [snd] in *.
    cbn [leading_nonzero] in Hi. destruct (c0 =? 0) eqn:E.
    + apply Z.eqb_eq in E. subst c0.
      apply nth_error_In in Hnth. destruct Hnth as [H|H].
      * inversion H. reflexivity.
      * rewrite Forall_forall in Hhd, Hpos'.
        specialize (Hhd _ H). specialize (Hpos' _ H). cbn [snd] in *. lia.
    + destruct i as [|i]; [lia|]. cbn [nth_error] in Hnth.
      apply (IH Hpos' i l c); [lia | exact Hnth].
Qed.

Lemma NoDup_nth_error_fst (sc : list (ascii * Z)) (i j : nat) (l : ascii)
  (c c' : Z) :
  NoDup (map fst sc) ->
  nth_error sc i = Some (l, c) -> nth_error sc j = Some (l, c') -> i = j.
Proof.
  intros Hnd Hi Hj.
  apply (proj1 (NoDup_nth_error (map fst sc)) Hnd).
  - rewrite length_map. apply nth_error_Some. congruence.
  - rewrite !nth_error_map, Hi, Hj. reflexivity.
Qed.

Lemma letters_NoDup : NoDup letters_by_english_frequency.
Proof.
  unfold letters_by_english_frequency, lit. simpl.
  repeat (constructor; [simpl; intuition discriminate|]). constructor.
Qed.

(** X23: the frequency attack, put together: for every text,
    get_letter_counts, sort_dict_of_str_to_int and naive_substitution
    return a dict in which a capital that does not occur in the upper-cased
    text is mapped to '-', a capital that occurs is mapped to the letter of
    ETAOINSHRDLCUMWFGYPBVKJXQZ at its position in the sorted counts, and
    two different capitals that occur are mapped to different letters. *)
Theorem frequency_substitution (text : str) :
  exists counts cipher,
    get_letter_counts text = Ok counts
    /\ naive_substitution (sort_dict_of_str_to_int counts) = Ok cipher
    /\ (forall L,
          is_upper L = true -> aget Ascii.eqb counts L = Some 0 ->
          aget Ascii.eqb cipher L = Some (lit "-"))
    /\ (forall L n,
          is_upper L = true -> aget Ascii.eqb counts L = Some n -> n <> 0 ->
          exists i plain,
            nth_error (sort_dict_of_str_to_int counts) i = Some (L, n)
            /\ nth_error letters_by_english_frequency i = Some plain
            /\ aget Ascii.eqb cipher L = Some [plain])
    /\ (forall L1 L2 n1 n2,
          is_upper L1 = true -> is_upper L2 = true ->
          aget Ascii.eqb counts L1 = Some n1 -> n1 <> 0 ->
          aget Ascii.eqb counts L2 = Some n2 -> n2 <> 0 ->
          aget Ascii.eqb cipher L1 = aget Ascii.eqb cipher L2 -> L1 = L2).
Proof.
  destruct (count_letters_spec (upper text) zero_counts)
    as (counts & Hrun & Hfst & Hget).
  { intros L HL. rewrite zero_counts_get, HL. eauto. }
  set (sc := sort_dict_of_str_to_int counts).
  assert (Hperm : Permutation counts sc).
  { unfold sc, sort_dict_of_str_to_int.
    clear. induction counts as [|x l IH]; cbn [fold_right]; [constructor|].
    apply perm_trans with (x :: fold_right insert_by_value [] l).
    - apply perm_skip. exact IH.
    - apply insert_by_value_perm. }
  assert (Hsorted : StronglySorted (fun a b => snd b <= snd a) sc).
  { unfold sc, sort_dict_of_str_to_int.
    clear. induction counts as [|x l IH]; cbn [fold_right]; [constructor|].
    apply insert_by_value_sorted. exact IH. }
  assert (Hkeys : map fst counts = map fst zero_counts) by exact Hfst.
  assert (Hnd0 : NoDup (map fst counts)).
  { rewrite Hkeys. vm_compute.
    repeat (constructor; [simpl; intuition discriminate|]). constructor. }
  assert (Hnd : NoDup (map fst sc)).
  { apply (Permutation_NoDup (Permutation_map fst Hperm)). exact Hnd0. }
  assert (Hlen : length sc = 26%nat).
  { rewrite <- (Permutation_length Hperm), <- (length_map fst), Hkeys.
    reflexivity. }
  assert (Hpos : Forall (fun e => 0 <= snd e) sc).
  { apply Forall_forall. intros [L n] Hin. cbn [snd].
    apply (Permutation_in _ (Permutation_sym Hperm)) in Hin.
    pose proof (In_aget counts L n Hnd0 Hin) as Hn.
    assert (HL : is_upper L = true).
    { apply (in_map fst) in Hin. rewrite Hkeys in Hin. cbn [fst] in Hin.
      destruct (is_upper L) eqn:E; [reflexivity|].
      exfalso. revert Hin. apply aget_None. rewrite zero_counts_get, E.
      reflexivity. }
    rewrite (Hget L 0 HL) in Hn
      by (rewrite zero_counts_get, HL; reflexivity).
    inversion Hn. lia. }
  destruct (naive_substitution_by_rank_aux sc Hnd) as (cipher & Hc & Hass & Hoth).
  { pose proof (leading_nonzero_le sc). lia. }
  assert (Hplace : forall L n, aget Ascii.eqb counts L = Some n ->
                     exists i, nth_error sc i = Some (L, n)).
  { intros L n Hn. apply In_nth_error.
    apply (Permutation_in _ Hperm). apply aget_In. exact Hn. }
  assert (Hocc : forall L n, aget Ascii.eqb counts L = Some n -> n <> 0 ->
                   exists i plain,
                     nth_error sc i = Some (L, n)
                     /\ nth_error letters_by_english_frequency i = Some plain
                     /\ aget Ascii.eqb cipher L = Some [plain]).
  { intros L n Hn Hne. destruct (Hplace L n Hn) as [i Hi].
    assert (Hlt : (i < leading_nonzero sc)%nat).
    { destruct (Nat.lt_ge_cases i (leading_nonzero sc)) as [|Hge];
        [assumption|].
      exfalso. apply Hne.
      exact (leading_nonzero_after sc Hsorted Hpos i L n Hge Hi). }
    destruct (Hass i L n Hlt Hi) as (plain & Hp1 & Hp2).
    exists i, plain. auto. }
  exists counts, cipher. split; [exact Hrun|]. split; [exact Hc|].
  split; [|split].
  - intros L HL Hn. apply Hoth; [exact HL|].
    intros Hin. apply in_map_iff in Hin.
    destruct Hin as ([L' n'] & Heq & Hin). cbn [fst] in Heq. subst L'.
    apply In_nth_error in Hin. destruct Hin as [i Hi].
    assert (Hi' : (i < leading_nonzero sc)%nat).
    { assert (Hl : (i < length (firstn (leading_nonzero sc) sc))%nat)
        by (apply nth_error_Some; congruence).
      pose proof (firstn_le_length (leading_nonzero sc) sc). lia. }
    rewrite nth_error_firstn in Hi.
    replace (i <? leading_nonzero sc)%nat with true in Hi
      by (symmetry; apply Nat.ltb_lt; exact Hi').
    destruct (Hplace L 0 Hn) as [j Hj].
    pose proof (NoDup_nth_error_fst sc i j L n' 0 Hnd Hi Hj). subst j.
    rewrite Hi in Hj. inversion Hj. subst n'.
    exact (leading_nonzero_before sc i L 0 Hi' Hi eq_refl).
  - intros L n _ Hn Hne. exact (Hocc L n Hn Hne).
  - intros L1 L2 n1 n2 _ _ H1 Hne1 H2 Hne2 Heq.
    destruct (Hocc L1 n1 H1 Hne1) as (i1 & p1 & Hi1 & Hp1 & Hc1).
    destruct (Hocc L2 n2 H2 Hne2) as (i2 & p2 & Hi2 & Hp2 & Hc2).
    rewrite Hc1, Hc2 in Heq. inversion Heq. subst p2.
    assert (i1 = i2).
    { apply (proj1 (NoDup_nth_error letters_by_english_frequency)
               letters_NoDup).
      - apply nth_error_Some. congruence.
      - congruence. }
    subst i2. rewrite Hi1 in Hi2. inversion Hi2. reflexivity.
Qed.

End FrequencyPipeline.

(** ** n-graphs *)

Section NGraphs.

Lemma aget_str_aset (d : list (str * Z)) (k k' : str) (v : Z) :
  aget str_eqb (aset str_eqb d k v) k'
  = if str_eqb k k' then Some v else aget str_eqb d k'.
Proof.
  induction d as [|[k0 v0] d IH]; simpl.
  - reflexivity.
  - destruct (str_eqb k0 k) eqn:E0; simpl.
    + apply str_eqb_eq in E0. subst.
      destruct (str_eqb k k'); reflexivity.
    + destruct (str_eqb k0 k') eqn:E1.
      * apply str_eqb_eq in E1. subst. rewrite str_eqb_sym, E0.
        reflexivity.
      * exact IH.
Qed.

Lemma aget_str_None (d : list (str * Z)) (k : str) :
  aget str_eqb d k = None <-> ~ In k (map fst d).
Proof.
  induction d as [|[k0 v0] d IH]; simpl; [tauto|].
  destruct (str_eqb k0 k) eqn:E.
  - apply str_eqb_eq in E. subst. split; [discriminate | tauto].
  - apply str_eqb_neq in E. rewrite IH. tauto.
Qed.

Lemma aset_str_fresh (d : list (str * Z)) (k : str) (v : Z) :
  aget str_eqb d k = None -> aset str_eqb d k v = d ++ [(k, v)].
Proof.
  induction d as [|[k0 v0] d IH]; simpl; [reflexivity|].
  destruct (str_eqb k0 k); [discriminate|].
  intros H. rewrite IH by exact H. reflexivity.
Qed.

Lemma map_fst_aset_str_present (d : list (str * Z)) (k : str) (v w : Z) :
  aget str_eqb d k = Some w ->
  map fst (aset str_eqb d k v) = map fst d.
Proof.
  induction d as [|[k0 v0] d IH]; simpl; [discriminate|].
  destruct (str_eqb k0 k); simpl; [reflexivity|].
  intros H. rewrite IH by exact H. reflexivity.
Qed.

Lemma In_aset_str (d : list (str * Z)) (k : str) (v : Z) (e : str * Z) :
  In e (aset str_eqb d k v) -> e = (k, v) \/ In e d.
Proof.
  induction d as [|[k0 v0] d IH]; simpl.
  - intros [H|[]]. left. congruence.
  - destruct (str_eqb k0 k) eqn:E; simpl.
    + apply str_eqb_eq in E. subst. intros [H|H]; [left; congruence | tauto].
    + intros [H|H]; [tauto|]. destruct (IH H); tauto.
Qed.

(** *** The counts of a pattern table *)

Lemma aget_occurrence_counts (t : table) (g : str) :
  aget str_eqb (occurrence_counts t) g = option_map Zlen (dict_get t g).
Proof.
  induction t as [|[k v] t IH]; simpl; [reflexivity|].
  destruct (str_eqb k g); [reflexivity | exact IH].
Qed.

Lemma aset_occurrence_counts (t : table) (g : str) (v : list Z) :
  aset str_eqb (occurrence_counts t) g (Zlen v)
  = occurrence_counts (dict_set t g v).
Proof.
  induction t as [|[k v0] t IH]; simpl; [reflexivity|].
  destruct (str_eqb k g); simpl; [reflexivity|].
  rewrite IH. reflexivity.
Qed.

Lemma Zlen_snoc (v : list Z) (i : Z) : Zlen (v ++ [i]) = Zlen v + 1.
Proof. unfold Zlen. rewrite length_app. simpl. lia. Qed.

(** One step of the loop of get_n_graphs is one step of the first loop of
    initialize_patterns, seen through the lengths. *)
Lemma n_graphs_of_word_collect (text : str) (n : Z) :
  1 <= n ->
  forall k i t fuel,
    (k < fuel)%nat -> (i + k = length text)%nat ->
    n_graphs_of_word fuel text n (Z.of_nat i) (occurrence_counts t)
    = Ok (occurrence_counts (collect_patterns text n (seq i k) t)).
Proof.
  intros Hn. induction k as [|k IH]; intros i t fuel Hf Hik;
    (destruct fuel as [|fuel]; [lia|]); cbn [n_graphs_of_word].
  - replace (Z.of_nat i + n <=? Zlen text) with false; [reflexivity|].
    symmetry. apply Z.leb_gt. unfold Zlen. lia.
  - cbn [seq collect_patterns]. rewrite Z.gtb_ltb.
    destruct (Z.of_nat i + n <=? Zlen text) eqn:E.
    + apply Z.leb_le in E.
      replace (Zlen text <? Z.of_nat i + n) with false
        by (symmetry; apply Z.ltb_ge; exact E).
      replace (Z.of_nat i + 1) with (Z.of_nat (S i)) by lia.
      set (g := slice text (Z.of_nat i) (Z.of_nat i + n)).
      unfold count_n_graph. rewrite aget_occurrence_counts.
      destruct (dict_get t g) as [v|] eqn:G; cbn [option_map].
      * rewrite <- Zlen_snoc with (i := Z.of_nat i).
        rewrite aset_occurrence_counts. apply IH; lia.
      * change 1 with (Zlen [Z.of_nat i]).
        rewrite aset_occurrence_counts. apply IH; lia.
    + apply Z.leb_gt in E.
      replace (Zlen text <? Z.of_nat i + n) with true
        by (symmetry; apply Z.ltb_lt; exact E).
      reflexivity.
Qed.

(** *** The two sorts *)

Lemma occurrence_counts_insert (x : str * list Z) (l : table) :
  occurrence_counts (insert_by_count x l)
  = insert_by_value (fst x, Zlen (snd x)) (occurrence_counts l).
Proof.
  induction l as [|y l IH]; simpl; [reflexivity|].
  destruct (Zlen (snd y) >? Zlen (snd x)); simpl; [rewrite IH|]; reflexivity.
Qed.

Lemma occurrence_counts_sort (l : table) :
  occurrence_counts (sort_by_count l)
  = sort_dict_of_str_to_int (occurrence_counts l).
Proof.
  induction l as [|x l IH]; [reflexivity|].
  cbn [sort_by_count fold_right]. fold (sort_by_count l).
  rewrite occurrence_counts_insert, IH. reflexivity.
Qed.

Lemma sort_dict_sorted {K : Type} (l : list (K * Z)) :
  StronglySorted (fun a b => snd b <= snd a) (sort_dict_of_str_to_int l).
Proof.
  induction l as [|x l IH]; cbn [sort_dict_of_str_to_int fold_right];
    [constructor|].
  apply insert_by_value_sorted. exact IH.
Qed.

Lemma insert_by_value_head {K : Type} (x : K * Z) (m : list (K * Z)) :
  Forall (fun z => snd z <= snd x) m -> insert_by_value x m = x :: m.
Proof.
  destruct m as [|y m]; [reflexivity|].
  intros H. inversion H as [|? ? Hy _]. subst. cbn [insert_by_value].
  replace (snd y >? snd x) with false; [reflexivity|].
  symmetry. rewrite Z.gtb_ltb. apply Z.ltb_ge. exact Hy.
Qed.

Lemma filter_insert_sorted {K : Type} (P : K * Z -> bool) (x : K * Z)
  (s : list (K * Z)) :
  StronglySorted (fun a b => snd b <= snd a) s ->
  filter P (insert_by_value x s)
  = if P x then insert_by_value x (filter P s) else filter P s.
Proof.
  induction 1 as [|y s Hs IH Hy]; cbn [insert_by_value filter].
  - destruct (P x); reflexivity.
  - destruct (snd y >? snd x) eqn:E; cbn [filter].
    + rewrite IH. destruct (P x), (P y); cbn [insert_by_value];
        try rewrite E; reflexivity.
    + destruct (P x); [|reflexivity].
      rewrite Z.gtb_ltb in E. apply Z.ltb_ge in E.
      rewrite insert_by_value_head; [reflexivity|].
      apply Forall_forall. intros z Hz.
      assert (Hin : In z (y :: s)).
      { destruct (P y); [|right]; try (apply filter_In in Hz; tauto).
        destruct Hz as [->|Hz]; [left; reflexivity|].
        right. apply filter_In in Hz. tauto. }
      destruct Hin as [<-|Hin]; [exact E|].
      rewrite Forall_forall in Hy. specialize (Hy z Hin). lia.
Qed.

Lemma filter_sort {K : Type} (P : K * Z -> bool) (l : list (K * Z)) :
  filter P (sort_dict_of_str_to_int l)
  = sort_dict_of_str_to_int (filter P l).
Proof.
  induction l as [|x l IH]; [reflexivity|].
  cbn [sort_dict_of_str_to_int fold_right filter].
  fold (sort_dict_of_str_to_int l).
  rewrite filter_insert_sorted by apply sort_dict_sorted.
  rewrite IH. destruct (P x); reflexivity.
Qed.

Lemma dict_set_fresh (d : table) (k : str) (v : list Z) :
  ~ In k (keys d) -> dict_set d k v = d ++ [(k, v)].
Proof.
  induction d as [|[k0 v0] d IH]; simpl; [reflexivity|].
  intros H. destruct (str_eqb k0 k) eqn:E.
  - apply str_eqb_eq in E. subst. tauto.
  - rewrite IH by tauto. reflexivity.
Qed.

(** On a sorted table with distinct keys, copying until the first pattern
    that occurs once keeps the patterns that occur more than once. *)
Lemma keep_repeated_filter (s : table) :
  StronglySorted (fun x y => Zlen (snd y) <= Zlen (snd x)) s ->
  forall acc,
    NoDup (keys (acc ++ s)) ->
    keep_repeated s acc
    = acc ++ filter (fun kv => Zlen (snd kv) >? 1) s.
Proof.
  induction 1 as [|x s Hs IH Hx]; intros acc Hnd; cbn [keep_repeated filter].
  - rewrite app_nil_r. reflexivity.
  - rewrite Z.gtb_ltb. destruct (Zlen (snd x) <=? 1) eqn:E.
    + apply Z.leb_le in E.
      replace (1 <? Zlen (snd x)) with false
        by (symmetry; apply Z.ltb_ge; exact E).
      replace (filter _ s) with (@nil (str * list Z));
        [rewrite app_nil_r; reflexivity|].
      symmetry. clear IH Hs Hnd. induction s as [|z s IHs]; [reflexivity|].
      inversion Hx as [|? ? Hz Hx']. subst. cbn [filter].
      replace (Zlen (snd z) >? 1) with false;
        [exact (IHs Hx')|].
      symmetry. rewrite Z.gtb_ltb. apply Z.ltb_ge. lia.
    + apply Z.leb_gt in E.
      replace (1 <? Zlen (snd x)) with true
        by (symmetry; apply Z.ltb_lt; exact E).
      assert (Hfresh : ~ In (fst x) (keys acc)).
      { unfold keys in *. rewrite map_app in Hnd. cbn [map] in Hnd.
        apply NoDup_remove_2 in Hnd. intros H. apply Hnd.
        apply in_or_app. left. exact H. }
      rewrite dict_set_fresh by exact Hfresh.
      rewrite <- surjective_pairing. rewrite IH.
      * rewrite <- app_assoc. reflexivity.
      * rewrite <- app_assoc. exact Hnd.
Qed.

Lemma occurrence_counts_filter (l : table) :
  occurrence_counts (filter (fun kv => Zlen (snd kv) >? 1) l)
  = filter (fun x => snd x >? 1) (occurrence_counts l).
Proof.
  induction l as [|x l IH]; [reflexivity|].
  cbn [filter occurrence_counts map snd].
  destruct (Zlen (snd x) >? 1); cbn [map]; fold (occurrence_counts l);
    unfold occurrence_counts in *; rewrite IH; reflexivity.
Qed.

(** X24: on a single text and for n-graphs of at least one character,
    get_n_graphs_by_count of cipher_tools.py and initialize_patterns of
    vigenere_cracking.py find the same repeated patterns, in the same
    order: the counts of the one are the lengths of the occurrence lists
    of the other. *)
Theorem get_n_graphs_by_count_initialize_patterns (fuel : nat) (text : str)
  (n : Z) :
  1 <= n -> (length text < fuel)%nat ->
  get_n_graphs_by_count fuel [text] n
  = Ok (occurrence_counts (initialize_patterns text n)).
Proof.
  intros Hn Hfuel.
  unfold get_n_graphs_by_count, get_n_graphs. cbn [n_graphs_of_words].
  pose proof (n_graphs_of_word_collect text n Hn (length text) 0 [] fuel
                Hfuel eq_refl) as Hsim.
  cbn [occurrence_counts map Z.of_nat] in Hsim. rewrite Hsim.
  cbn [bind]. f_equal. unfold initialize_patterns, repeated_by_count.
  set (C := collect_patterns text n (seq 0 (length text)) []).
  assert (HndC : NoDup (keys C)).
  { apply collect_patterns_NoDup. constructor. }
  rewrite keep_repeated_filter.
  - cbn [app]. rewrite occurrence_counts_filter, occurrence_counts_sort.
    rewrite filter_sort. reflexivity.
  - apply sort_by_count_sorted.
  - cbn [app]. apply NoDup_keys_sort_by_count. exact HndC.
Qed.

End NGraphs.

Lemma get_n_graphs_by_count_initialize_patterns_witness :
  get_n_graphs_by_count 10 [lit "abcabcab"] 3
  = Ok (occurrence_counts (initialize_patterns (lit "abcabcab") 3)).
Proof.
  apply get_n_graphs_by_count_initialize_patterns; [lia | simpl; lia].
Defined.

Section NGraphCounts.

Lemma aget_str_In (d : list (str * Z)) (k : str) (v : Z) :
  aget str_eqb d k = Some v -> In (k, v) d.
Proof.
  induction d as [|[k0 v0] d IH]; simpl; [discriminate|].
  destruct (str_eqb k0 k) eqn:E.
  - apply str_eqb_eq in E. subst. intros H. inversion H. auto.
  - auto.
Qed.

Lemma count_of_count_n_graph (d : list (str * Z)) (g g' : str) :
  count_of (count_n_graph d g) g'
  = count_of d g' + (if str_eqb g g' then 1 else 0).
Proof.
  unfold count_of, count_n_graph.
  destruct (aget str_eqb d g) as [c|] eqn:G; rewrite aget_str_aset;
    destruct (str_eqb g g') eqn:E; try lia.
  - apply str_eqb_eq in E. subst g'. rewrite G. reflexivity.
  - apply str_eqb_eq in E. subst g'. rewrite G. reflexivity.
Qed.

Lemma count_n_graph_positive (d : list (str * Z)) (g : str) :
  Forall (fun kv => 0 < snd kv) d ->
  Forall (fun kv => 0 < snd kv) (count_n_graph d g).
Proof.
  intros Hd. apply Forall_forall. intros e He. rewrite Forall_forall in Hd.
  unfold count_n_graph in He.
  destruct (aget str_eqb d g) as [c|] eqn:G; apply In_aset_str in He;
    destruct He as [->|He]; auto; cbn [snd]; [|lia].
  apply aget_str_In in G. specialize (Hd _ G). cbn [snd] in Hd. lia.
Qed.

Lemma count_n_graph_NoDup (d : list (str * Z)) (g : str) :
  NoDup (map fst d) -> NoDup (map fst (count_n_graph d g)).
Proof.
  intros Hd. unfold count_n_graph.
  destruct (aget str_eqb d g) as [c|] eqn:G.
  - rewrite (map_fst_aset_str_present d g (c + 1) c G). exact Hd.
  - rewrite aset_str_fresh by exact G. rewrite map_app. cbn [map fst].
    apply NoDup_app; [exact Hd | repeat constructor; simpl; tauto |].
    intros a Ha [<-|[]]. apply aget_str_None in G. tauto.
Qed.

Lemma count_of_fold (gs : list str) :
  forall d g,
    count_of (fold_left count_n_graph gs d) g = count_of d g + count_in gs g.
Proof.
  unfold count_in.
  induction gs as [|x gs IH]; intros d g; cbn [fold_left filter].
  - unfold Zlen. simpl. lia.
  - rewrite IH, count_of_count_n_graph.
    destruct (str_eqb x g); unfold Zlen; cbn [length]; lia.
Qed.

(** The dict that counting a list of n-graphs one by one builds. *)
Lemma fold_count_n_graph_spec (gs : list str) :
  NoDup (map fst (fold_left count_n_graph gs []))
  /\ forall g c,
       aget str_eqb (fold_left count_n_graph gs []) g = Some c
       <-> 0 < c /\ c = count_in gs g.
Proof.
  set (d := fold_left count_n_graph gs []).
  assert (Hnd : NoDup (map fst d)).
  { apply fold_left_invariant; [|constructor].
    intros s x _. apply count_n_graph_NoDup. }
  assert (Hpos : Forall (fun kv => 0 < snd kv) d).
  { apply fold_left_invariant; [|constructor].
    intros s x _. apply count_n_graph_positive. }
  assert (Hcount : forall g, count_of d g = count_in gs g).
  { intros g. unfold d. rewrite count_of_fold. reflexivity. }
  split; [exact Hnd|]. intros g c. specialize (Hcount g).
  unfold count_of in Hcount. split.
  - intros G. rewrite G in Hcount. split; [|exact Hcount].
    apply aget_str_In in G. rewrite Forall_forall in Hpos.
    exact (Hpos _ G).
  - intros [Hc ->]. destruct (aget str_eqb d g) as [c'|]; [|lia].
    rewrite Hcount. reflexivity.
Qed.

Lemma count_in_app (gs hs : list str) (g : str) :
  count_in (gs ++ hs) g = count_in gs g + count_in hs g.
Proof.
  unfold count_in, Zlen. rewrite filter_app, length_app. lia.
Qed.

Lemma count_in_nonneg (gs : list str) (g : str) : 0 <= count_in gs g.
Proof. unfold count_in, Zlen. lia. Qed.

(** *** get_n_graphs *)

Lemma range_from_S (a : Z) (k : nat) :
  range_from a (S k) = a :: range_from (a + 1) k.
Proof.
  unfold range_from. cbn [seq map]. rewrite <- seq_shift, map_map.
  f_equal; [simpl; lia|]. apply map_ext. intros i. lia.
Qed.

Lemma n_graphs_of_word_fold (w : str) (n : Z) :
  forall k index d fuel,
    (k < fuel)%nat -> k = Z.to_nat (Zlen w - n + 1 - index) ->
    n_graphs_of_word fuel w n index d
    = Ok (fold_left count_n_graph
            (map (fun i => slice w i (i + n)) (range_from index k)) d).
Proof.
  induction k as [|k IH]; intros index d fuel Hf Hk;
    (destruct fuel as [|fuel]; [lia|]); cbn [n_graphs_of_word].
  - replace (index + n <=? Zlen w) with false; [reflexivity|].
    symmetry. apply Z.leb_gt. lia.
  - replace (index + n <=? Zlen w) with true
      by (symmetry; apply Z.leb_le; lia).
    rewrite range_from_S. cbn [map fold_left]. apply IH; lia.
Qed.

Lemma n_graphs_of_words_fold (fuel : nat) (n : Z) (words : list str) :
  Forall (fun w => (Z.to_nat (Zlen w - n + 1) < fuel)%nat) words ->
  forall d,
    n_graphs_of_words fuel words n d
    = Ok (fold_left count_n_graph (flat_map (windows n) words) d).
Proof.
  induction 1 as [|w words Hw _ IH]; intros d; [reflexivity|].
  cbn [n_graphs_of_words flat_map].
  rewrite (n_graphs_of_word_fold w n (Z.to_nat (Zlen w - n + 1)) 0 d fuel Hw)
    by (f_equal; lia).
  cbn [bind]. rewrite IH, fold_left_app. reflexivity.
Qed.

Lemma length_filter_map {X Y : Type} (f : Y -> bool) (h : X -> Y)
  (l : list X) :
  length (filter f (map h l)) = length (filter (fun x => f (h x)) l).
Proof.
  induction l as [|x l IH]; [reflexivity|].
  cbn [map filter]. destruct (f (h x)); cbn [length]; rewrite IH; reflexivity.
Qed.

Lemma filter_none {X : Type} (f : X -> bool) (l : list X) :
  (forall x, In x l -> f x = false) -> filter f l = [].
Proof.
  induction l as [|x l IH]; intros H; [reflexivity|].
  cbn [filter]. rewrite (H x) by (left; reflexivity).
  apply IH. intros y Hy. apply H. right. exact Hy.
Qed.

(** For n-graphs of at least one character, the windows of a word that are
    equal to [g] are the matches of [g] at the indices of the word. *)
Lemma count_in_windows (w g : str) (n : Z) :
  1 <= n -> Zlen g = n ->
  count_in (windows n w) g = Zlen (find_matches w g (range (length w))).
Proof.
  intros Hn Hg. unfold count_in, windows, find_matches, range, range_from, Zlen.
  f_equal. rewrite map_map, !length_filter_map.
  set (k := Z.to_nat (Z.of_nat (length w) - n + 1)).
  assert (Hk : (k <= length w)%nat) by (unfold k; lia).
  assert (Hsplit : seq 0 (length w)
                   = seq 0 k ++ seq (0 + k) (length w - k)).
  { rewrite <- seq_app. f_equal. lia. }
  rewrite Hsplit, filter_app, length_app.
  rewrite (filter_none _ (seq (0 + k) (length w - k))).
  - cbn [length]. rewrite Nat.add_0_r. f_equal.
    apply filter_ext_in. intros i Hi. apply in_seq in Hi.
    fold (Zlen g). rewrite Hg. fold (Zlen w).
    replace (Z.of_nat i + n >? Zlen w) with false.
    + cbn [negb andb]. reflexivity.
    + symmetry. rewrite Z.gtb_ltb. apply Z.ltb_ge. unfold Zlen, k in *. lia.
  - intros i Hi. apply in_seq in Hi. fold (Zlen g). rewrite Hg.
    replace (Z.of_nat i + n >? Z.of_nat (length w)) with true;
      [reflexivity|].
    symmetry. rewrite Z.gtb_ltb. apply Z.ltb_lt. unfold k in *. lia.
Qed.

Lemma windows_length (w g : str) (n : Z) :
  0 <= n -> In g (windows n w) -> Zlen g = n.
Proof.
  intros Hn Hin. unfold windows, range_from in Hin.
  rewrite map_map in Hin. apply in_map_iff in Hin.
  destruct Hin as (i & <- & Hi). apply in_seq in Hi.
  rewrite Zlen_slice; unfold Zlen in *; lia.
Qed.

Lemma count_in_zero (gs : list str) (g : str) :
  ~ In g gs -> count_in gs g = 0.
Proof.
  intros H. unfold count_in. rewrite filter_none; [reflexivity|].
  intros x Hx. apply str_eqb_neq. intros ->. tauto.
Qed.

Lemma count_in_flat_windows (words : list str) (g : str) (n : Z) :
  1 <= n ->
  count_in (flat_map (windows n) words) g
  = if Zlen g =? n then occurrences_in words g else 0.
Proof.
  intros Hn. destruct (Zlen g =? n) eqn:E.
  - apply Z.eqb_eq in E.
    induction words as [|w words IH]; [reflexivity|].
    cbn [flat_map]. rewrite count_in_app, IH, (count_in_windows w g n Hn E).
    reflexivity.
  - apply Z.eqb_neq in E. apply count_in_zero. intros Hin.
    apply in_flat_map in Hin. destruct Hin as (w & _ & Hw).
    apply E. apply (windows_length w g n); [lia | exact Hw].
Qed.

(** X25: get_n_graphs with n of at least 1 returns once the fuel exceeds
    the length of every word, with distinct keys; a string is a key exactly
    when it has n characters and occurs in some word, and its count is the
    number of its occurrences in all the words, as find_matches finds them
    over the indices of each word. *)
Theorem get_n_graphs_counts (fuel : nat) (words : list str) (n : Z) :
  1 <= n ->
  Forall (fun w => (length w < fuel)%nat) words ->
  exists n_graphs,
    get_n_graphs fuel words n = Ok n_graphs
    /\ NoDup (map fst n_graphs)
    /\ forall g c,
         aget str_eqb n_graphs g = Some c
         <-> Zlen g = n /\ 0 < c /\ c = occurrences_in words g.
Proof.
  intros Hn Hfuel. unfold get_n_graphs.
  rewrite n_graphs_of_words_fold.
  - eexists. split; [reflexivity|].
    destruct (fold_count_n_graph_spec (flat_map (windows n) words))
      as [Hnd Hspec].
    split; [exact Hnd|]. intros g c. rewrite Hspec.
    rewrite (count_in_flat_windows words g n Hn).
    destruct (Zlen g =? n) eqn:E.
    + apply Z.eqb_eq in E. tauto.
    + apply Z.eqb_neq in E. split; [lia | tauto].
  - revert Hfuel. apply Forall_impl. intros w Hw. unfold Zlen. lia.
Qed.

End NGraphCounts.

Lemma get_n_graphs_counts_witness :
  exists n_graphs,
    get_n_graphs 8 [lit "banana"; lit "bandana"] 2 = Ok n_graphs
    /\ NoDup (map fst n_graphs)
    /\ forall g c,
         aget str_eqb n_graphs g = Some c
         <-> Zlen g = 2 /\ 0 < c
             /\ c = occurrences_in [lit "banana"; lit "bandana"] g.
Proof.
  apply get_n_graphs_counts; [lia|].
  repeat constructor; simpl; lia.
Defined.

Section NGraphEnds.

Lemma str_eqb_rev (k g : str) : str_eqb (rev k) (rev g) = str_eqb k g.
Proof.
  destruct (str_eqb k g) eqn:E.
  - apply str_eqb_eq in E. subst. apply str_eqb_refl.
  - apply str_eqb_neq. apply str_eqb_neq in E. intros H. apply E.
    rewrite <- (rev_involutive k), <- (rev_involutive g), H. reflexivity.
Qed.

Lemma aget_reverse_keys (d : list (str * Z)) (g : str) :
  aget str_eqb (reverse_keys d) (rev g) = aget str_eqb d g.
Proof.
  induction d as [|[k v] d IH]; simpl; [reflexivity|].
  rewrite str_eqb_rev, IH. reflexivity.
Qed.

Lemma aset_reverse_keys (d : list (str * Z)) (g : str) (v : Z) :
  aset str_eqb (reverse_keys d) (rev g) v = reverse_keys (aset str_eqb d g v).
Proof.
  induction d as [|[k v0] d IH]; simpl; [reflexivity|].
  rewrite str_eqb_rev. destruct (str_eqb k g); simpl; [reflexivity|].
  rewrite IH. reflexivity.
Qed.

Lemma count_n_graph_reverse (d : list (str * Z)) (g : str) :
  count_n_graph (reverse_keys d) (rev g) = reverse_keys (count_n_graph d g).
Proof.
  unfold count_n_graph. rewrite aget_reverse_keys.
  destruct (aget str_eqb d g); apply aset_reverse_keys.
Qed.

Lemma Zlen_rev {A : Type} (l : list A) : Zlen (rev l) = Zlen l.
Proof. unfold Zlen. rewrite length_rev. reflexivity. Qed.

(** The last n characters of a word are the first n of the reversed word,
    reversed. *)
Lemma slice_suffix_rev (w : str) (n : Z) :
  0 <= n <= Zlen w ->
  slice w (Zlen w - n) (Zlen w - n + n) = rev (slice (rev w) 0 (0 + n)).
Proof.
  intros Hn. rewrite !slice_nonneg by lia. unfold Zlen in *.
  cbn [Z.to_nat skipn].
  rewrite firstn_all2 by (rewrite length_skipn; lia).
  replace (Z.to_nat (0 + n - 0)) with (Z.to_nat n) by lia.
  rewrite firstn_rev, rev_involutive. f_equal. lia.
Qed.

(** X26: for n of at least 0, get_n_graph_suffixes is get_n_graph_prefixes
    on the reversed words, with the keys reversed, entry by entry and in
    the same order; for a negative n, get_n_graph_suffixes skips every word
    and returns the empty dict. *)
Theorem get_n_graph_suffixes_reversed_prefixes (words : list str) (n : Z) :
  (0 <= n ->
   get_n_graph_suffixes words n
   = reverse_keys (get_n_graph_prefixes (map (@rev ascii) words) n))
  /\ (n < 0 -> get_n_graph_suffixes words n = []).
Proof.
  unfold get_n_graph_suffixes, get_n_graph_prefixes. split.
  - intros Hn. change (@nil (str * Z)) with (reverse_keys []) at 1.
    generalize (@nil (str * Z)) as d.
    induction words as [|w words IH]; intros d; [reflexivity|].
    cbn [map fold_left]. rewrite Zlen_rev.
    pose proof (Zlen_nonneg w) as Hw.
    destruct (0 + n >? Zlen w) eqn:E.
    + rewrite Z.gtb_ltb in E. apply Z.ltb_lt in E.
      replace (Zlen w - n <? 0) with true
        by (symmetry; apply Z.ltb_lt; lia).
      cbn [orb]. apply IH.
    + rewrite Z.gtb_ltb in E. apply Z.ltb_ge in E.
      replace (Zlen w - n <? 0) with false
        by (symmetry; apply Z.ltb_ge; lia).
      replace (Zlen w - n >? Zlen w) with false
        by (symmetry; rewrite Z.gtb_ltb; apply Z.ltb_ge; lia).
      cbn [orb]. rewrite slice_suffix_rev by lia.
      rewrite count_n_graph_reverse. apply IH.
  - intros Hn. generalize (@nil (str * Z)) as d.
    induction words as [|w words IH]; intros d; [reflexivity|].
    cbn [fold_left]. pose proof (Zlen_nonneg w) as Hw.
    replace (Zlen w - n >? Zlen w) with true
      by (symmetry; rewrite Z.gtb_ltb; apply Z.ltb_lt; lia).
    rewrite orb_true_r. apply IH.
Qed.

(** *** Prefixes *)

Lemma is_prefix_firstn (g w : str) :
  is_prefix g w = true <-> firstn (length g) w = g.
Proof.
  revert w. induction g as [|c g IH]; intros w; simpl; [tauto|].
  destruct w as [|d w]; [split; discriminate|].
  rewrite andb_true_iff, IH, Ascii.eqb_eq. split.
  - intros [-> ->]. reflexivity.
  - intros H. inversion H. subst. rewrite H2. tauto.
Qed.

Lemma slice_prefix (w g : str) (n : Z) :
  0 <= n <= Zlen w ->
  str_eqb (slice w 0 (0 + n)) g
  = (Zlen g =? n) && is_prefix g w.
Proof.
  intros Hn. rewrite slice_nonneg by lia. cbn [Z.to_nat skipn].
  replace (Z.to_nat (0 + n - 0)) with (Z.to_nat n) by lia.
  destruct (Zlen g =? n) eqn:E; cbn [andb].
  - apply Z.eqb_eq in E. unfold Zlen in E.
    replace (Z.to_nat n) with (length g) by lia.
    destruct (is_prefix g w) eqn:P.
    + apply is_prefix_firstn in P. rewrite P. apply str_eqb_refl.
    + apply str_eqb_neq. intros H. apply is_prefix_firstn in H. congruence.
  - apply Z.eqb_neq in E. apply str_eqb_neq. intros H. apply E.
    rewrite <- H. unfold Zlen in *. rewrite length_firstn. lia.
Qed.

Lemma is_prefix_short (w g : str) :
  Zlen w < Zlen g -> is_prefix g w = false.
Proof.
  intros H. destruct (is_prefix g w) eqn:P; [|reflexivity].
  apply is_prefix_firstn in P. apply (f_equal (@length ascii)) in P.
  rewrite length_firstn in P. unfold Zlen in H. lia.
Qed.

(** X27: for n of at least 0, get_n_graph_prefixes returns a dict with
    distinct keys in which a string is a key exactly when it has n
    characters and some word starts with it, and its count is the number of
    words that start with it. *)
Theorem get_n_graph_prefixes_counts (words : list str) (n : Z) :
  0 <= n ->
  NoDup (map fst (get_n_graph_prefixes words n))
  /\ forall g c,
       aget str_eqb (get_n_graph_prefixes words n) g = Some c
       <-> Zlen g = n /\ 0 < c
           /\ c = Zlen (filter (fun w => is_prefix g w) words).
Proof.
  intros Hn.
  set (gs := flat_map (fun w => if 0 + n >? Zlen w then []
                                else [slice w 0 (0 + n)]) words).
  assert (Hfold : get_n_graph_prefixes words n
                  = fold_left count_n_graph gs []).
  { unfold get_n_graph_prefixes, gs. generalize (@nil (str * Z)) as d.
    induction words as [|w words IH]; intros d; [reflexivity|].
    cbn [fold_left flat_map]. rewrite fold_left_app.
    destruct (0 + n >? Zlen w); cbn [fold_left]; apply IH. }
  assert (Hcount : forall g,
             count_in gs g
             = if Zlen g =? n
               then Zlen (filter (fun w => is_prefix g w) words) else 0).
  { intros g. unfold gs. clear Hfold gs.
    induction words as [|w words IH].
    - destruct (Zlen g =? n); reflexivity.
    - cbn [flat_map filter]. rewrite count_in_app, IH.
      pose proof (Zlen_nonneg w) as Hw.
      destruct (0 + n >? Zlen w) eqn:E; rewrite Z.gtb_ltb in E.
      + apply Z.ltb_lt in E. destruct (Zlen g =? n) eqn:G; [|reflexivity].
        apply Z.eqb_eq in G. rewrite is_prefix_short by lia. reflexivity.
      + apply Z.ltb_ge in E. unfold count_in at 1. cbn [filter].
        rewrite slice_prefix by lia.
        destruct (Zlen g =? n); cbn [andb]; [|reflexivity].
        destruct (is_prefix g w); unfold Zlen; cbn [length]; lia. }
  rewrite Hfold. destruct (fold_count_n_graph_spec gs) as [Hnd Hspec].
  split; [exact Hnd|]. intros g c. rewrite Hspec, Hcount.
  destruct (Zlen g =? n) eqn:E.
  - apply Z.eqb_eq in E. tauto.
  - apply Z.eqb_neq in E. split; [lia | tauto].
Qed.

End NGraphEnds.

Lemma get_n_graph_prefixes_counts_witness :
  NoDup (map fst (get_n_graph_prefixes [lit "the"; lit "then"; lit "a"] 2))
  /\ forall g c,
       aget str_eqb (get_n_graph_prefixes [lit "the"; lit "then"; lit "a"] 2)
            g = Some c
       <-> Zlen g = 2 /\ 0 < c
           /\ c = Zlen (filter (fun w => is_prefix g w)
                          [lit "the"; lit "then"; lit "a"]).
Proof.
  apply get_n_graph_prefixes_counts. lia.
Defined.

Lemma get_n_graph_suffixes_reversed_prefixes_witness :
  get_n_graph_suffixes [lit "tiger"; lit "later"] 2
  = reverse_keys (get_n_graph_prefixes
                    (map (@rev ascii) [lit "tiger"; lit "later"]) 2)
  /\ get_n_graph_suffixes [lit "tiger"; lit "later"] (-1) = [].
Proof.
  split.
  - apply (proj1 (get_n_graph_suffixes_reversed_prefixes
                    [lit "tiger"; lit "later"] 2)). lia.
  - apply (proj2 (get_n_graph_suffixes_reversed_prefixes
                    [lit "tiger"; lit "later"] (-1))). lia.
Defined.
